(** * Client write path, reinit command, audit splitter and logpersist
      argument validation of system/logging, embedded in Rocq.

    The development follows the source files:
    - [liblog/logd_writer.cpp]   : [LogdWrite] (module [LogdWriter]);
    - [liblog/logger_write.cpp]  : [check_log_uid_permissions],
      [write_to_log], [log_to_file_if_overridden],
      [__android_log_logd_logger], [__android_log_write_log_message]
      (module [LoggerWrite]);
    - [logd/main.cpp]            : [issueReinit], [main] (module [LogdMain]);
    - [logd/LogAudit.cpp]        : [LogAudit::log] (module [LogAudit]);
    - the [logpersist] shell script (module [Logpersist]).

    Further parts of the same files follow these:
    - [liblog/logd_writer.cpp]   : [LogdSocket] (module [LogdSocket]), the
      retry of [LogdWrite] (module [LogdRetry]);
    - [liblog/logger_write.cpp]  : the text writers, the string event
      writers and the priority letter of [filestream_logger] (module
      [LogWriters]);
    - [logd/main.cpp]            : [DropPrivs] and the start of the daemon
      (module [LogdDaemon]), [readDmesg] (module [ReadDmesg]);
    - [logd/LogAudit.cpp]        : [hasMetadata], [populateDenialMap],
      [denialParse], [auditParse] (module [AuditMetadata]),
      [LogAudit::logPrint] (module [AuditPrint]);
    - the argument loop of [logpersist] (module [LogpersistOptions]).

    System calls are modelled by explicit outcomes handed to each function
    (an oracle record per call); what a function asks of the outside world is
    returned as a trace of events. *)

From Stdlib Require Import ZArith List String Ascii Bool Lia.
From stdpp Require Import base list relations gmap strings.
Import ListNotations.
Local Open Scope Z_scope.

(** ** Machine integers *)

(** [int] / [int32_t] / [atomic_int]: 32 bits, two's complement. *)
Definition INT_MAX : Z := 2 ^ 31 - 1.
Definition INT_MIN : Z := - 2 ^ 31.
Definition to_int (z : Z) : Z := (z + 2 ^ 31) mod 2 ^ 32 - 2 ^ 31.

Definition is_int (z : Z) : Prop := INT_MIN <= z <= INT_MAX.

(** ** errno values (Linux asm-generic/errno-base.h, errno.h) *)
Module Errno.
Definition EPERM  : Z := 1.
Definition EBADF  : Z := 9.
Definition EAGAIN : Z := 11.
Definition ENOMEM : Z := 12.
Definition EINVAL : Z := 22.
Definition ETIME  : Z := 62.
End Errno.
Import Errno.

(** Outcome of a system call after TEMP_FAILURE_RETRY: a non-negative
    result, or -1 with a (positive) errno. *)
Inductive sysret : Type :=
| SysOk (n : N)
| SysErr (errno : positive).

Definition sys_ret (r : sysret) : Z :=
  match r with SysOk n => Z.of_N n | SysErr _ => -1 end.

(** errno as left by the call; only read after a failure. *)
Definition sys_errno (r : sysret) : Z :=
  match r with SysOk _ => 0 | SysErr e => Z.pos e end.

(** ** Platform constants

    The numeric ids of private/android_filesystem_config.h, the per-record
    payload cap of log/log.h, the sizes of the packed wire structs of
    private/android_logger.h and three values of android/log.h are not part of
    the files embedded here, and the width of [size_t] depends on the ABI
    (32 or 64 bits); every result below is stated for an arbitrary
    platform. *)
Class Platform : Type := {
  (** the largest [size_t] *)
  SIZE_MAX : Z;
  AID_ROOT : Z;
  AID_SYSTEM : Z;
  AID_LOG : Z;
  AID_LOGD : Z;
  AID_SECURITY_LOG_WRITER : Z;
  LOGGER_ENTRY_MAX_PAYLOAD : Z;
  (** sizeof(android_log_header_t) *)
  sizeof_header : Z;
  (** sizeof(android_log_event_int_t) *)
  sizeof_event_int : Z;
  LIBLOG_LOG_TAG : Z;
  EVENT_TYPE_INT : Z;
  (** the sentinel of [log_id_t] that stands for the default buffer *)
  LOG_ID_DEFAULT : Z;
  ANDROID_LOG_FATAL : Z;
  ANDROID_LOG_WARN : Z
}.

(** The values of the AOSP headers on a 64-bit ABI, used to run the
    definitions on examples. *)
Definition aosp : Platform := {|
  SIZE_MAX := 2 ^ 64 - 1;
  AID_ROOT := 0;
  AID_SYSTEM := 1000;
  AID_LOG := 1007;
  AID_LOGD := 1036;
  AID_SECURITY_LOG_WRITER := 1091;
  LOGGER_ENTRY_MAX_PAYLOAD := 4068;
  sizeof_header := 11;
  sizeof_event_int := 9;
  LIBLOG_LOG_TAG := 1006;
  EVENT_TYPE_INT := 0;
  LOG_ID_DEFAULT := 2147483647;
  ANDROID_LOG_FATAL := 7;
  ANDROID_LOG_WARN := 5
|}.

(** Arithmetic on [size_t]: unsigned, wrapping. *)
Definition wrap_size_t `{Platform} (z : Z) : Z := z mod (SIZE_MAX + 1).

(** Modelled from the spec: the eight partitions of the [log_id_t]
    enumeration of android/log.h, which is not among the embedded files; the
    values are those of the ingest datagram format (section 6). *)
Definition LOG_ID_MAIN : Z := 0.
Definition LOG_ID_RADIO : Z := 1.
Definition LOG_ID_EVENTS : Z := 2.
Definition LOG_ID_SYSTEM : Z := 3.
Definition LOG_ID_CRASH : Z := 4.
Definition LOG_ID_STATS : Z := 5.
Definition LOG_ID_SECURITY : Z := 6.
Definition LOG_ID_KERNEL : Z := 7.

(** ** Wire data *)

Definition NUL : ascii := Ascii.zero.

(** [struct iovec]: [iov_base] is modelled by the bytes found at that
    address, [iov_len] is the [size_t] length the caller announces. *)
Record iovec : Type := mk_iovec { iov_base : list ascii; iov_len : Z }.

Record timespec : Type := mk_timespec { tv_sec : Z; tv_nsec : Z }.

(** [android_log_header_t] (packed): uint8 id, uint16 tid, two uint32. *)
Record android_log_header_t : Type := mk_header {
  hdr_id : Z;
  hdr_tid : Z;
  hdr_sec : Z;
  hdr_nsec : Z
}.

(** [android_log_event_int_t]: tag, payload type, payload data. *)
Record android_log_event_int_t : Type := mk_event_int {
  ev_tag : Z;
  ev_type : Z;
  ev_data : Z
}.

(** What one [writev] on the logd socket carries: the header followed
    either by the synthetic drop report or by the caller's iovecs. *)
Inductive datagram : Type :=
| drop_report (header : android_log_header_t) (buffer : android_log_event_int_t)
| log_record (header : android_log_header_t) (payload : list iovec).

(** The two streams the file logger prints to: the file it opened at
    ro.log.file_logger.path, and [stderr]. *)
Inductive FILE : Type := logfile | stderr.

(** [FilestreamLog] is one line printed by [filestream_logger]; of the
    line it keeps the stream, the priority, the tag and the message. *)
Inductive event : Type :=
| Writev (sock : Z) (d : datagram) (r : sysret)
| Reconnect (sock : Z)
| PmsgWrite (log_id : Z) (vec : list iovec)
| SetAbortMessage (msg : string)
| FilestreamLog (stream : FILE) (priority : Z) (tag msg : string).

(** Sum of the lengths of a list of iovecs (mathematical, no wrap). *)
Definition total_len (vec : list iovec) : Z :=
  fold_right (fun v acc => iov_len v + acc) 0 vec.

(** The bytes [writev] gathers from a list of iovecs. *)
Definition gather (vec : list iovec) : list ascii :=
  flat_map (fun v => take (Z.to_nat (iov_len v)) (iov_base v)) vec.

(** The buffer of an iovec holds the bytes its length announces. *)
Definition readable (v : iovec) : Prop :=
  iov_len v <= Z.of_nat (length (iov_base v)).

(** ** liblog/logd_writer.cpp *)
Module LogdWriter.
Section WithPlatform.
Context `{P : Platform}.

(** What the outside world answers during one call of [LogdWrite]. *)
Record oracle : Type := mk_oracle {
  (** [LogdSocket::BlockingSocket().sock()] *)
  blocking_sock : Z;
  (** [LogdSocket::NonBlockingSocket().sock()] *)
  nonblocking_sock : Z;
  getuid : Z;
  gettid : Z;
  (** [__android_log_is_loggable_len(ANDROID_LOG_INFO, "liblog", ...)] *)
  liblog_loggable : bool;
  (** outcome of the [writev] of the drop report, if one is attempted *)
  writev_report : sysret;
  (** outcome of the first [writev] of the record *)
  writev_first : sysret;
  (** outcome of the [writev] after [Reconnect], if one is attempted *)
  writev_retry : sysret
}.

(** The [for] loop that copies the caller's iovecs into [newVec] and cuts
    the payload at [LOGGER_ENTRY_MAX_PAYLOAD].  [payloadSize] is the
    running [size_t] sum; the result is [newVec[1 .. i-1]]. *)
Fixpoint copy_iovecs (payloadSize : Z) (vec : list iovec) : list iovec :=
  match vec with
  | [] => []
  | v :: rest =>
      let payloadSize' := wrap_size_t (payloadSize + iov_len v) in
      if LOGGER_ENTRY_MAX_PAYLOAD <? payloadSize' then
        let len' :=
          wrap_size_t (iov_len v - (payloadSize' - LOGGER_ENTRY_MAX_PAYLOAD)) in
        if len' =? 0 then [] else [mk_iovec (iov_base v) len']
      else v :: copy_iovecs payloadSize' rest
  end.

(** An iovec whose length leaves room for the cap below [SIZE_MAX]: adding
    it to a running sum that is within the cap cannot wrap. *)
Definition fits (v : iovec) : Prop :=
  0 <= iov_len v <= SIZE_MAX - LOGGER_ENTRY_MAX_PAYLOAD.

Definition make_header (id : Z) (o : oracle) (ts : timespec) :
  android_log_header_t :=
  mk_header (id mod 2 ^ 8) (gettid o mod 2 ^ 16)
            (tv_sec ts mod 2 ^ 32) (tv_nsec ts mod 2 ^ 32).

(** Result of a call: the returned [int], the new value of the static
    [dropped] counter, and the events in order. *)
Record result : Type := mk_result {
  ret : Z;
  dropped_out : Z;
  events : list event
}.

Definition LogdWrite (o : oracle) (dropped : Z)
           (logId : Z) (ts : timespec) (vec : list iovec) : result :=
  let sock :=
    if logId =? LOG_ID_SECURITY then blocking_sock o else nonblocking_sock o in
  if sock <? 0 then mk_result (- EBADF) dropped []
  else if getuid o =? AID_LOGD then mk_result 0 dropped []
  else
    (* atomic_exchange_explicit(&dropped, 0, ...) *)
    let snapshot := dropped in
    let dropped := 0 in
    let '(dropped, ev_report) :=
      if negb (snapshot =? 0) && liblog_loggable o then
        let buffer := mk_event_int LIBLOG_LOG_TAG EVENT_TYPE_INT snapshot in
        let d := drop_report (make_header LOG_ID_EVENTS o ts) buffer in
        let r := sys_ret (writev_report o) in
        (if negb (r =? sizeof_header + sizeof_event_int)
         then to_int (dropped + snapshot) else dropped,
         [Writev sock d (writev_report o)])
      else (dropped, []) in
    let d := log_record (make_header logId o ts) (copy_iovecs 0 vec) in
    let '(w, ev_write) :=
      if (sys_ret (writev_first o) <? 0)
         && negb (sys_errno (writev_first o) =? EAGAIN)
      then (writev_retry o,
            [Writev sock d (writev_first o); Reconnect sock;
             Writev sock d (writev_retry o)])
      else (writev_first o, [Writev sock d (writev_first o)]) in
    let r := if sys_ret w <? 0 then - sys_errno w else sys_ret w in
    if sizeof_header <? r then
      mk_result (to_int (r - sizeof_header)) dropped (ev_report ++ ev_write)
    else if r <? 0 then
      mk_result (to_int r) (to_int (dropped + 1)) (ev_report ++ ev_write)
    else
      mk_result (to_int r) dropped (ev_report ++ ev_write).

(** The [writev] whose result decides the return value: the retry after
    [Reconnect] when the first attempt failed with an errno other than
    EAGAIN, the first attempt otherwise. *)
Definition record_outcome (o : oracle) : sysret :=
  if (sys_ret (writev_first o) <? 0)
     && negb (sys_errno (writev_first o) =? EAGAIN)
  then writev_retry o else writev_first o.

(** The socket [LogdWrite] picks for a log id. *)
Definition socket_for (o : oracle) (logId : Z) : Z :=
  if logId =? LOG_ID_SECURITY then blocking_sock o else nonblocking_sock o.

(** *** Observations on the events of a call, used to state the
    accounting of the [dropped] counter. *)

(** Drops carried by the drop reports that logd received whole. *)
Definition reported_by (e : event) : Z :=
  match e with
  | Writev _ (drop_report _ buffer) r =>
      if sys_ret r =? sizeof_header + sizeof_event_int then ev_data buffer else 0
  | _ => 0
  end.

Definition reported (evs : list event) : Z :=
  fold_right (fun e acc => reported_by e + acc) 0 evs.

(** A call failed to write its record when its last [writev] was the
    record's and returned -1. *)
Definition record_write_failed (evs : list event) : bool :=
  match last evs with
  | Some (Writev _ (log_record _ _) (SysErr _)) => true
  | _ => false
  end.

(** One call as seen by a caller: the oracle of that call and the arguments. *)
Record call : Type := mk_call {
  call_oracle : oracle;
  call_logId : Z;
  call_ts : timespec;
  call_vec : list iovec
}.

(** A single thread calling [LogdWrite] repeatedly; the static counter is
    threaded from call to call.  Returns the final counter and the results
    in call order. *)
Fixpoint run (dropped : Z) (calls : list call) : Z * list result :=
  match calls with
  | [] => (dropped, [])
  | c :: rest =>
      let r := LogdWrite (call_oracle c) dropped (call_logId c) (call_ts c)
                         (call_vec c) in
      let '(final, rs) := run (dropped_out r) rest in
      (final, r :: rs)
  end.

Definition total_reported (rs : list result) : Z :=
  fold_right (fun r acc => reported (events r) + acc) 0 rs.

Definition total_failed (rs : list result) : Z :=
  fold_right (fun r acc => (if record_write_failed (events r) then 1 else 0) + acc)
             0 rs.

End WithPlatform.
End LogdWriter.

(** ** The [dropped] counter under several threads

    The atomic actions of [LogdWrite] on the static counter and the socket
    (lines 151-202), for any number of threads inside the function at once.
    The early returns touch neither and are left out. *)
Module DropCounter.

(** Where a thread stands between two atomic actions. *)
Inductive pc : Type :=
| Idle                        (* not past the exchange of line 151 *)
| Exchanged (snapshot : Z)    (* holds the snapshot, report not yet tried *)
| ReportFailed (snapshot : Z) (* report not written whole, line 166 is next *)
| Reported                    (* past the report block, record not yet written *)
| WriteFailed.                (* record refused, line 201 is next *)

Record state : Type := mk_state {
  dropped : Z;          (* the static atomic counter *)
  reported : Z;         (* drops carried by the reports logd took whole *)
  failed : Z;           (* records whose last writev failed *)
  threads : list pc
}.

(** One atomic action of thread [i].  [loggable] is what
    [__android_log_is_loggable_len] answers for liblog. *)
Inductive step (loggable : bool) : state -> state -> Prop :=
| step_exchange (i : nat) (st : state) :
    threads st !! i = Some Idle ->
    step loggable st
         (mk_state 0 (reported st) (failed st)
                   (<[i := Exchanged (dropped st)]> (threads st)))
| step_report_whole (i : nat) (s : Z) (st : state) :
    threads st !! i = Some (Exchanged s) -> s <> 0 -> loggable = true ->
    step loggable st
         (mk_state (dropped st) (reported st + s) (failed st)
                   (<[i := Reported]> (threads st)))
| step_report_partial (i : nat) (s : Z) (st : state) :
    threads st !! i = Some (Exchanged s) -> s <> 0 -> loggable = true ->
    step loggable st
         (mk_state (dropped st) (reported st) (failed st)
                   (<[i := ReportFailed s]> (threads st)))
| step_no_report (i : nat) (s : Z) (st : state) :
    threads st !! i = Some (Exchanged s) -> s = 0 \/ loggable = false ->
    step loggable st
         (mk_state (dropped st) (reported st) (failed st)
                   (<[i := Reported]> (threads st)))
| step_add_back (i : nat) (s : Z) (st : state) :
    threads st !! i = Some (ReportFailed s) ->
    step loggable st
         (mk_state (to_int (dropped st + s)) (reported st) (failed st)
                   (<[i := Reported]> (threads st)))
| step_write_ok (i : nat) (st : state) :
    threads st !! i = Some Reported ->
    step loggable st
         (mk_state (dropped st) (reported st) (failed st)
                   (<[i := Idle]> (threads st)))
| step_write_failed (i : nat) (st : state) :
    threads st !! i = Some Reported ->
    step loggable st
         (mk_state (dropped st) (reported st) (failed st + 1)
                   (<[i := WriteFailed]> (threads st)))
| step_count (i : nat) (st : state) :
    threads st !! i = Some WriteFailed ->
    step loggable st
         (mk_state (to_int (dropped st + 1)) (reported st) (failed st)
                   (<[i := Idle]> (threads st))).

(** The drops a thread holds that are neither in the counter nor
    reported. *)
Definition held (p : pc) : Z :=
  match p with
  | Exchanged s | ReportFailed s => s
  | WriteFailed => 1
  | Idle | Reported => 0
  end.

Definition in_flight (ts : list pc) : Z :=
  fold_right (fun p acc => held p + acc) 0 ts.

(** Equality of 32-bit counters: up to a multiple of 2^32. *)
Definition congruent (a b : Z) : Prop := exists k, a = b + k * 2 ^ 32.

(** Counter, reports and drops in flight account for the failed writes and
    the [initial] content of the counter. *)
Definition balanced (initial : Z) (st : state) : Prop :=
  congruent (dropped st + reported st + in_flight (threads st))
            (initial + failed st).

End DropCounter.

(** ** liblog/logger_write.cpp *)
Module LoggerWrite.
Import LogdWriter.
Section WithPlatform.
Context `{P : Platform}.

(** The process and the services [write_to_log] consults, on top of what
    [LogdWrite] needs.  The real uid is the one of the [LogdWrite] oracle. *)
Record environment : Type := mk_environment {
  logd : LogdWriter.oracle;
  geteuid : Z;
  getgid : Z;
  getegid : Z;
  (** the supplementary groups, as both [getgroups] calls report them *)
  getgroups : list Z;
  (** whether [calloc] of the group array succeeds *)
  calloc_succeeds : bool;
  (** [__android_log_security()] *)
  android_log_security : bool;
  (** [clock_gettime(CLOCK_REALTIME)] *)
  clock_realtime : timespec;
  (** whether ro.log.file_logger.path is set *)
  file_logger_overridden : bool;
  (** its value, [get_file_logger_path()] *)
  file_logger_path : string;
  (** the function-static [stream] of [log_to_file_if_overridden] when the
      message arrives: [None] as long as no message has initialised it *)
  stream : option FILE;
  (** [fopen(file_logger_path, "ae")], called when [stream] is
      initialised: [None] when it succeeds, [strerror(errno)] when it
      fails *)
  fopen_error : option string
}.

Definition not_privileged (id : Z) : bool :=
  negb (id =? AID_SYSTEM) && negb (id =? AID_ROOT) && negb (id =? AID_LOG).

(** The [while (num_groups > 0)] loop: scans [groups] from the last entry
    down and stops at the first AID_LOG or AID_SECURITY_LOG_WRITER; returns
    the value of [num_groups] when the loop ends. *)
Fixpoint scan_groups (groups : list Z) (num_groups : nat) : nat :=
  match num_groups with
  | O => O
  | S n =>
      match groups !! n with
      | Some g =>
          if (g =? AID_LOG) || (g =? AID_SECURITY_LOG_WRITER) then S n
          else scan_groups groups n
      | None => scan_groups groups n
      end
  end.

Definition check_log_uid_permissions (o : environment) : Z :=
  if not_privileged (getuid (logd o)) then
    if not_privileged (geteuid o) then
      if not_privileged (getgid o) then
        if not_privileged (getegid o) then
          let num_groups := length (getgroups o) in
          if (Z.of_nat num_groups <=? 0) then - EPERM
          else if negb (calloc_succeeds o) then - ENOMEM
          else
            let num_groups := scan_groups (getgroups o) num_groups in
            if (Z.of_nat num_groups <=? 0) then - EPERM else 0
        else 0
      else 0
    else 0
  else 0.

(** The end of [write_to_log]: [LogdWrite], then [PmsgWrite], and the
    value of the former is returned. *)
Definition submit (o : environment) (dropped : Z) (log_id : Z)
           (vec : list iovec) (timestamp : option timespec) : result :=
  let ts := match timestamp with
            | Some t => t
            | None => clock_realtime o
            end in
  let r := LogdWrite (logd o) dropped log_id ts vec in
  mk_result (ret r) (dropped_out r) (events r ++ [PmsgWrite log_id vec]).

(** [write_to_log] (the __ANDROID__ variant).  [None] stands for the
    undefined read of [vec[0]] when [nr = 0]. *)
Definition write_to_log (o : environment) (dropped : Z) (log_id : Z)
           (vec : list iovec) (timestamp : option timespec) : option result :=
  if log_id =? LOG_ID_KERNEL then Some (mk_result (- EINVAL) dropped [])
  else if log_id =? LOG_ID_SECURITY then
    match vec !! 0%nat with
    | None => None
    | Some v0 =>
        if iov_len v0 <? 4 then Some (mk_result (- EINVAL) dropped [])
        else
          let ret := check_log_uid_permissions o in
          if ret <? 0 then Some (mk_result ret dropped [])
          else if negb (android_log_security o)
               then Some (mk_result (- EPERM) dropped [])
               else Some (submit o dropped log_id vec timestamp)
    end
  else if (log_id =? LOG_ID_EVENTS) || (log_id =? LOG_ID_STATS) then
    match vec !! 0%nat with
    | None => None
    | Some v0 =>
        if iov_len v0 <? 4 then Some (mk_result (- EINVAL) dropped [])
        else Some (submit o dropped log_id vec timestamp)
    end
  else Some (submit o dropped log_id vec timestamp).

(** The approved set of the security partition, as the permission check is
    described: a privileged real or effective uid or gid, or a
    supplementary group that is AID_LOG or AID_SECURITY_LOG_WRITER. *)
Definition privileged (id : Z) : Prop :=
  id = AID_SYSTEM \/ id = AID_ROOT \/ id = AID_LOG.

Definition primary_approved (o : environment) : Prop :=
  privileged (getuid (logd o)) \/ privileged (geteuid o)
  \/ privileged (getgid o) \/ privileged (getegid o).

Definition group_approved (o : environment) : Prop :=
  exists g, In g (getgroups o) /\ (g = AID_LOG \/ g = AID_SECURITY_LOG_WRITER).

Definition approved (o : environment) : Prop :=
  primary_approved o \/ group_approved o.

(** The group array is needed, there are groups to store, and [calloc]
    returns null. *)
Definition alloc_fails (o : environment) : Prop :=
  ~ primary_approved o /\ getgroups o <> [] /\ calloc_succeeds o = false.

(** [struct __android_log_message]; [tag] and [file] may be null. *)
Record __android_log_message : Type := mk_message {
  struct_size : Z;
  buffer_id : Z;
  priority : Z;
  tag : option string;
  file : option string;
  line : Z;
  message : string
}.

Definition c_string_bytes (s : string) : list ascii :=
  list_ascii_of_string s ++ [NUL].

Definition strlen (s : string) : Z := Z.of_nat (String.length s).

(** Little-endian bytes of a 32-bit value, as found at the address of an
    [int32_t]. *)
Definition le32 (z : Z) : list ascii :=
  map (fun k => ascii_of_N (Z.to_N ((z mod 2 ^ 32) / 2 ^ (8 * k) mod 2 ^ 8)))
      [0; 1; 2; 3].

(** What a logger function leaves behind: the [dropped] counter and the
    events.  [None] is undefined behaviour ([strlen] of a null tag). *)
Definition logger_effect : Type := option (Z * list event).

Definition __android_logger_function : Type :=
  __android_log_message -> Z -> logger_effect.

(** [filestream_logger(log_message, stream)] prints one line on [stream];
    [priority], [tag] and [message] are the fields of [log_message] it
    prints (next to the time, the pid, the tid and, when set, the file and
    the line, which the event leaves out). *)
Definition filestream_logger (priority : Z) (tag : option string)
           (message : string) (stream : FILE) : event :=
  FilestreamLog stream priority
                (match tag with Some t => t | None => " nullptr"%string end)
                message.

(** The initialiser of the static [stream]: the stream, and what opening
    it prints.  When [fopen] fails a warning of liblog goes to [stderr],
    which becomes the stream. *)
Definition open_stream (o : environment) : list event * FILE :=
  match fopen_error o with
  | None => ([], logfile)
  | Some strerror =>
      let err_msg :=
        ("Cannot open " ++ file_logger_path o ++ " for logging: ("
         ++ strerror ++ "). Falling back to stderr")%string in
      ([filestream_logger ANDROID_LOG_WARN (Some "liblog"%string) err_msg stderr],
       stderr)
  end.

(** [log_to_file_if_overridden]: [None] when it returns false, otherwise
    the lines printed.  The static [stream] is initialised by the first
    message that comes here. *)
Definition log_to_file_if_overridden (o : environment)
           (log_message : __android_log_message) : option (list event) :=
  if negb (file_logger_overridden o) then None
  else
    let opened :=
      match stream o with
      | Some f => ([], f)
      | None => open_stream o
      end in
    Some (opened.1
          ++ [filestream_logger (priority log_message) (tag log_message)
                                (message log_message) opened.2]).

Definition __android_log_logd_logger_with_timestamp (o : environment)
           (timestamp : option timespec)
  : __android_logger_function := fun log_message dropped =>
  match log_to_file_if_overridden o log_message with
  | Some printed => Some (dropped, printed)
  | None =>
    let buffer_id :=
      if buffer_id log_message =? LOG_ID_DEFAULT then LOG_ID_MAIN
      else buffer_id log_message in
    match tag log_message with
    | None => None
    | Some t =>
        let vec :=
          [ mk_iovec (le32 (priority log_message)) 1;
            mk_iovec (c_string_bytes t) (strlen t + 1);
            mk_iovec (c_string_bytes (message log_message))
                     (strlen (message log_message) + 1) ] in
        match write_to_log o dropped buffer_id vec timestamp with
        | None => None
        | Some r => Some (dropped_out r, events r)
        end
    end
  end.

Definition __android_log_logd_logger (o : environment) : __android_logger_function :=
  __android_log_logd_logger_with_timestamp o None.

(** [logger_function] and the default tag are the globals of the file; they
    are passed explicitly. *)
Definition __android_log_write_log_message
           (logger_function : __android_logger_function) (default_tag : string)
           (log_message : __android_log_message) (dropped : Z) : logger_effect :=
  if negb (buffer_id log_message =? LOG_ID_DEFAULT)
     && negb (buffer_id log_message =? LOG_ID_MAIN)
     && negb (buffer_id log_message =? LOG_ID_SYSTEM)
     && negb (buffer_id log_message =? LOG_ID_RADIO)
     && negb (buffer_id log_message =? LOG_ID_CRASH)
  then Some (dropped, [])
  else
    let log_message :=
      match tag log_message with
      | None =>
          mk_message (struct_size log_message) (buffer_id log_message)
                     (priority log_message) (Some default_tag)
                     (file log_message) (line log_message)
                     (message log_message)
      | Some _ => log_message
      end in
    let abort_ev :=
      if priority log_message =? ANDROID_LOG_FATAL
      then [SetAbortMessage (message log_message)] else [] in
    match logger_function log_message dropped with
    | None => None
    | Some (dropped', evs) => Some (dropped', abort_ev ++ evs)
    end.

(** The binary writers: a 4-byte tag, then the payload. *)
Definition __android_log_bwrite (o : environment) (dropped : Z) (tag : Z)
           (payload : list ascii) (len : Z) : option result :=
  write_to_log o dropped LOG_ID_EVENTS
               [mk_iovec (le32 tag) 4; mk_iovec payload len] None.

Definition __android_log_stats_bwrite (o : environment) (dropped : Z) (tag : Z)
           (payload : list ascii) (len : Z) : option result :=
  write_to_log o dropped LOG_ID_STATS
               [mk_iovec (le32 tag) 4; mk_iovec payload len] None.

Definition __android_log_security_bwrite (o : environment) (dropped : Z) (tag : Z)
           (payload : list ascii) (len : Z) : option result :=
  write_to_log o dropped LOG_ID_SECURITY
               [mk_iovec (le32 tag) 4; mk_iovec payload len] None.

(** The log ids of the record datagrams among some events. *)
Definition submitted_ids (evs : list event) : list Z :=
  flat_map (fun e => match e with
                     | Writev _ (log_record h _) _ => [hdr_id h]
                     | _ => []
                     end) evs.

End WithPlatform.
End LoggerWrite.

(** ** logd/main.cpp: the --reinit command *)
Module LogdMain.

Definition POLLIN : Z := 1.

(** Outcome of [read]: the bytes the kernel had for us, or a failure. *)
Inductive read_outcome : Type :=
| ReadData (bytes : list ascii)
| ReadErr (errno : positive).

Record oracle : Type := mk_oracle {
  (** [socket_local_client("logd", RESERVED, SOCK_STREAM)]: the fd *)
  socket_local_client : sysret;
  write_result : sysret;
  poll_result : sysret;
  poll_revents : Z;
  read_result : read_outcome
}.

Inductive event : Type :=
| Connect (name : string)
| Write (fd : Z) (bytes : list ascii)
| Poll (fd : Z) (events : Z) (timeout_ms : Z)
| Read (fd : Z) (count : Z).

(** [strncmp]: compares at most [n] characters and stops after a NUL; the
    end of a list reads as NUL. *)
Fixpoint strncmp (s1 s2 : list ascii) (n : nat) : Z :=
  match n with
  | O => 0
  | S n' =>
      let c1 := hd NUL s1 in
      let c2 := hd NUL s2 in
      if negb (Ascii.eqb c1 c2) then Z.of_N (N_of_ascii c1) - Z.of_N (N_of_ascii c2)
      else if Ascii.eqb c1 NUL then 0
      else strncmp (tl s1) (tl s2) n'
  end.

(** [static const char reinitStr[] = "reinit"]: seven bytes with the NUL. *)
Definition reinitStr : list ascii := list_ascii_of_string "reinit" ++ [NUL].
Definition success : list ascii := list_ascii_of_string "success" ++ [NUL].
Definition sizeof (a : list ascii) : Z := Z.of_nat (length a).

(** [char buffer[sizeof(success) - 1] = {}] after [read] stored [bytes]:
    the kernel copies at most the size of the buffer. *)
Definition fill_buffer (size : nat) (bytes : list ascii) : list ascii :=
  take size bytes ++ replicate (size - length (take size bytes)) NUL.

Definition issueReinit (o : oracle) : Z * list event :=
  let ev0 := [Connect "logd"] in
  let sock := sys_ret (socket_local_client o) in
  if sock <? 0 then (- sys_errno (socket_local_client o), ev0)
  else
    let ev1 := ev0 ++ [Write sock reinitStr] in
    let ret := sys_ret (write_result o) in
    if ret <? 0 then (- sys_errno (write_result o), ev1)
    else
      let ev2 := ev1 ++ [Poll sock POLLIN 1000] in
      let ret := sys_ret (poll_result o) in
      if ret <? 0 then (- sys_errno (poll_result o), ev2)
      else if (ret =? 0) || (Z.land (poll_revents o) POLLIN =? 0)
      then (- ETIME, ev2)
      else
        let ev3 := ev2 ++ [Read sock (sizeof success - 1)] in
        match read_result o with
        | ReadErr e => (- Z.pos e, ev3)
        | ReadData bytes =>
            let buffer := fill_buffer (length success - 1) bytes in
            (if negb (strncmp buffer success (length success - 1) =? 0)
             then 1 else 0, ev3)
        end.

(** A reply beginning with "success" arrived in time: the connection was
    made, the command written, [poll] reported the socket readable before
    its timeout, and the bytes read begin with the seven of "success". *)
Definition reply_is_success (o : oracle) : Prop :=
  exists (fd n k : N) (bytes : list ascii),
    socket_local_client o = SysOk fd
    /\ write_result o = SysOk n
    /\ poll_result o = SysOk k /\ k <> 0%N
    /\ Z.land (poll_revents o) POLLIN <> 0
    /\ read_result o = ReadData bytes
    /\ take 7 bytes = list_ascii_of_string "success".

(** The exit status a parent sees: the low 8 bits of what [main] returns. *)
Definition exit_status (returned : Z) : Z := returned mod 256.

(** Every errno the oracle gives is below 256, as the errnos of Linux are. *)
Definition errnos_fit_byte (o : oracle) : Prop :=
  sys_errno (socket_local_client o) < 256
  /\ sys_errno (write_result o) < 256
  /\ sys_errno (poll_result o) < 256
  /\ match read_result o with
     | ReadErr e => Z.pos e < 256
     | ReadData _ => True
     end.

(** [main]: only the --reinit branch returns here; otherwise the daemon is
    set up and serves until killed, which is outside this embedding. *)
Inductive main_outcome : Type :=
| Returned (status : Z) (evs : list event)
| RunsDaemon.

Definition main (o : oracle) (argv : list string) : main_outcome :=
  let argc := Z.of_nat (length argv) in
  if (1 <? argc)
     && match argv !! 1%nat with
        | Some a => String.eqb a "--reinit"
        | None => false
        end
  then let '(status, evs) := issueReinit o in Returned status evs
  else RunsDaemon.

End LogdMain.

(** ** logd/LogAudit.cpp: [LogAudit::log] *)
Module LogAudit.

(** Is [needle] a prefix of the C string stored at [mem]?  The needles
    used here contain no NUL; the end of [mem] reads as NUL. *)
Fixpoint starts_with (needle mem : list ascii) : bool :=
  match needle with
  | [] => true
  | n :: needle' =>
      match mem with
      | [] => false
      | c :: mem' =>
          if Ascii.eqb c NUL then false
          else Ascii.eqb n c && starts_with needle' mem'
      end
  end.

(** [strstr]: offset of the first occurrence of [needle] in the C string
    at [haystack], [None] for a null result. *)
Fixpoint strstr (haystack needle : list ascii) : option nat :=
  if starts_with needle haystack then Some O
  else
    match haystack with
    | [] => None
    | c :: rest =>
        if Ascii.eqb c NUL then None else option_map S (strstr rest needle)
    end.

(** The C string at an address: the bytes before the first NUL. *)
Fixpoint c_str (mem : list ascii) : list ascii :=
  match mem with
  | [] => []
  | c :: rest => if Ascii.eqb c NUL then [] else c :: c_str rest
  end.

Definition audit_marker : list ascii := list_ascii_of_string " audit(".
Definition type_marker : list ascii := list_ascii_of_string "type=".
Definition space : ascii := " "%char.

(** Result of [log]: the returned value, the buffer as the caller finds it
    afterwards, and the texts handed to [logPrint] (after formatting). *)
Record log_result : Type := mk_log_result {
  rc : Z;
  buf_after : list ascii;
  printed : list (list ascii)
}.

(** [logPrint] formats its arguments into a string of its own (vasprintf)
    and works on that copy; it is given here as the function from the
    formatted text to its return value. *)
Definition log (logPrint : list ascii -> Z) (buf : list ascii) (len : Z)
  : log_result :=
  match strstr buf audit_marker with
  | None => mk_log_result 0 buf []
  | Some audit =>
      if len <=? Z.of_nat audit then mk_log_result 0 buf []
      else
        (* *audit = '\0' *)
        let buf1 := <[audit := NUL]> buf in
        let rest := c_str (drop (S audit) buf1) in
        let text :=
          match strstr buf1 type_marker with
          | Some type =>
              if Z.of_nat type <? len
              then c_str (drop type buf1) ++ [space] ++ rest
              else rest
          | None => rest
          end in
        let rc := logPrint text in
        (* *audit = ' ' *)
        let buf2 := <[audit := space]> buf1 in
        mk_log_result rc buf2 [text]
  end.

(** The bytes of [needle] lie in [buf] wholly inside its first [len]
    bytes: at some offset [i] with [i + |needle| <= len]. *)
Definition contains_within (needle buf : list ascii) (len : Z) : Prop :=
  exists i : nat,
    take (length needle) (drop i buf) = needle
    /\ Z.of_nat i + Z.of_nat (length needle) <= len.

End LogAudit.

(** ** The logpersist script *)
Module Logpersist.
Local Open Scope string_scope.

(** What the script asks of the system before it validates its arguments. *)
Record oracle : Type := mk_oracle {
  getprop : string -> string;
  (** the integer the shell's [[ ]] reads in an operand of -lt / -ge, [None]
      when it rejects the operand *)
  sh_integer : string -> option Z;
  (** whether [logcat -b <buffer> -g] succeeds *)
  logcat_accepts : string -> bool
}.

Inductive message : Type :=
| Disabled
| Usage
| BadArgument (args : list string)
| InvalidSize (size : string)
| InvalidBuffer (buffer : string).

(** How the script leaves its validation part (lines 1-62): by [exit], by
    a [shift] with nothing left to shift (after a trailing -n or -b; what
    the shell does then is not decided here), or on to the subcommands
    with the variables [size], [buffer] ([None] when unset) and [clear]. *)
Inductive outcome : Type :=
| Exit (code : Z) (out : list message)
| ShiftFailure
| Validated (size buffer : option string) (clear : bool).

(** [${1#prefix}] when [${1}] matches [prefix*]. *)
Fixpoint strip_prefix (prefix s : string) : option string :=
  match prefix with
  | EmptyString => Some s
  | String a prefix' =>
      match s with
      | EmptyString => None
      | String b s' => if Ascii.eqb a b then strip_prefix prefix' s' else None
      end
  end.

Definition one_of (s : string) (l : list string) : bool :=
  existsb (String.eqb s) l.

Definition size_default : string := "256".
Definition buffer_default : string := "all".

(** How the argument loop ends: with the variables set, or the script
    stopped inside the loop. *)
Inductive parsed : Type :=
| Parsed (size buffer : string) (clear : bool)
| Stopped (out : outcome).

(** The [while [ ${#} -gt 0 ]] loop over the positional parameters. *)
Fixpoint parse_args (args : list string) (size buffer : string) (clear : bool)
  : parsed :=
  match args with
  | [] => Parsed size buffer clear
  | a :: rest =>
      if one_of a ["-c"; "--clear"] then parse_args rest size buffer true
      else match strip_prefix "--size=" a with
      | Some v => parse_args rest v buffer clear
      | None =>
      match strip_prefix "--rotate-count=" a with
      | Some v => parse_args rest v buffer clear
      | None =>
      if one_of a ["-n"; "--size"; "--rotate-count"] then
        match rest with
        | v :: rest' => parse_args rest' v buffer clear
        | [] => Stopped ShiftFailure
        end
      else match strip_prefix "--buffer=" a with
      | Some v => parse_args rest size v clear
      | None =>
      if one_of a ["-b"; "--buffer"] then
        match rest with
        | v :: rest' => parse_args rest' size v clear
        | [] => Stopped ShiftFailure
        end
      else if one_of a ["-h"; "--help"] then Stopped (Exit 0 [Usage])
      else Stopped (Exit 1 [Usage; BadArgument (a :: rest)])
      end end end
  end.

Definition has_prefix (prefix s : string) : bool :=
  match strip_prefix prefix s with Some _ => true | None => false end.

(** The arguments matched by a pattern of the loop other than the last. *)
Definition recognized (a : string) : bool :=
  one_of a ["-c"; "--clear"; "-n"; "--size"; "--rotate-count"; "-b";
            "--buffer"; "-h"; "--help"]
  || has_prefix "--size=" a || has_prefix "--rotate-count=" a
  || has_prefix "--buffer=" a.

(** The operand is an integer from 1 to 2048 for the shell. *)
Definition integer_1_to_2048 (o : oracle) (size : string) : Prop :=
  exists n, sh_integer o size = Some n /\ (1 <= n <= 2048)%Z.

(** [[ 0 -lt "${size}" ] && [ 2048 -ge "${size}" ]] *)
Definition size_in_range (o : oracle) (size : string) : bool :=
  match sh_integer o size with
  | Some n => (0 <? n)%Z && (n <=? 2048)%Z
  | None => false
  end.

(** [if [ -z "${v}" -o "${default}" = "${v}" ]; then unset v; fi] *)
Definition unset_if_default (default v : string) : option string :=
  if String.eqb v "" || String.eqb default v then None else Some v.

(** Lines 48-62: the checks of [size] and [buffer] after the loop. *)
Definition validate (o : oracle) (size buffer : string) (clear : bool)
  : outcome :=
  let size := unset_if_default size_default size in
  let bad_size :=
    match size with
    | Some s => if negb (size_in_range o s) then Some s else None
    | None => None
    end in
  match bad_size with
  | Some s => Exit 1 [InvalidSize s]
  | None =>
      let buffer := unset_if_default buffer_default buffer in
      match buffer with
      | Some b =>
          if negb (logcat_accepts o b) then Exit 1 [InvalidBuffer b]
          else Validated size buffer clear
      | None => Validated size buffer clear
      end
  end.

(** The script from its first line to the end of the validation. *)
Definition logpersist (o : oracle) (args : list string) : outcome :=
  if negb (String.eqb (getprop o "logd.logpersistd.enable") "true")
  then Exit 1 [Disabled]
  else
    match parse_args args size_default buffer_default false with
    | Parsed size buffer clear => validate o size buffer clear
    | Stopped out => out
    end.

(** A shell that reads operands as optionally signed decimal numbers, to
    run the script on examples. *)
Definition digit_of (c : ascii) : option Z :=
  let n := Z.of_N (N_of_ascii c) in
  if (48 <=? n)%Z && (n <=? 57)%Z then Some (n - 48)%Z else None.

Fixpoint digits (s : string) (acc : Z) : option Z :=
  match s with
  | EmptyString => Some acc
  | String c s' =>
      match digit_of c with
      | Some d => digits s' (10 * acc + d)%Z
      | None => None
      end
  end.

Definition decimal (s : string) : option Z :=
  match s with
  | EmptyString => None
  | String "-" s' => if String.eqb s' "" then None else option_map Z.opp (digits s' 0%Z)
  | String "+" s' => if String.eqb s' "" then None else digits s' 0%Z
  | _ => digits s 0%Z
  end.

End Logpersist.

(** ** Concrete inputs on which the definitions are run below *)
Module Examples.

Definition ts0 : timespec := mk_timespec 1700000000 0.

(** An application process (uid 10123) with open sockets; every [writev]
    is answered by [w]. *)
Definition app (loggable : bool) (w : sysret) : LogdWriter.oracle :=
  LogdWriter.mk_oracle 3 4 10123 4242 loggable w w w.

(** logd itself (uid AID_LOGD of [aosp]) with sockets [fd]. *)
Definition logd_self (fd : Z) : LogdWriter.oracle :=
  LogdWriter.mk_oracle fd fd 1036 1 true (SysOk 0) (SysOk 0) (SysOk 0).

Definition bytes (n : Z) : iovec := mk_iovec [] n.

(** Two iovecs whose lengths add up to 2^64. *)
Definition wrapping_vec : list iovec := [bytes 1; bytes (@SIZE_MAX aosp)].

Definition small_vec : list iovec := [bytes 4000; bytes 100; bytes 7].

(** The environment of an application that is in no privileged group;
    security logging is enabled. *)
Definition app_env (w : sysret) : LoggerWrite.environment :=
  LoggerWrite.mk_environment (app true w) 10123 10123 10123 [3003; 9997; 20123]
                             true true ts0 false EmptyString None None.

(** The same application with the security-log writer group. *)
Definition writer_env (w : sysret) : LoggerWrite.environment :=
  LoggerWrite.mk_environment (app true w) 10123 10123 10123 [3003; 1091]
                             true true ts0 false EmptyString None None.

(** The same, when memory for the group array cannot be had. *)
Definition writer_env_oom (w : sysret) : LoggerWrite.environment :=
  LoggerWrite.mk_environment (app true w) 10123 10123 10123 [3003; 1091]
                             false true ts0 false EmptyString None None.

(** A text message for the main buffer, and one for a buffer id that is
    not a text buffer (LOG_ID_EVENTS). *)
Definition hello (buffer : Z) : LoggerWrite.__android_log_message :=
  LoggerWrite.mk_message 56 buffer 4 (Some "app"%string) None 0 "hello"%string.

(** A device where logpersist is enabled, the shell reads decimal
    operands, and logcat knows the buffers main, system and crash. *)
Definition device : Logpersist.oracle :=
  Logpersist.mk_oracle
    (fun name => if String.eqb name "logd.logpersistd.enable" then "true" else "")%string
    Logpersist.decimal
    (fun b => Logpersist.one_of b ["main"; "system"; "crash"]%string).

(** The same device with the service disabled. *)
Definition disabled_device : Logpersist.oracle :=
  Logpersist.mk_oracle (fun _ => "false"%string) Logpersist.decimal
                       (fun _ => true).

(** A reply to --reinit: the control socket answers [bytes]. *)
Definition reinit_reply (bytes : string) : LogdMain.oracle :=
  LogdMain.mk_oracle (SysOk 5) (SysOk 7) (SysOk 1) 1
                     (LogdMain.ReadData (list_ascii_of_string bytes)).

(** A kernel line with an audit record. *)
Definition audit_line : list ascii :=
  list_ascii_of_string "<36>[ 12.5] type=1400 audit(1.25:7): avc: denied".

(** A line cut inside the marker: the marker starts at offset 1. *)
Definition cut_line : list ascii := list_ascii_of_string "a audit(".

(** A call whose record is refused (EAGAIN), then a call made while liblog
    is not loggable at INFO. *)
Definition lost_drop_calls : list LogdWriter.call :=
  [ LogdWriter.mk_call (app true (SysErr 11)) LOG_ID_MAIN ts0 small_vec;
    LogdWriter.mk_call (app false (SysOk 4079)) LOG_ID_MAIN ts0 small_vec ].

(** A call whose record is refused, then a call whose report and record
    are both taken whole (20 bytes each: the 11 of the header and 9). *)
Definition reported_drop_calls : list LogdWriter.call :=
  [ LogdWriter.mk_call (app true (SysErr 11)) LOG_ID_MAIN ts0 small_vec;
    LogdWriter.mk_call (app true (SysOk 20)) LOG_ID_MAIN ts0 [bytes 9] ].

End Examples.

(** * Further parts of the sources *)

(** ** liblog/logd_writer.cpp: [LogdSocket] *)
Module LogdSocket.

Definition kUninitialized : Z := -1.

(** Socket type and flags of Linux (sys/socket.h, bits/socket_type.h). *)
Definition SOCK_DGRAM : Z := 2.
Definition SOCK_NONBLOCK : Z := 2048.
Definition SOCK_CLOEXEC : Z := 524288.

Inductive event : Type :=
| Socket (flags : Z) (r : sysret)
| Connect (fd : Z)
| CloseFd (fd : Z).

(** [GetSocket] run by one thread with nobody else around: the
    compare-and-exchange finds [sock_] as the test at the top left it.
    Returns the new [sock_]. *)
Definition GetSocket (blocking_ : bool) (socket_result : sysret) (sock_ : Z)
  : Z * list event :=
  if negb (sock_ =? kUninitialized) then (sock_, [])
  else
    let flags := Z.lor SOCK_DGRAM SOCK_CLOEXEC in
    let flags := if negb blocking_ then Z.lor flags SOCK_NONBLOCK else flags in
    let new_socket := sys_ret socket_result in
    if new_socket <? 0 then (sock_, [Socket flags socket_result])
    else (new_socket, [Socket flags socket_result; Connect new_socket]).

(** [Close]: returns the new [sock_]. *)
Definition Close (sock_ : Z) : Z * list event :=
  (kUninitialized,
   if negb (sock_ =? kUninitialized) then [CloseFd sock_] else []).

(** A sequence of [sock()] and [Close()] calls on one object by one thread;
    each [sock()] comes with the result [socket] would give it. *)
Inductive call : Type :=
| CallSock (socket_result : sysret)
| CallClose.

Fixpoint run (blocking_ : bool) (sock_ : Z) (calls : list call)
  : Z * list event :=
  match calls with
  | [] => (sock_, [])
  | c :: rest =>
      let '(sock', evs) :=
        match c with
        | CallSock r => GetSocket blocking_ r sock_
        | CallClose => Close sock_
        end in
      let '(final, evs') := run blocking_ sock' rest in
      (final, evs ++ evs')
  end.

(** Descriptors a trace has opened and not closed, in the order opened. *)
Fixpoint open_after (opened : list Z) (evs : list event) : list Z :=
  match evs with
  | [] => opened
  | Socket _ (SysOk fd) :: rest => open_after (opened ++ [Z.of_N fd]) rest
  | CloseFd fd :: rest =>
      open_after (filter (fun x => negb (x =? fd)) opened) rest
  | _ :: rest => open_after opened rest
  end.

(** *** Several threads in [GetSocket] at once *)

(** Where a thread stands inside [GetSocket]. *)
Inductive pc : Type :=
| Idle                  (* outside, or returned *)
| Creating              (* saw [sock_] uninitialized, [socket] is next *)
| Created (fd : Z)      (* [socket] gave [fd], [LogdConnect] is next *)
| Connected (fd : Z)    (* the compare-and-exchange is next *)
| Lost (fd : Z).        (* the exchange failed, [close(new_socket)] is next *)

Record state : Type := mk_state {
  sock_ : Z;
  (** the descriptors of the process that are open *)
  open_fds : gset Z;
  threads : list pc;
  (** [Close] has closed the descriptor and has not stored
      [kUninitialized] yet *)
  closing : bool
}.

(** One atomic action: of thread [i] in [GetSocket], or of [Close].  Each
    access to the atomic [sock_] and each system call is an action of its
    own.  [Close] is documented as not thread safe and is called where the
    process has a single thread: it starts only while no thread is inside
    [GetSocket], and none enters before it is done. *)
Inductive step : state -> state -> Prop :=
| step_check (i : nat) (st : state) :
    threads st !! i = Some Idle -> closing st = false ->
    sock_ st = kUninitialized ->
    step st (mk_state (sock_ st) (open_fds st) (<[i := Creating]> (threads st))
                      (closing st))
| step_socket_ok (i : nat) (fd : Z) (st : state) :
    threads st !! i = Some Creating -> 0 <= fd -> fd ∉ open_fds st ->
    step st (mk_state (sock_ st) ({[fd]} ∪ open_fds st)
                      (<[i := Created fd]> (threads st)) (closing st))
| step_socket_failed (i : nat) (st : state) :
    threads st !! i = Some Creating ->
    step st (mk_state (sock_ st) (open_fds st) (<[i := Idle]> (threads st))
                      (closing st))
| step_connect (i : nat) (fd : Z) (st : state) :
    threads st !! i = Some (Created fd) ->
    step st (mk_state (sock_ st) (open_fds st)
                      (<[i := Connected fd]> (threads st)) (closing st))
| step_exchange_won (i : nat) (fd : Z) (st : state) :
    threads st !! i = Some (Connected fd) -> sock_ st = kUninitialized ->
    step st (mk_state fd (open_fds st) (<[i := Idle]> (threads st))
                      (closing st))
| step_exchange_lost (i : nat) (fd : Z) (st : state) :
    threads st !! i = Some (Connected fd) -> sock_ st <> kUninitialized ->
    step st (mk_state (sock_ st) (open_fds st)
                      (<[i := Lost fd]> (threads st)) (closing st))
| step_close_new_socket (i : nat) (fd : Z) (st : state) :
    threads st !! i = Some (Lost fd) ->
    step st (mk_state (sock_ st) (open_fds st ∖ {[fd]})
                      (<[i := Idle]> (threads st)) (closing st))
| step_Close_close (st : state) :
    Forall (fun p => p = Idle) (threads st) -> closing st = false ->
    step st (mk_state (sock_ st)
                      (if sock_ st =? kUninitialized then open_fds st
                       else open_fds st ∖ {[sock_ st]})
                      (threads st) true)
| step_Close_store (st : state) :
    closing st = true ->
    step st (mk_state kUninitialized (open_fds st) (threads st) false).

(** The descriptor a thread has got from [socket] and has neither stored
    in [sock_] nor closed. *)
Definition holds (p : pc) (fd : Z) : Prop :=
  p = Created fd \/ p = Connected fd \/ p = Lost fd.

Definition initial (n : nat) : state :=
  mk_state kUninitialized ∅ (replicate n Idle) false.

(** Every open descriptor is [sock_] or held by a thread that is still in
    [GetSocket], and those are all different; between the two actions of
    [Close] no thread is in [GetSocket] and no descriptor is open. *)
Record consistent (st : state) : Prop := mk_consistent {
  open_nonneg : forall fd, fd ∈ open_fds st -> 0 <= fd;
  sock_valid : closing st = false ->
               sock_ st = kUninitialized \/ sock_ st ∈ open_fds st;
  held_open : forall i p fd, threads st !! i = Some p -> holds p fd ->
                             fd ∈ open_fds st /\ fd <> sock_ st;
  held_once : forall i j p q fd, threads st !! i = Some p -> threads st !! j = Some q ->
                                 holds p fd -> holds q fd -> i = j;
  open_owned : forall fd, fd ∈ open_fds st ->
                          fd = sock_ st
                          \/ exists i p, threads st !! i = Some p /\ holds p fd;
  Close_alone : closing st = true ->
                Forall (fun p => p = Idle) (threads st) /\ open_fds st = ∅
}.

(** Two threads race: thread 0 gets descriptor 3, thread 1 gets 4, thread 0
    wins the exchange; thread 1 has lost it and still has its socket to
    close. *)
Definition race_losing : state :=
  mk_state 3 ({[4]} ∪ ({[3]} ∪ ∅)) [Idle; Lost 4] false.

(** The same race when thread 1 has closed its socket. *)
Definition race_lost : state :=
  mk_state 3 (({[4]} ∪ ({[3]} ∪ ∅)) ∖ {[4]}) [Idle; Idle] false.

End LogdSocket.

(** ** liblog/logd_writer.cpp: the retry of [LogdWrite] *)
Module LogdRetry.
Import LogdWriter.

(** The outcomes of the [writev] calls that carried a record, in order. *)
Definition record_writes (evs : list event) : list sysret :=
  flat_map (fun e => match e with
                     | Writev _ (log_record _ _) r => [r]
                     | _ => []
                     end) evs.

(** The sockets [Reconnect] was called on, in order. *)
Definition reconnects (evs : list event) : list Z :=
  flat_map (fun e => match e with
                     | Reconnect sock => [sock]
                     | _ => []
                     end) evs.

(** logd is overloaded: the first [writev] fails with EAGAIN. *)
Definition overloaded : LogdWriter.oracle :=
  mk_oracle 3 4 10001 77 true (SysOk 20) (SysErr 11) (SysOk 30).

(** The connection is stale: ECONNREFUSED (111), then the retry goes through. *)
Definition stale : LogdWriter.oracle :=
  mk_oracle 3 4 10001 77 true (SysOk 20) (SysErr 111) (SysOk 30).

End LogdRetry.

(** ** liblog/logger_write.cpp: the text writers and the typed binary writers *)
Module LogWriters.
Import LogdWriter LoggerWrite.

(** Two more values of headers that are not among the embedded files. *)
Class LogHeaders : Type := {
  (** sizeof(struct __android_log_message) *)
  sizeof_log_message : Z;
  EVENT_TYPE_STRING : Z
}.

(** Their values in AOSP on a 64-bit ABI. *)
Definition aosp_headers : LogHeaders := {|
  sizeof_log_message := 48;
  EVENT_TYPE_STRING := 2
|}.

Section WithPlatform.
Context `{P : Platform} `{H : LogHeaders}.

Definition LOG_BUF_SIZE : Z := 1024.

(** The bytes [vsnprintf(buf, size, fmt, ap)] stores in [buf] in front of
    the NUL it ends with, when it succeeds; [expansion] is the text the
    format and its arguments expand to, which holds a NUL where a [%c] is
    given 0. *)
Definition vsnprintf (size : Z) (expansion : string) : string :=
  substring 0 (Z.to_nat (size - 1)) expansion.

(** The C string that starts at [buf]: the characters in front of the first
    NUL.  It is what [strlen], [writev] with that length and [%s] read of
    a message that points to [buf]. *)
Fixpoint c_string (buf : string) : string :=
  match buf with
  | EmptyString => EmptyString
  | String c rest =>
      if Ascii.eqb c NUL then EmptyString else String c (c_string rest)
  end.

(** Result of a writer that returns an [int]: the value, then the [dropped]
    counter and the events.  [None] is undefined behaviour. *)
Definition write_result : Type := option (Z * Z * list event).

(** The test at the top of [__android_log_write_log_message]: the buffers
    a text message may go to. *)
Definition text_buffer (buffer_id : Z) : bool :=
  negb (negb (buffer_id =? LOG_ID_DEFAULT)
        && negb (buffer_id =? LOG_ID_MAIN)
        && negb (buffer_id =? LOG_ID_SYSTEM)
        && negb (buffer_id =? LOG_ID_RADIO)
        && negb (buffer_id =? LOG_ID_CRASH)).

Section WithGlobals.
(** [__android_log_is_loggable(prio, tag, ANDROID_LOG_VERBOSE)] *)
Variable __android_log_is_loggable : Z -> option string -> bool.
(** The globals [logger_function] and the default tag. *)
Variable logger_function : __android_logger_function.
Variable default_tag : string.

Definition __android_log_buf_write (log_id prio : Z) (tag : option string)
           (msg : string) (dropped : Z) : write_result :=
  if negb (__android_log_is_loggable prio tag) then Some (- EPERM, dropped, [])
  else
    let log_message :=
      mk_message sizeof_log_message log_id prio tag None 0 msg in
    match __android_log_write_log_message logger_function default_tag
                                          log_message dropped with
    | None => None
    | Some (dropped', evs) => Some (1, dropped', evs)
    end.

Definition __android_log_write (prio : Z) (tag : option string) (msg : string)
           (dropped : Z) : write_result :=
  __android_log_buf_write LOG_ID_MAIN prio tag msg dropped.

(** [expansion] is [None] when [vsnprintf] fails; [buf] is then left as it
    was, uninitialized, and reading it is undefined.  The message points to
    [buf]. *)
Definition __android_log_buf_print (log_id prio : Z) (tag : option string)
           (expansion : option string) (dropped : Z) : write_result :=
  if negb (__android_log_is_loggable prio tag) then Some (- EPERM, dropped, [])
  else
    match expansion with
    | None => if text_buffer log_id then None else Some (1, dropped, [])
    | Some e =>
        let buf := vsnprintf LOG_BUF_SIZE e in
        let log_message :=
          mk_message sizeof_log_message log_id prio tag None 0 (c_string buf) in
        match __android_log_write_log_message logger_function default_tag
                                              log_message dropped with
        | None => None
        | Some (dropped', evs) => Some (1, dropped', evs)
        end
    end.

Definition __android_log_print (prio : Z) (tag : option string)
           (expansion : option string) (dropped : Z) : write_result :=
  __android_log_buf_print LOG_ID_MAIN prio tag expansion dropped.

Definition __android_log_vprint (prio : Z) (tag : option string)
           (expansion : option string) (dropped : Z) : write_result :=
  __android_log_buf_print LOG_ID_MAIN prio tag expansion dropped.

End WithGlobals.

(** The byte found at the address of a [char] or at the first byte of an
    [int32_t] that holds [z]. *)
Definition low_byte (z : Z) : ascii := ascii_of_N (Z.to_N (z mod 2 ^ 8)).

(** [uint32_t len = strlen(payload)]. *)
Definition string_event (tag : Z) (payload : string) : list iovec :=
  let type := low_byte EVENT_TYPE_STRING in
  let len := strlen payload mod 2 ^ 32 in
  [mk_iovec (le32 tag) 4; mk_iovec [type] 1; mk_iovec (le32 len) 4;
   mk_iovec (c_string_bytes payload) len].

Definition __android_log_bswrite (o : environment) (dropped : Z) (tag : Z)
           (payload : string) : option result :=
  write_to_log o dropped LOG_ID_EVENTS (string_event tag payload) None.

Definition __android_log_security_bswrite (o : environment) (dropped : Z)
           (tag : Z) (payload : string) : option result :=
  write_to_log o dropped LOG_ID_SECURITY (string_event tag payload) None.

(** *** [filestream_logger]: the priority letter *)

Definition log_characters : list ascii := list_ascii_of_string "XXVDIWEF" ++ [NUL].

(** [arraysize(log_characters) - 1 == ANDROID_LOG_SILENT] is asserted
    statically. *)
Definition ANDROID_LOG_SILENT : Z := Z.of_nat (length log_characters) - 1.

(** [log_characters[priority]]; [None] is a read outside the array. *)
Definition priority_char (priority : Z) : option ascii :=
  let priority :=
    if ANDROID_LOG_SILENT <? priority then ANDROID_LOG_FATAL else priority in
  if priority <? 0 then None else log_characters !! Z.to_nat priority.

(** The three iovecs [__android_log_logd_logger_with_timestamp] builds. *)
Definition text_iovecs (priority : Z) (tag msg : string) : list iovec :=
  [ mk_iovec (le32 priority) 1;
    mk_iovec (c_string_bytes tag) (strlen tag + 1);
    mk_iovec (c_string_bytes msg) (strlen msg + 1) ].


(** The record datagrams among some events. *)
Definition records (evs : list event) : list (android_log_header_t * list iovec) :=
  flat_map (fun e => match e with
                     | Writev _ (log_record h p) _ => [(h, p)]
                     | _ => []
                     end) evs.

End WithPlatform.

(** An application that may log, with the socket open. *)
Definition talker (w : sysret) : environment :=
  mk_environment (mk_oracle 3 4 10001 77 true (SysOk 20) w (SysOk 30))
                 10001 10001 10001 [] true false (mk_timespec 1700000000 0) false
                 EmptyString None None.


(** The same application on a system where ro.log.file_logger.path is
    set, at its first message: the file can be opened. *)
Definition file_logged : environment :=
  mk_environment (mk_oracle 3 4 10001 77 true (SysOk 20) (SysOk 30) (SysOk 30))
                 10001 10001 10001 [] true false (mk_timespec 1700000000 0) true
                 "/dev/hvc2" None None.


(** And at a later message, [stderr] being the stream since then. *)
Definition file_fallen_back : environment :=
  mk_environment (mk_oracle 3 4 10001 77 true (SysOk 20) (SysOk 30) (SysOk 30))
                 10001 10001 10001 [] true false (mk_timespec 1700000000 0) true
                 "/dev/hvc2" (Some stderr) (Some "Permission denied"%string).

End LogWriters.

(** ** logd/main.cpp: [DropPrivs] and the start of the daemon *)
Module LogdDaemon.

(** linux/capability.h *)
Definition CAP_AUDIT_CONTROL : Z := 30.
Definition CAP_SYSLOG : Z := 34.

Definition EXIT_FAILURE : Z := 1.

(** The three flag sets of a capability state of libcap. *)
Record cap_struct : Type := mk_caps {
  effective : gset Z;
  permitted : gset Z;
  inheritable : gset Z
}.

Inductive cap_flag : Type := CAP_EFFECTIVE | CAP_PERMITTED | CAP_INHERITABLE.

Definition cap_clear : cap_struct := mk_caps ∅ ∅ ∅.

(** [cap_set_flag(caps, flag, 1, &cap, CAP_SET)] *)
Definition cap_set_flag (caps : cap_struct) (flag : cap_flag) (cap : Z)
  : cap_struct :=
  match flag with
  | CAP_EFFECTIVE =>
      mk_caps ({[cap]} ∪ effective caps) (permitted caps) (inheritable caps)
  | CAP_PERMITTED =>
      mk_caps (effective caps) ({[cap]} ∪ permitted caps) (inheritable caps)
  | CAP_INHERITABLE =>
      mk_caps (effective caps) (permitted caps) ({[cap]} ∪ inheritable caps)
  end.

(** What the system answers to the daemon while it starts. *)
Record system : Type := mk_system {
  (** the value of a system property when it is set to a boolean literal *)
  bool_property : string -> option bool;
  (** the value of a system property when it is set *)
  property : string -> option string;
  (** return value of [set_sched_policy(0, SP_BACKGROUND)] *)
  set_sched_policy : Z;
  (** return value of [prctl(PR_SET_DUMPABLE, 0)] *)
  prctl_dumpable : Z;
  (** return value of [cap_clear]; negative also when [cap_init] gave null *)
  cap_clear_ret : Z;
  (** return value of [cap_set_flag] for a flag and a capability *)
  cap_set_flag_ret : cap_flag -> Z -> Z;
  (** return value of [cap_set_proc] *)
  cap_set_proc_ret : Z;
  (** [android_get_control_file] and [open] for a path *)
  control_file : string -> Z;
  open_file : string -> Z;
  (** [reader->startListener()], [swl->StartListener()],
      [cl->startListener()], [kl->startListener()], [al->startListener()] *)
  reader_startListener : Z;
  swl_StartListener : bool;
  cl_startListener : Z;
  kl_startListener : Z;
  al_startListener : Z
}.

(** [android::base::GetBoolProperty] and [GetProperty]: the default when the
    property is not set (to a boolean literal, for the former). *)
Definition GetBoolProperty (s : system) (name : string) (default : bool) : bool :=
  match bool_property s name with Some b => b | None => default end.

Definition GetProperty (s : system) (name : string) (default : string) : string :=
  match property s name with Some v => v | None => default end.

Inductive event : Type :=
| SetSchedPolicy
| ClearDumpable
| CapSetProc (caps : cap_struct)
| InitLogging
| SetProperty (name value : string)
| NewLogBuffer (buffer_type : string)
| StartReader (r : Z)
| StartWriter (r : bool)
| StartCommand (r : Z)
| NewLogAudit (dmesg_fd : Z)
| NewLogKlog (fdDmesg fdPmesg : Z) (auditd : bool)
| ReadDmesg (al kl : bool)
| StartKlog (r : Z)
| DeleteKlog
| StartAudit (r : Z)
| DeleteAudit
| TrustyCreate.

(** How a run ends: [main] returns, [LOG(FATAL)] aborts the process, or the
    process stays in [pause], which [TEMP_FAILURE_RETRY] calls again each
    time a signal interrupts it. *)
Inductive outcome : Type :=
| Exit (status : Z)
| Fatal (message : string)
| Pauses.

(** [DropPrivs]: the events, and the message of the [PLOG(FATAL)] that ended
    it, if one did. *)
Definition DropPrivs (s : system) (klogd auditd : bool)
  : list event * option string :=
  if set_sched_policy s <? 0
  then ([SetSchedPolicy], Some "failed to set background scheduling policy"%string)
  else
    let user := negb (GetBoolProperty s "ro.debuggable" false) in
    let evs := SetSchedPolicy :: (if user then [ClearDumpable] else []) in
    if user && (prctl_dumpable s =? -1)
    then (evs, Some "failed to clear PR_SET_DUMPABLE"%string)
    else
      let caps := cap_clear in
      if cap_clear_ret s <? 0 then (evs, Some "cap_clear() failed"%string)
      else if klogd
              && ((cap_set_flag_ret s CAP_PERMITTED CAP_SYSLOG <? 0)
                  || (cap_set_flag_ret s CAP_EFFECTIVE CAP_SYSLOG <? 0))
      then (evs, Some "Failed to set CAP_SYSLOG"%string)
      else
        let caps :=
          if klogd
          then cap_set_flag (cap_set_flag caps CAP_PERMITTED CAP_SYSLOG)
                            CAP_EFFECTIVE CAP_SYSLOG
          else caps in
        if auditd
           && ((cap_set_flag_ret s CAP_PERMITTED CAP_AUDIT_CONTROL <? 0)
               || (cap_set_flag_ret s CAP_EFFECTIVE CAP_AUDIT_CONTROL <? 0))
        then (evs, Some "Failed to set CAP_AUDIT_CONTROL"%string)
        else
          let caps :=
            if auditd
            then cap_set_flag (cap_set_flag caps CAP_PERMITTED CAP_AUDIT_CONTROL)
                              CAP_EFFECTIVE CAP_AUDIT_CONTROL
            else caps in
          if cap_set_proc_ret s <? 0
          then (evs ++ [CapSetProc caps], Some "cap_set_proc() failed"%string)
          else (evs ++ [CapSetProc caps], None).

(** Whether the kernel log and the audit log are served. *)
Definition klogd (s : system) : bool :=
  let klogd_default :=
    GetBoolProperty s "ro.debuggable" false
    && negb (GetBoolProperty s "ro.config.low_ram" false) in
  GetBoolProperty s "ro.logd.kernel" klogd_default.

Definition auditd (s : system) : bool := GetBoolProperty s "ro.logd.auditd" true.

(** [main] past the test for --reinit. *)
Definition main (s : system) : list event * outcome :=
  let fdDmesg := control_file s "/dev/kmsg" in
  let fdDmesg := if fdDmesg <? 0 then open_file s "/dev/kmsg" else fdDmesg in
  let fdPmesg := -1 in
  let klogd := klogd s in
  let fdPmesg :=
    if klogd then
      let fd := control_file s "/proc/kmsg" in
      if fd <? 0 then open_file s "/proc/kmsg" else fd
    else fdPmesg in
  let evs :=
    InitLogging :: (if klogd then [SetProperty "ro.logd.kernel" "true"] else []) in
  let auditd := auditd s in
  let '(drop_evs, fatal) := DropPrivs s klogd auditd in
  let evs := evs ++ drop_evs in
  match fatal with
  | Some message => (evs, Fatal message)
  | None =>
      let buffer_type := GetProperty s "logd.buffer_type" "serialized" in
      if negb (String.eqb buffer_type "serialized")
         && negb (String.eqb buffer_type "simple")
      then (evs, Fatal "buffer_type must be one of 'serialized' or 'simple'")
      else
        let evs := evs ++ [NewLogBuffer buffer_type] in
        let evs := evs ++ [StartReader (reader_startListener s)] in
        if negb (reader_startListener s =? 0) then (evs, Exit EXIT_FAILURE)
        else
          let evs := evs ++ [StartWriter (swl_StartListener s)] in
          if negb (swl_StartListener s) then (evs, Exit EXIT_FAILURE)
          else
            let evs := evs ++ [StartCommand (cl_startListener s)] in
            if negb (cl_startListener s =? 0) then (evs, Exit EXIT_FAILURE)
            else
              let evs := evs ++ [SetProperty "logd.ready" "true"] in
              let dmesg_fd :=
                if GetBoolProperty s "ro.logd.auditd.dmesg" true
                then fdDmesg else -1 in
              let al := auditd in
              let kl := klogd in
              let evs := evs ++ (if al then [NewLogAudit dmesg_fd] else [])
                             ++ (if kl then [NewLogKlog fdDmesg fdPmesg al] else [])
                             ++ [ReadDmesg al kl]
                             ++ (if kl then
                                   StartKlog (kl_startListener s)
                                     :: (if negb (kl_startListener s =? 0)
                                         then [DeleteKlog] else [])
                                 else [])
                             ++ (if al then
                                   StartAudit (al_startListener s)
                                     :: (if negb (al_startListener s =? 0)
                                         then [DeleteAudit] else [])
                                 else [])
                             ++ [TrustyCreate] in
              (evs, Pauses)
  end.



(** A user build with the default properties, where every call succeeds. *)
Definition user_build : system :=
  mk_system (fun _ => None) (fun _ => None) 0 0 0 (fun _ _ => 0) 0
            (fun _ => 5) (fun _ => 6) 0 true 0 0 0.


End LogdDaemon.

(** ** logd/main.cpp: [readDmesg] *)
Module ReadDmesg.
Import LogAudit.


Inductive event : Type :=
| ReadUnread (len : Z)
| ReadAll (len : Z)
| AuditLog (tok : list ascii) (sublen : Z)
| KlogLog (tok : list ascii) (sublen : Z).


(** The index at which the NUL is stored, for a buffer of [len] bytes
    into which [rc] bytes were read. *)
Definition terminator (rc len : Z) : Z :=
  let len := if rc <? len then rc + 1 else len in
  len - 1.



End ReadDmesg.

(** ** logd/LogAudit.cpp: bug metadata ([hasMetadata], [populateDenialMap],
       [denialParse], [auditParse]) *)
Module AuditMetadata.

(** Values of private/android_filesystem_config.h used by [auditParse]. *)
Class AppIds : Type := {
  AID_APP_START : Z;
  AID_APP_END : Z
}.

Definition aosp_app_ids : AppIds := {|
  AID_APP_START := 10000;
  AID_APP_END := 19999
|}.

(** [str[i]] for an index inside the string; the reads of [hasMetadata]
    are inside it when [str_len] is at most its length. *)
Definition char_at (str : list ascii) (i : Z) : ascii :=
  nth (Z.to_nat i) str NUL.

Definition hasMetadata (str : list ascii) (str_len : Z) : bool :=
  (39 <=? str_len)
  && (Ascii.eqb (char_at str (str_len - 9)) "/"
      || Ascii.eqb (char_at str (str_len - 39)) "/").

(** *** [std::string] *)

Fixpoint is_prefix (needle s : list ascii) : bool :=
  match needle, s with
  | [], _ => true
  | n :: needle', c :: s' => Ascii.eqb n c && is_prefix needle' s'
  | _ :: _, [] => false
  end.

(** [s.find(needle)]: the position of the first occurrence, [None] for
    [npos]. *)
Fixpoint find (s needle : list ascii) : option nat :=
  if is_prefix needle s then Some O
  else
    match s with
    | [] => None
    | _ :: rest => option_map S (find rest needle)
    end.

(** [s.find(c)] for a character. *)
Fixpoint find_char (s : list ascii) (c : ascii) : option nat :=
  match s with
  | [] => None
  | x :: rest =>
      if Ascii.eqb x c then Some O else option_map S (find_char rest c)
  end.

(** [denial.find(terminator, start_index)] is taken on the text from
    [start_index] on; when there is no terminator, [npos - start_index] is
    not less than what is left and [substr] returns all of it. *)
Definition denialParse (denial : list ascii) (terminator : ascii)
           (search_term : list ascii) : list ascii :=
  match find denial search_term with
  | Some start_index =>
      let start_index := (start_index + length search_term)%nat in
      let rest := drop start_index denial in
      match find_char rest terminator with
      | Some n => take n rest
      | None => rest
      end
  | None => []
  end.

(** *** The bug map *)

Definition denial : Type := list ascii * list ascii * list ascii.

(** [android::base::Split(s, "\n")] for the single delimiter [c]. *)
Fixpoint Split (s : list ascii) (c : ascii) : list (list ascii) :=
  match s with
  | [] => [[]]
  | x :: rest =>
      if Ascii.eqb x c then [] :: Split rest c
      else
        match Split rest c with
        | piece :: pieces => (x :: piece) :: pieces
        | [] => [[x]]
        end
  end.

(** [android::base::Tokenize(s, " ")]: the pieces that are not empty. *)
Definition Tokenize (s : list ascii) (c : ascii) : list (list ascii) :=
  List.filter (fun piece => negb (Nat.eqb (length piece) 0)) (Split s c).

(** [denial_to_bug.try_emplace(key, value)] *)
Definition try_emplace (m : gmap denial (list ascii)) (key : denial)
           (value : list ascii) : gmap denial (list ascii) :=
  match m !! key with
  | Some _ => m
  | None => <[key := value]> m
  end.

(** The body of the loop over the lines of one file: the map and the
    number of errors so far. *)
Definition add_line (acc : gmap denial (list ascii) * Z) (line : list ascii)
  : gmap denial (list ascii) * Z :=
  let fields := Tokenize line " " in
  match fields with
  | [] => acc
  | front :: _ =>
      if is_prefix ["#"%char] front then acc
      else
        match fields with
        | [scontext; tcontext; tclass; bug_num] =>
            (try_emplace acc.1 (scontext, tcontext, tclass) bug_num, acc.2)
        | _ => (acc.1, acc.2 + 1)
        end
  end.

Definition bug_map_files : list string :=
  ["/system_ext/etc/selinux/bug_map"; "/vendor/etc/selinux/selinux_denial_metadata";
   "/system/etc/selinux/bug_map"]%string.

(** One file: [ReadFileToString] gives its contents or fails. *)
Definition add_file (ReadFileToString : string -> option (list ascii))
           (m : gmap denial (list ascii)) (bug_map_file : string)
  : gmap denial (list ascii) :=
  match ReadFileToString bug_map_file with
  | None => m
  | Some file_contents =>
      (fold_left add_line (Split file_contents (ascii_of_nat 10)) (m, 0)).1
  end.

Definition populateDenialMap (ReadFileToString : string -> option (list ascii))
  : gmap denial (list ascii) :=
  fold_left (add_file ReadFileToString) bug_map_files ∅.

(** What a line defines: a denial and its bug, when the line has four
    fields and is not a comment. *)
Definition definition_of (line : list ascii) : option (denial * list ascii) :=
  match Tokenize line " " with
  | [scontext; tcontext; tclass; bug_num] =>
      if is_prefix ["#"%char] scontext then None
      else Some ((scontext, tcontext, tclass), bug_num)
  | _ => None
  end.

(** All the definitions, in the order of the files and of their lines. *)
Definition definitions (ReadFileToString : string -> option (list ascii))
  : list (denial * list ascii) :=
  flat_map (fun bug_map_file =>
              match ReadFileToString bug_map_file with
              | None => []
              | Some file_contents =>
                  omap definition_of (Split file_contents (ascii_of_nat 10))
              end)
           bug_map_files.

(** The first definition of a denial in a list. *)
Fixpoint first_definition (key : denial) (defs : list (denial * list ascii))
  : option (list ascii) :=
  match defs with
  | [] => None
  | (k, bug) :: rest =>
      if bool_decide (k = key) then Some bug else first_definition key rest
  end.

Section WithAppIds.
Context `{A : AppIds}.

(** [denial_to_bug] is the memoized result of [populateDenialMap];
    [uidToName] is [android::uidToName], null when the uid has no name. *)
Definition auditParse (denial_to_bug : gmap denial (list ascii))
           (uidToName : Z -> option (list ascii))
           (string : list ascii) (uid : Z) : list ascii :=
  let scontext :=
    denialParse string ":" (list_ascii_of_string "scontext=u:object_r:") in
  let tcontext :=
    denialParse string ":" (list_ascii_of_string "tcontext=u:object_r:") in
  let tclass := denialParse string " " (list_ascii_of_string "tclass=") in
  let scontext :=
    match scontext with
    | [] => denialParse string ":" (list_ascii_of_string "scontext=u:r:")
    | _ => scontext
    end in
  let tcontext :=
    match tcontext with
    | [] => denialParse string ":" (list_ascii_of_string "tcontext=u:r:")
    | _ => tcontext
    end in
  let result :=
    match denial_to_bug !! (scontext, tcontext, tclass) with
    | Some bug => list_ascii_of_string " bug=" ++ bug
    | None => []
    end in
  if (AID_APP_START <=? uid) && (uid <=? AID_APP_END) then
    match uidToName uid with
    | Some uidname => result ++ list_ascii_of_string " app=" ++ uidname
    | None => result
    end
  else result.

End WithAppIds.

(** [needle] occurs in [s] at [i] and nowhere before. *)
Definition first_at (s needle : list ascii) (i : nat) : Prop :=
  is_prefix needle (drop i s) = true
  /\ forall k, (k < i)%nat -> is_prefix needle (drop k s) = false.

(** Two bug maps that disagree on one denial. *)
Definition two_maps (path : string) : option (list ascii) :=
  if String.eqb path "/system_ext/etc/selinux/bug_map"
  then Some (list_ascii_of_string
               ("# comment" ++ String (ascii_of_nat 10) "shell file_a file 111"))
  else if String.eqb path "/system/etc/selinux/bug_map"
  then Some (list_ascii_of_string
               ("shell file_a file 222" ++ String (ascii_of_nat 10)
                  ("shell  file_b   dir  333" ++ String (ascii_of_nat 10)
                     "too few fields")))
  else None.

End AuditMetadata.

(** ** logd/LogAudit.cpp: [LogAudit::logPrint] *)
Module AuditPrint.
Import LoggerWrite LogWriters LogAudit AuditMetadata.

(** Further values of headers that are not among the embedded files:
    private/android_logger.h and android/log.h. *)
Class AuditHeaders : Type := {
  AUDITD_LOG_TAG : Z;
  (** sizeof(android_log_event_string_t) *)
  sizeof_event_string : Z;
  ANDROID_LOG_INFO : Z
}.

Definition aosp_audit_headers : AuditHeaders := {|
  AUDITD_LOG_TAG := 1003;
  sizeof_event_string := 9;
  ANDROID_LOG_INFO := 4
|}.

(** stdint.h *)
Definition UINT16_MAX : Z := 65535.

(** syslog.h *)
Definition LOG_AUTH : Z := 32.
Definition LOG_WARNING : Z := 4.
Definition LOG_INFO : Z := 6.
Definition LOG_PRI (p : Z) : Z := Z.land p 7.
Definition LOG_MAKEPRI (fac pri : Z) : Z := Z.lor fac pri.

Definition char_of (z : Z) : ascii := ascii_of_N (Z.to_N (z mod 2 ^ 8)).

Definition KMSG_PRIORITY (PRI : Z) : list ascii :=
  [ "<"%char;
    char_of (48 + LOG_MAKEPRI LOG_AUTH (LOG_PRI PRI) / 10);
    char_of (48 + LOG_MAKEPRI LOG_AUTH (LOG_PRI PRI) mod 10);
    ">"%char ].

Definition LF : ascii := ascii_of_nat 10.

Definition isdigit (c : ascii) : bool :=
  (48 <=? Z.of_N (N_of_ascii c)) && (Z.of_N (N_of_ascii c) <=? 57).

(** The fields of the [LogAudit] object that [logPrint] reads. *)
Record LogAudit : Type := mk_LogAudit {
  fdDmesg : Z;
  main : bool;
  events : bool;
  initialized : bool
}.

(** What the rest of the system answers during one call. *)
Record world : Type := mk_world {
  getpid : Z;
  gettid : Z;
  pidToUid : Z -> Z;
  (** [android::pidToName] and [android::uidToName], null when unknown *)
  pidToName : Z -> option (list ascii);
  uidToName : Z -> option (list ascii);
  (** the memoized bug map *)
  denial_to_bug : gmap denial (list ascii);
  (** [log_time::strptime(s, "%s.%q")]: the time read and the number of
      characters consumed, or null *)
  strptime : list ascii -> option (timespec * nat);
  clock_realtime : timespec;
  (** the results of [logbuf->Log] for the events and the main buffer *)
  Log_events : Z;
  Log_main : Z
}.

Inductive event : Type :=
| DmesgWritev (fd : Z) (iov : list (list ascii))
| Log (log_id : Z) (realtime : timespec) (uid pid tid : Z) (msg : list ascii)
      (len : Z).

(** [vasprintf(&str, fmt, args)]: the value it returns and, when that is
    not negative, the buffer it has allocated for [str]. *)
Record vasprintf_result : Type := mk_vasprintf {
  vasprintf_rc : Z;
  vasprintf_str : list ascii
}.

(** The returned value, the static [denial_metadata] after the call, and
    what was written. *)
Record result : Type := mk_result {
  rc : Z;
  denial_metadata_after : list ascii;
  written : list event
}.

(** [while ((cp = strchr(str, '\n'))) *cp = ' ';] *)
Fixpoint replace_newlines (str : list ascii) : list ascii :=
  match str with
  | [] => []
  | c :: rest =>
      (if Ascii.eqb c LF then " "%char else c) :: replace_newlines rest
  end.

(** [while (isdigit( *cp)) { pid = (pid * 10) + ( *cp - '0'); ++cp; }]:
    the value, and the text at [cp] when the loop ends. *)
Fixpoint read_digits (cp : list ascii) (pid : Z) : Z * list ascii :=
  match cp with
  | [] => (pid, [])
  | c :: rest =>
      if isdigit c then read_digits rest (pid * 10 + (Z.of_N (N_of_ascii c) - 48))
      else (pid, cp)
  end.

Definition found (p : option nat) : bool :=
  match p with Some _ => true | None => false end.

Definition pid_str : list ascii := list_ascii_of_string " pid=".

Section WithPlatform.
Context `{P : Platform} `{H : LogHeaders} `{A : AuditHeaders} `{I : AppIds}.

(** The block that finds " pid=": pid, tid, uid and the text afterwards.
    [None] is the signed overflow of [pid]. *)
Definition take_pid (w : world) (str : list ascii)
  : option (Z * Z * Z * list ascii) :=
  let pid := getpid w in
  let tid := gettid w in
  let uid := AID_LOGD in
  match strstr str pid_str with
  | Some pidptr =>
      let cp := drop (pidptr + length pid_str) str in
      if isdigit (nth 0 cp NUL) then
        let '(pid, cp) := read_digits cp 0 in
        if INT_MAX <? pid then None
        else
          (* memmove(pidptr, cp, strlen(cp) + 1) *)
          Some (pid, pid, pidToUid w pid, take pidptr str ++ cp)
      else Some (pid, tid, uid, str)
  | None => Some (pid, tid, uid, str)
  end.

Definition audit_str : list ascii := list_ascii_of_string " audit(".

(** The block that replaces the time stamp: the time of the record and the
    text afterwards.  [None]: fewer than three characters were consumed,
    so that "0.0" and what follows need more room than the text had. *)
Definition take_time (w : world) (str : list ascii)
  : option (timespec * list ascii) :=
  match strstr str audit_str with
  | Some timeptr =>
      let stamp := drop (timeptr + length audit_str) str in
      match strptime w stamp with
      | Some (now, consumed) =>
          if Ascii.eqb (nth consumed stamp NUL) ":" then
            if (consumed <? 3)%nat then None
            else
              Some (now,
                    take (timeptr + length audit_str) str
                      ++ list_ascii_of_string "0.0" ++ drop consumed stamp)
          else Some (clock_realtime w, str)
      | None => Some (clock_realtime w, str)
      end
  | None => Some (clock_realtime w, str)
  end.

Definition strnlen (s : list ascii) (maxlen : Z) : Z :=
  Z.min (Z.of_nat (length s)) maxlen.

(** [strncpy(dst, src, n)]: the [n] bytes written. *)
Definition strncpy (src : list ascii) (n : Z) : list ascii :=
  take (Z.to_nat n) (c_str src ++ repeat NUL (Z.to_nat n)).

(** The length handed to [logbuf->Log]. *)
Definition log_len (message_len : Z) : Z :=
  if message_len <=? UINT16_MAX then message_len mod 2 ^ 16 else UINT16_MAX.

(** [str_len] after the metadata has been counted in. *)
Definition event_str_len (str_len : Z) (denial_metadata : list ascii) : Z :=
  let dm := Z.of_nat (length denial_metadata) in
  if str_len + dm <=? LOGGER_ENTRY_MAX_PAYLOAD
  then str_len + dm else LOGGER_ENTRY_MAX_PAYLOAD.

(** The scope of the event buffer: the bytes of the
    [android_log_event_string_t].  [None]: the metadata is longer than
    [str_len], the length of the first [memcpy] wraps. *)
Definition event_record (str denial_metadata : list ascii) (str_len : Z)
  : option (list ascii) :=
  let dm := Z.of_nat (length denial_metadata) in
  if str_len <? dm then None
  else
    Some (le32 AUDITD_LOG_TAG ++ [low_byte EVENT_TYPE_STRING] ++ le32 str_len
            ++ take (Z.to_nat (str_len - dm)) str ++ denial_metadata).

Definition QUOTE : ascii := ascii_of_nat 34.

Definition comm_str : list ascii := list_ascii_of_string " comm=" ++ [QUOTE].

(** The search for the command name: [comm], [estr - str] and the new
    [pid]. *)
Definition take_comm (w : world) (str : list ascii) (pid tid : Z)
  : list ascii * Z * Z :=
  match strstr str comm_str with
  | Some comm =>
      (drop (comm + length comm_str) str, Z.of_nat comm, pid)
  | None =>
      if pid =? getpid w
      then (list_ascii_of_string "auditd", Z.of_nat (length str), tid)
      else
        match pidToName w pid with
        | Some name => (name, Z.of_nat (length str), pid)
        | None => (list_ascii_of_string "unknown", Z.of_nat (length str), pid)
        end
  end.

(** The bytes written into [newstr], whose size is [message_len]. *)
Definition main_record (info : bool) (comm ecomm str denial_metadata : list ascii)
           (str_len prefix_len suffix_len : Z) : list ascii :=
  [low_byte (if info then ANDROID_LOG_INFO else ANDROID_LOG_WARN)]
    (* strlcpy(newstr + 1, comm, str_len) *)
    ++ take (Z.to_nat (str_len - 1)) comm ++ [NUL]
    ++ strncpy str prefix_len
    ++ strncpy ecomm suffix_len
    ++ strncpy denial_metadata (Z.of_nat (length denial_metadata)).

(** The part headed "log to main": what is written into [newstr],
    [message_len] and the new [pid]. *)
Definition main_message (w : world) (info : bool) (str denial_metadata : list ascii)
           (pid tid : Z) : list ascii * Z * Z :=
  let '(comm, prefix_len, pid) := take_comm w str pid tid in
  let '(str_len, ecomm) :=
    match find_char comm QUOTE with
    | Some ecomm => (Z.of_nat ecomm + 1, drop (S ecomm) comm)
    | None => (Z.of_nat (length comm) + 1, [])
    end in
  let prefix_len :=
    if LOGGER_ENTRY_MAX_PAYLOAD <? prefix_len
    then LOGGER_ENTRY_MAX_PAYLOAD else prefix_len in
  let suffix_len := strnlen ecomm (LOGGER_ENTRY_MAX_PAYLOAD - prefix_len) in
  let message_len :=
    str_len + prefix_len + suffix_len + Z.of_nat (length denial_metadata) + 2 in
  (main_record info comm ecomm str denial_metadata str_len prefix_len suffix_len,
   message_len, pid).

(** [logPrint]: [fmt] is [None] for a null format and otherwise what
    [vasprintf] makes of the format and its arguments; [previous] is the
    static [denial_metadata] as the call finds it.  [str] is read as the C
    string it is.  [None] is undefined behaviour. *)
Definition logPrint (this : LogAudit) (w : world) (previous : list ascii)
           (fmt : option vasprintf_result) : option result :=
  match fmt with
  | None =>
      (* if (fmt == nullptr) return -EINVAL; *)
      Some (mk_result (- EINVAL) previous [])
  | Some vasprintf =>
  (* int rc = vasprintf(&str, fmt, args); if (rc < 0) return rc; *)
  let rc := vasprintf_rc vasprintf in
  if rc <? 0 then Some (mk_result rc previous [])
  else
  let str := c_str (vasprintf_str vasprintf) in
  let str := replace_newlines str in
  match take_pid w str with
  | None => None
  | Some (pid, tid, uid, str) =>
      let info :=
        found (strstr str (list_ascii_of_string " permissive=1"))
        || found (strstr str (list_ascii_of_string " policy loaded ")) in
      let dmesg := (0 <=? fdDmesg this) && initialized this in
      let denial_metadata :=
        if dmesg then auditParse (denial_to_bug w) (uidToName w) str uid
        else previous in
      let evs :=
        if dmesg then
          [DmesgWritev (fdDmesg this)
                       [if info then KMSG_PRIORITY LOG_INFO
                        else KMSG_PRIORITY LOG_WARNING;
                        str; denial_metadata; [LF]]]
        else [] in
      if negb (main this) && negb (events this)
      then Some (mk_result 0 denial_metadata evs)
      else
        match take_time w str with
        | None => None
        | Some (now, str) =>
            (* log to events *)
            let str_len := strnlen str LOGGER_ENTRY_MAX_PAYLOAD in
            let denial_metadata :=
              if negb dmesg && negb (hasMetadata str str_len)
              then auditParse (denial_to_bug w) (uidToName w) str uid
              else denial_metadata in
            let str_len := event_str_len str_len denial_metadata in
            let message_len := str_len + sizeof_event_string in
            let notify := 0 in
            let logged :=
              if events this then
                match event_record str denial_metadata str_len with
                | None => None
                | Some event =>
                    let rc := Log_events w in
                    Some (rc,
                          if 0 <=? rc
                          then Z.lor notify (Z.shiftl 1 LOG_ID_EVENTS) else notify,
                          [Log LOG_ID_EVENTS now uid pid tid event
                               (log_len message_len)])
                end
              else Some (rc, notify, []) in
            match logged with
            | None => None
            | Some (rc, notify, ev_events) =>
                (* log to main *)
                let '(newstr, message_len, pid) :=
                  main_message w info str denial_metadata pid tid in
                let '(rc, notify, ev_main) :=
                  if main this then
                    let rc := Log_main w in
                    (rc,
                     if 0 <=? rc
                     then Z.lor notify (Z.shiftl 1 LOG_ID_MAIN) else notify,
                     [Log LOG_ID_MAIN now uid pid tid newstr (log_len message_len)])
                  else (rc, notify, []) in
                let rc :=
                  if negb (notify =? 0)
                  then if rc <? 0 then to_int message_len else rc
                  else rc in
                Some (mk_result rc denial_metadata (evs ++ ev_events ++ ev_main))
            end
        end
  end
  end.

(** The text of a message once its newlines, its pid and its time stamp
    have been dealt with; there is none when the format is null or
    [vasprintf] fails. *)
Definition processed (w : world) (fmt : option vasprintf_result)
  : option (list ascii) :=
  match fmt with
  | None => None
  | Some vasprintf =>
      if vasprintf_rc vasprintf <? 0 then None
      else
        match take_pid w (replace_newlines (c_str (vasprintf_str vasprintf))) with
        | Some (_, _, _, str) =>
            match take_time w str with
            | Some (_, str) => Some str
            | None => None
            end
        | None => None
        end
  end.

(** The value of a string of decimal digits. *)
Definition decimal_value (digits : list ascii) : Z :=
  fold_left (fun pid c => pid * 10 + (Z.of_N (N_of_ascii c) - 48)) digits 0.

End WithPlatform.

(** A message that [vasprintf] has formatted to [str]. *)
Definition formatted (str : list ascii) : option vasprintf_result :=
  Some (mk_vasprintf (Z.of_nat (length str)) str).

(** An audit daemon that logs to both buffers and to dmesg, with process
    10 known as sh and an empty bug map; time stamps of ten digits, a dot
    and three digits are read as 1700000000.123. *)
Definition both_buffers : LogAudit := mk_LogAudit 3 true true true.

Definition quiet_world (log_events log_main : Z) : world :=
  mk_world 600 601 (fun _ => 2000)
           (fun pid => if pid =? 10 then Some (list_ascii_of_string "sh") else None)
           (fun _ => None) ∅
           (fun s => if (14 <=? length s)%nat
                     then Some (mk_timespec 1700000000 123000000, 14%nat)
                     else None)
           (mk_timespec 1700000500 0) log_events log_main.

(** The same daemon before its listener thread has run, as it is while
    [readDmesg] replays the kernel log. *)
Definition replaying : LogAudit := mk_LogAudit 3 true true false.

(** A line of the kernel log that already carries a bug id. *)
Definition tagged_line : list ascii :=
  list_ascii_of_string
    "type=1400 audit(1700000001.000:46): avc: denied { read } b/12345678".

(** A world whose bug map knows one denial, and a message with it. *)
Definition mapped_world : world :=
  mk_world 600 601 (fun _ => 2000) (fun _ => None) (fun _ => None)
           {[ (list_ascii_of_string "shell", list_ascii_of_string "file_a",
               list_ascii_of_string "file") := list_ascii_of_string "111" ]}
           (fun s => if (14 <=? length s)%nat
                     then Some (mk_timespec 1700000000 123000000, 14%nat)
                     else None)
           (mk_timespec 1700000500 0) 0 0.

Definition mapped_line : list ascii :=
  list_ascii_of_string
    "type=1400 audit(1700000000.123:45): avc: denied { read } scontext=u:r:shell:s0 tcontext=u:object_r:file_a:s0 tclass=file permissive=0".

Definition denial_line : list ascii :=
  list_ascii_of_string
    ("type=1400 audit(1700000000.123:45): avc: denied { read } for pid=10 comm="
       ++ String (ascii_of_nat 34)
            ("sh" ++ String (ascii_of_nat 34) " name=x permissive=0")).

End AuditPrint.

(** ** The logpersist script: options given more than once *)
Module LogpersistOptions.
Import Logpersist.
Local Open Scope string_scope.

(** A command line that names a size twice, a buffer and --clear. *)
Definition twice : list string :=
  ["--size=100"; "-c"; "-b"; "main"; "--rotate-count=512"].

End LogpersistOptions.

(** * Properties *)

(** ** Machine integers *)

Lemma to_int_small (z : Z) : is_int z -> to_int z = z.
Proof.
  unfold is_int, INT_MIN, INT_MAX, to_int. intros Hz.
  rewrite Z.mod_small; lia.
Qed.

Lemma to_int_range (z : Z) : is_int (to_int z).
Proof.
  unfold is_int, INT_MIN, INT_MAX, to_int.
  pose proof (Z.mod_pos_bound (z + 2 ^ 31) (2 ^ 32)). lia.
Qed.

Lemma wrap_size_t_small `{Platform} (z : Z) :
  0 <= z <= SIZE_MAX -> wrap_size_t z = z.
Proof.
  unfold wrap_size_t. intros Hz. apply Z.mod_small. lia.
Qed.

Lemma total_len_app (v w : list iovec) :
  total_len (v ++ w) = total_len v + total_len w.
Proof.
  induction v as [|x v IH]; simpl; [reflexivity|].
  fold (total_len (v ++ w)). fold (total_len v). lia.
Qed.

Lemma total_len_cons (x : iovec) (v : list iovec) :
  total_len (x :: v) = iov_len x + total_len v.
Proof. reflexivity. Qed.

(** ** The payload cut of [LogdWrite] *)
Section CopyIovecs.
Context `{P : Platform}.
Import LogdWriter.

Lemma total_len_nonneg (vec : list iovec) :
  Forall fits vec -> 0 <= LOGGER_ENTRY_MAX_PAYLOAD -> 0 <= total_len vec.
Proof.
  intros Hall Hcap. induction Hall as [|v vec Hv _ IH].
  - simpl. lia.
  - rewrite total_len_cons. unfold fits in Hv. lia.
Qed.

Lemma copy_iovecs_total (vec : list iovec) :
  Forall fits vec ->
  forall acc, 0 <= acc <= LOGGER_ENTRY_MAX_PAYLOAD ->
  total_len (copy_iovecs acc vec)
  = Z.min (total_len vec) (LOGGER_ENTRY_MAX_PAYLOAD - acc).
Proof.
  induction 1 as [|v vec Hv Hall IH]; intros acc Hacc.
  - simpl. lia.
  - assert (Hnn : 0 <= total_len vec)
      by (apply total_len_nonneg; [assumption | lia]).
    unfold fits in Hv. cbn [copy_iovecs].
    rewrite (wrap_size_t_small (acc + iov_len v)) by lia.
    rewrite total_len_cons.
    destruct (Z.ltb_spec LOGGER_ENTRY_MAX_PAYLOAD (acc + iov_len v)) as [Hover|Hin].
    + rewrite wrap_size_t_small by lia.
      destruct (Z.eqb_spec (iov_len v - (acc + iov_len v - LOGGER_ENTRY_MAX_PAYLOAD)) 0).
      * simpl. lia.
      * rewrite total_len_cons. simpl. lia.
    + rewrite total_len_cons, IH by lia. lia.
Qed.

(** The copied list is the caller's list up to some index [k]; the iovec
    at [k], if the cut falls inside it, is kept with a shorter length, and
    nothing after it is kept. *)
Lemma copy_iovecs_shape (vec : list iovec) :
  Forall fits vec ->
  forall acc, 0 <= acc <= LOGGER_ENTRY_MAX_PAYLOAD ->
  copy_iovecs acc vec = vec
  \/ exists (k : nat) (v : iovec) (len' : Z),
       vec !! k = Some v /\ 0 <= len' < iov_len v
       /\ copy_iovecs acc vec
          = take k vec ++ (if len' =? 0 then [] else [mk_iovec (iov_base v) len']).
Proof.
  induction 1 as [|v vec Hv Hall IH]; intros acc Hacc.
  - left. reflexivity.
  - unfold fits in Hv. cbn [copy_iovecs].
    rewrite (wrap_size_t_small (acc + iov_len v)) by lia.
    destruct (Z.ltb_spec LOGGER_ENTRY_MAX_PAYLOAD (acc + iov_len v)) as [Hover|Hin].
    + right. exists O, v, (LOGGER_ENTRY_MAX_PAYLOAD - acc).
      rewrite wrap_size_t_small by lia.
      replace (iov_len v - (acc + iov_len v - LOGGER_ENTRY_MAX_PAYLOAD))
        with (LOGGER_ENTRY_MAX_PAYLOAD - acc) by lia.
      repeat split; try lia.
    + destruct (IH (acc + iov_len v)) as [Heq|(k & w & len' & Hk & Hlen & Heq)];
        [lia | | ].
      * left. rewrite Heq. reflexivity.
      * right. exists (S k), w, len'. rewrite Heq. repeat split; auto; lia.
Qed.

(** In bytes: what [writev] gathers from the copied iovecs is the beginning
    of what it would gather from the caller's, up to the cap. *)
Lemma copy_iovecs_gather (vec : list iovec) :
  Forall fits vec -> Forall readable vec ->
  forall acc, 0 <= acc <= LOGGER_ENTRY_MAX_PAYLOAD ->
  gather (copy_iovecs acc vec)
  = take (Z.to_nat (LOGGER_ENTRY_MAX_PAYLOAD - acc)) (gather vec).
Proof.
  induction 1 as [|v vec Hv Hall IH]; intros Hread acc Hacc.
  - cbn. rewrite take_nil. reflexivity.
  - inversion Hread as [|v' vec' Hrv Hrest]; subst.
    unfold fits in Hv. unfold readable in Hrv. cbn [copy_iovecs].
    rewrite (wrap_size_t_small (acc + iov_len v)) by lia.
    assert (Hlen : length (take (Z.to_nat (iov_len v)) (iov_base v))
                   = Z.to_nat (iov_len v)) by (apply length_take_le; lia).
    change (gather (v :: vec))
      with (take (Z.to_nat (iov_len v)) (iov_base v) ++ gather vec).
    destruct (Z.ltb_spec LOGGER_ENTRY_MAX_PAYLOAD (acc + iov_len v)) as [Hover|Hin].
    + rewrite wrap_size_t_small by lia.
      replace (iov_len v - (acc + iov_len v - LOGGER_ENTRY_MAX_PAYLOAD))
        with (LOGGER_ENTRY_MAX_PAYLOAD - acc) by lia.
      rewrite take_app_le by lia. rewrite take_take.
      replace (Z.to_nat (LOGGER_ENTRY_MAX_PAYLOAD - acc) `min` Z.to_nat (iov_len v))%nat
        with (Z.to_nat (LOGGER_ENTRY_MAX_PAYLOAD - acc)) by lia.
      destruct (Z.eqb_spec (LOGGER_ENTRY_MAX_PAYLOAD - acc) 0) as [Hz|Hnz].
      * rewrite Hz. reflexivity.
      * cbn. rewrite app_nil_r. reflexivity.
    + change (gather (v :: copy_iovecs (acc + iov_len v) vec))
        with (take (Z.to_nat (iov_len v)) (iov_base v)
              ++ gather (copy_iovecs (acc + iov_len v) vec)).
      rewrite IH by (auto; lia). rewrite take_app, Hlen.
      rewrite (take_ge (take (Z.to_nat (iov_len v)) (iov_base v))) by lia.
      f_equal. f_equal. lia.
Qed.

(** Every event of a call is one of the three [LogdWrite] can make, on the
    socket picked by the log id; the record datagram always carries
    [copy_iovecs 0 vec]. *)
Lemma LogdWrite_events (o : oracle) (dropped logId : Z) (ts : timespec)
      (vec : list iovec) (e : event) :
  In e (events (LogdWrite o dropped logId ts vec)) ->
  let sock := if logId =? LOG_ID_SECURITY then blocking_sock o
              else nonblocking_sock o in
  e = Writev sock
        (drop_report (make_header LOG_ID_EVENTS o ts)
                     (mk_event_int LIBLOG_LOG_TAG EVENT_TYPE_INT dropped))
        (writev_report o)
  \/ e = Reconnect sock
  \/ exists r, e = Writev sock
                     (log_record (make_header logId o ts) (copy_iovecs 0 vec)) r.
Proof.
  unfold LogdWrite. cbv zeta.
  repeat match goal with
         | |- context [if ?b then _ else _] => destruct b
         end; simpl; intuition (subst; eauto).
Qed.

End CopyIovecs.

(** ** [LogdWrite]: payload cut, return value, logd's own messages, drops *)
Section LogdWriteProps.
Context `{P : Platform}.
Import LogdWriter.

Lemma LogdWrite_silent (o : oracle) (dropped logId : Z) (ts : timespec)
      (vec : list iovec) :
  socket_for o logId < 0 \/ getuid o = AID_LOGD ->
  events (LogdWrite o dropped logId ts vec) = []
  /\ dropped_out (LogdWrite o dropped logId ts vec) = dropped.
Proof.
  unfold socket_for, LogdWrite. cbv zeta. intros H.
  destruct (Z.ltb_spec (if logId =? LOG_ID_SECURITY then blocking_sock o
                        else nonblocking_sock o) 0); [split; reflexivity|].
  destruct (Z.eqb_spec (getuid o) AID_LOGD); [split; reflexivity|].
  lia.
Qed.

(** Past the two early returns, the last event is the [writev] that
    decides the result, and the returned value is computed from it. *)
Lemma LogdWrite_active (o : oracle) (dropped logId : Z) (ts : timespec)
      (vec : list iovec) :
  0 <= socket_for o logId -> getuid o <> AID_LOGD ->
  let R := LogdWrite o dropped logId ts vec in
  let w := record_outcome o in
  let r := if sys_ret w <? 0 then - sys_errno w else sys_ret w in
  last (events R)
  = Some (Writev (socket_for o logId)
                 (log_record (make_header logId o ts) (copy_iovecs 0 vec)) w)
  /\ ret R = (if sizeof_header <? r then to_int (r - sizeof_header) else to_int r).
Proof.
  unfold socket_for, record_outcome, LogdWrite. cbv zeta. intros Hsock Huid.
  destruct (Z.ltb_spec (if logId =? LOG_ID_SECURITY then blocking_sock o
                        else nonblocking_sock o) 0); [lia|].
  destruct (Z.eqb_spec (getuid o) AID_LOGD); [contradiction|].
  destruct (negb (dropped =? 0) && liblog_loggable o);
    destruct ((sys_ret (writev_first o) <? 0)
              && negb (sys_errno (writev_first o) =? EAGAIN));
    cbn [fst snd];
    repeat match goal with
           | |- context [if sizeof_header <? ?x then _ else _] =>
               destruct (sizeof_header <? x)
           | |- context [if ?x <? 0 then mk_result _ _ _ else _] =>
               destruct (x <? 0)
           end; split; reflexivity.
Qed.

(** C2, as amended: when no length can make the running [size_t] sum wrap
    (each [iov_len] is at most [SIZE_MAX - LOGGER_ENTRY_MAX_PAYLOAD]), every
    record datagram [LogdWrite] hands to [writev] carries [copy_iovecs 0 vec],
    whose total length is [min (sum of the lengths) cap]; hence at most the
    cap, and at most 4096 when the cap is; it is the caller's array up to
    some index, with the iovec at the cut kept shorter and the rest dropped;
    in bytes, when the buffers hold what their lengths announce, the payload
    is the first [cap] bytes of the caller's data.  A call with an open
    socket outside logd does write such a datagram. *)
Theorem LogdWrite_payload_is_min_of_sum_and_cap
        (o : oracle) (dropped logId : Z) (ts : timespec) (vec : list iovec) :
  0 <= LOGGER_ENTRY_MAX_PAYLOAD ->
  Forall fits vec ->
  let R := LogdWrite o dropped logId ts vec in
  let payload := copy_iovecs 0 vec in
  (forall sock h p r, In (Writev sock (log_record h p) r) (events R) -> p = payload)
  /\ total_len payload = Z.min (total_len vec) LOGGER_ENTRY_MAX_PAYLOAD
  /\ total_len payload <= LOGGER_ENTRY_MAX_PAYLOAD
  /\ (LOGGER_ENTRY_MAX_PAYLOAD <= 4096 -> total_len payload <= 4096)
  /\ (payload = vec
      \/ exists (k : nat) (v : iovec) (len' : Z),
           vec !! k = Some v /\ 0 <= len' < iov_len v
           /\ payload = take k vec
                        ++ (if len' =? 0 then [] else [mk_iovec (iov_base v) len']))
  /\ (Forall readable vec ->
      gather payload = take (Z.to_nat LOGGER_ENTRY_MAX_PAYLOAD) (gather vec))
  /\ (0 <= socket_for o logId -> getuid o <> AID_LOGD ->
      exists sock h r, In (Writev sock (log_record h payload) r) (events R)).
Proof.
  intros Hcap Hfits R payload.
  assert (Htot : total_len payload = Z.min (total_len vec) LOGGER_ENTRY_MAX_PAYLOAD).
  { unfold payload. rewrite (copy_iovecs_total vec Hfits 0) by lia. f_equal. lia. }
  split; [|split; [exact Htot|split; [lia|split; [lia|split; [|split]]]]].
  - intros sock h p r Hin. apply LogdWrite_events in Hin.
    destruct Hin as [Hin|[Hin|[r' Hin]]]; try discriminate.
    inversion Hin. reflexivity.
  - apply copy_iovecs_shape; [assumption | lia].
  - intros Hread. unfold payload.
    rewrite (copy_iovecs_gather vec Hfits Hread 0) by lia. f_equal. lia.
  - intros Hsock Huid.
    destruct (LogdWrite_active o dropped logId ts vec Hsock Huid) as [Hw _].
    cbv zeta in Hw. eexists _, _, (record_outcome o). fold R in Hw. fold payload in Hw.
    destruct (events R) as [|e l] using rev_ind; [discriminate|].
    rewrite last_snoc in Hw. inversion Hw. apply in_or_app. right. left. reflexivity.
Qed.

(** C3, as amended: the value [LogdWrite] returns after its last [writev]
    of the record.  A result above the header size is returned less the
    header size; a result from 0 to the header size is returned as it is; a
    failed [writev] gives [-errno], which is negative.  So a datagram taken
    whole, with a payload that is not empty, returns the payload size. *)
Theorem LogdWrite_returns_payload_bytes_or_negated_errno
        (o : oracle) (dropped logId : Z) (ts : timespec) (vec : list iovec)
        (sock : Z) (h : android_log_header_t) (payload : list iovec) (w : sysret) :
  0 <= sizeof_header ->
  last (events (LogdWrite o dropped logId ts vec))
  = Some (Writev sock (log_record h payload) w) ->
  sys_ret w <= INT_MAX -> sys_errno w <= INT_MAX ->
  let R := LogdWrite o dropped logId ts vec in
  match w with
  | SysOk n =>
      (sizeof_header < Z.of_N n -> ret R = Z.of_N n - sizeof_header)
      /\ (Z.of_N n <= sizeof_header -> ret R = Z.of_N n)
      /\ (0 < total_len payload ->
          Z.of_N n = sizeof_header + total_len payload ->
          ret R = total_len payload)
  | SysErr e => ret R = - Z.pos e /\ ret R < 0
  end.
Proof.
  intros Hh Hlast Hret Herr R.
  assert (Hact : 0 <= socket_for o logId /\ getuid o <> AID_LOGD).
  { destruct (Z.lt_ge_cases (socket_for o logId) 0) as [Hneg|Hpos];
      [|destruct (Z.eq_dec (getuid o) AID_LOGD) as [Heq|Hne]; [|tauto]].
    - destruct (LogdWrite_silent o dropped logId ts vec (or_introl Hneg)) as [He _].
      rewrite He in Hlast. discriminate.
    - destruct (LogdWrite_silent o dropped logId ts vec (or_intror Heq)) as [He _].
      rewrite He in Hlast. discriminate. }
  destruct Hact as [Hsock Huid].
  destruct (LogdWrite_active o dropped logId ts vec Hsock Huid) as [Hl Hr].
  rewrite Hl in Hlast. inversion Hlast as [[Hs Hhd Hp Hw]]. clear Hlast.
  subst R w payload. clear Hl Hs Hhd. unfold INT_MAX in *.
  set (res := ret (LogdWrite o dropped logId ts vec)) in *. clearbody res.
  destruct (record_outcome o) as [n|e]; cbn [sys_ret sys_errno] in *.
  - destruct (Z.ltb_spec (Z.of_N n) 0); [lia|].
    destruct (Z.ltb_spec sizeof_header (Z.of_N n)).
    + rewrite to_int_small in Hr by (unfold is_int, INT_MIN, INT_MAX; lia).
      repeat split; intros; lia.
    + rewrite to_int_small in Hr by (unfold is_int, INT_MIN, INT_MAX; lia).
      repeat split; intros; lia.
  - change (-1 <? 0) with true in Hr. cbv iota in Hr.
    destruct (Z.ltb_spec sizeof_header (- Z.pos e)); [lia|].
    rewrite to_int_small in Hr by (unfold is_int, INT_MIN, INT_MAX; lia). lia.
Qed.

(** C8, as amended: in a process whose uid is AID_LOGD, [LogdWrite] sends
    nothing and leaves the drop counter alone; it returns 0 when the socket
    for the log id is open, and -EBADF when it is not (that test comes
    first). *)
Theorem LogdWrite_from_logd_is_discarded
        (o : oracle) (dropped logId : Z) (ts : timespec) (vec : list iovec) :
  getuid o = AID_LOGD ->
  let R := LogdWrite o dropped logId ts vec in
  events R = [] /\ dropped_out R = dropped
  /\ (0 <= socket_for o logId -> ret R = 0)
  /\ (socket_for o logId < 0 -> ret R = - EBADF).
Proof.
  intros Huid R.
  destruct (LogdWrite_silent o dropped logId ts vec (or_intror Huid)) as [He Hd].
  split; [exact He|split; [exact Hd|]].
  unfold R, socket_for, LogdWrite. cbv zeta.
  destruct (Z.ltb_spec (if logId =? LOG_ID_SECURITY then blocking_sock o
                        else nonblocking_sock o) 0).
  - split; [lia|reflexivity].
  - rewrite Huid, Z.eqb_refl. split; [reflexivity|lia].
Qed.

(** Past the two early returns: what the call reports, and what it leaves
    in the counter. *)
Lemma LogdWrite_books (o : oracle) (dropped logId : Z) (ts : timespec)
      (vec : list iovec) :
  0 <= socket_for o logId -> getuid o <> AID_LOGD ->
  let R := LogdWrite o dropped logId ts vec in
  let w := record_outcome o in
  let r := if sys_ret w <? 0 then - sys_errno w else sys_ret w in
  let reporting := negb (dropped =? 0) && liblog_loggable o in
  let whole := sys_ret (writev_report o) =? sizeof_header + sizeof_event_int in
  let kept := if reporting then if whole then 0 else to_int (0 + dropped) else 0 in
  reported (events R) = (if reporting then if whole then dropped else 0 else 0)
  /\ dropped_out R
     = (if sizeof_header <? r then kept
        else if r <? 0 then to_int (kept + 1) else kept).
Proof.
  unfold socket_for, record_outcome, LogdWrite. cbv zeta. intros Hsock Huid.
  destruct (Z.ltb_spec (if logId =? LOG_ID_SECURITY then blocking_sock o
                        else nonblocking_sock o) 0); [lia|].
  destruct (Z.eqb_spec (getuid o) AID_LOGD); [contradiction|].
  destruct (negb (dropped =? 0) && liblog_loggable o);
    destruct ((sys_ret (writev_first o) <? 0)
              && negb (sys_errno (writev_first o) =? EAGAIN));
    cbn [fst snd];
    repeat match goal with
           | |- context [if sizeof_header <? ?x then mk_result _ _ _ else _] =>
               destruct (sizeof_header <? x)
           | |- context [if ?x <? 0 then mk_result _ _ _ else _] =>
               destruct (x <? 0)
           end;
    cbn [events dropped_out app reported fold_right reported_by ev_data];
    destruct (sys_ret (writev_report o) =? sizeof_header + sizeof_event_int);
    cbn [negb]; split; try reflexivity; lia.
Qed.

(** One call keeps the books: what is left in the counter plus what the
    call reported equals what was in the counter plus one if the call
    failed to write its record.  The snapshot must be reportable (liblog
    loggable) when it is not zero, and the counter must not be at INT_MAX. *)
Lemma LogdWrite_accounting (o : oracle) (dropped logId : Z) (ts : timespec)
      (vec : list iovec) :
  0 <= sizeof_header -> 0 <= dropped < INT_MAX ->
  (dropped <> 0 -> liblog_loggable o = true) ->
  let R := LogdWrite o dropped logId ts vec in
  dropped_out R + reported (events R)
  = dropped + (if record_write_failed (events R) then 1 else 0)
  /\ 0 <= dropped_out R <= dropped + 1.
Proof.
  intros Hh Hd Hlog R. subst R. unfold INT_MAX in Hd.
  destruct (Z.lt_ge_cases (socket_for o logId) 0) as [Hneg|Hsock];
    [|destruct (Z.eq_dec (getuid o) AID_LOGD) as [Heq|Huid]].
  - destruct (LogdWrite_silent o dropped logId ts vec (or_introl Hneg)) as [He Hdo].
    rewrite He, Hdo. cbn. lia.
  - destruct (LogdWrite_silent o dropped logId ts vec (or_intror Heq)) as [He Hdo].
    rewrite He, Hdo. cbn. lia.
  - destruct (LogdWrite_active o dropped logId ts vec Hsock Huid) as [Hlast _].
    destruct (LogdWrite_books o dropped logId ts vec Hsock Huid) as [Hrep Hout].
    unfold record_write_failed. rewrite Hlast, Hrep, Hout. clear Hlast Hrep Hout.
    assert (Hsnap : to_int (0 + dropped) = dropped)
      by (apply to_int_small; unfold is_int, INT_MIN, INT_MAX; lia).
    rewrite Hsnap.
    assert (Hreporting :
              negb (dropped =? 0) && liblog_loggable o = negb (dropped =? 0)).
    { destruct (Z.eqb_spec dropped 0); [reflexivity|].
      rewrite Hlog by assumption. reflexivity. }
    rewrite Hreporting.
    set (kept := if negb (dropped =? 0)
                 then if sys_ret (writev_report o) =? sizeof_header + sizeof_event_int
                      then 0 else dropped
                 else 0).
    set (rep := if negb (dropped =? 0)
                then if sys_ret (writev_report o) =? sizeof_header + sizeof_event_int
                     then dropped else 0
                else 0).
    assert (Hsum : kept + rep = dropped /\ 0 <= kept <= dropped).
    { unfold kept, rep. destruct (Z.eqb_spec dropped 0); cbn [negb];
        [lia|destruct (_ =? _); lia]. }
    clearbody kept rep.
    assert (Hsucc : to_int (kept + 1) = kept + 1)
      by (apply to_int_small; unfold is_int, INT_MIN, INT_MAX; lia).
    rewrite Hsucc.
    destruct (record_outcome o) as [n|e]; cbn [sys_ret sys_errno].
    + destruct (Z.ltb_spec (Z.of_N n) 0); [lia|].
      destruct (Z.ltb_spec sizeof_header (Z.of_N n)); [lia|].
      destruct (Z.ltb_spec (Z.of_N n) 0); lia.
    + change (-1 <? 0) with true. cbv iota.
      destruct (Z.ltb_spec sizeof_header (- Z.pos e)); [lia|].
      destruct (Z.ltb_spec (- Z.pos e) 0); lia.
Qed.

Lemma run_cons (dropped : Z) (c : call) (rest : list call) :
  run dropped (c :: rest)
  = let r := LogdWrite (call_oracle c) dropped (call_logId c) (call_ts c)
                       (call_vec c) in
    (fst (run (dropped_out r) rest), r :: snd (run (dropped_out r) rest)).
Proof.
  cbn [run]. cbv zeta. destruct (run _ rest). reflexivity.
Qed.

(** C9, as amended: for one thread calling [LogdWrite] any number of times
    with liblog loggable at each call, and as long as the counter cannot
    overflow, the drops reported to logd plus the drops still pending in
    the counter equal the drops pending at the start plus the number of
    calls that failed to write their record.  This holds after every call,
    since it holds for every list of calls. *)
Theorem dropped_plus_reported_is_failed_writes
        (calls : list call) (dropped : Z) :
  0 <= sizeof_header ->
  0 <= dropped -> dropped + Z.of_nat (length calls) <= INT_MAX ->
  Forall (fun c => liblog_loggable (call_oracle c) = true) calls ->
  let '(pending, results) := run dropped calls in
  pending + total_reported results = dropped + total_failed results.
Proof.
  intros Hh. revert dropped.
  induction calls as [|c rest IH]; intros dropped Hd Hbound Hlog.
  - cbn. lia.
  - rewrite run_cons. cbv zeta.
    inversion Hlog as [|c' rest' Hc Hrest]; subst.
    cbn [length] in Hbound.
    destruct (LogdWrite_accounting (call_oracle c) dropped (call_logId c)
                (call_ts c) (call_vec c) Hh) as [Hstep Hrange];
      [lia | intros _; exact Hc |].
    cbv zeta in Hstep, Hrange.
    set (r := LogdWrite (call_oracle c) dropped (call_logId c) (call_ts c)
                        (call_vec c)) in *.
    specialize (IH (dropped_out r)).
    destruct (run (dropped_out r) rest) as [pending results].
    cbn [fst snd total_reported total_failed fold_right].
    fold (total_reported results). fold (total_failed results).
    assert (IH' : pending + total_reported results
                  = dropped_out r + total_failed results)
      by (apply IH; [lia | lia | assumption]).
    lia.
Qed.

End LogdWriteProps.

(** ** The [dropped] counter under any interleaving of threads *)

(** One atomic action [c] of thread 0, then the rest of the path. *)
Ltac act c :=
  eapply rtc_l;
  [ eapply c with (i := 0%nat); try reflexivity; try assumption
  | cbn [DropCounter.dropped DropCounter.reported DropCounter.failed
         DropCounter.threads insert list_insert] ].

Section DropCounterProps.
Import DropCounter.

Lemma to_int_congruent (z : Z) : congruent (to_int z) z.
Proof.
  unfold congruent, to_int. exists (- ((z + 2 ^ 31) / 2 ^ 32)).
  pose proof (Z.div_mod (z + 2 ^ 31) (2 ^ 32)). lia.
Qed.

Lemma in_flight_cons (p : pc) (ts : list pc) :
  in_flight (p :: ts) = held p + in_flight ts.
Proof. reflexivity. Qed.

Lemma in_flight_insert (ts : list pc) (i : nat) (p q : pc) :
  ts !! i = Some p ->
  in_flight (<[i := q]> ts) = in_flight ts - held p + held q.
Proof.
  revert i. induction ts as [|x ts IH]; intros [|i] Hi; try discriminate Hi.
  - injection Hi as ->.
    change (<[0%nat := q]> (p :: ts)) with (q :: ts).
    rewrite !in_flight_cons. lia.
  - change (<[S i := q]> (x :: ts)) with (x :: <[i := q]> ts).
    rewrite !in_flight_cons, (IH i Hi). lia.
Qed.

(** Every atomic action keeps the balance, as long as liblog is loggable. *)
Lemma step_balanced (initial : Z) (st st' : state) :
  step true st st' -> balanced initial st -> balanced initial st'.
Proof.
  unfold balanced, congruent.
  intros Hstep [k Hk]; inversion Hstep as
      [i st0 Hi|i s st0 Hi Hs Hl|i s st0 Hi Hs Hl|i s st0 Hi Hs
      |i s st0 Hi|i st0 Hi|i st0 Hi|i st0 Hi]; subst; cbn [dropped reported failed threads];
    rewrite (in_flight_insert _ _ _ _ Hi); cbn [held].
  - exists k. lia.
  - exists k. lia.
  - exists k. lia.
  - destruct Hs as [->|Hf]; [|discriminate]. exists k. lia.
  - destruct (to_int_congruent (dropped st + s)) as [j Hj]. exists (k + j). lia.
  - exists k. lia.
  - exists k. lia.
  - destruct (to_int_congruent (dropped st + 1)) as [j Hj]. exists (k + j). lia.
Qed.

(** With liblog loggable, in every state that any number of threads can
    reach by any interleaving of their atomic actions, the counter, the
    reports taken by logd and the drops the threads hold at that point
    add up to the failed writes (and what the counter held at first),
    modulo 2^32. *)
Lemma balanced_in_every_interleaving (st st' : state) :
  rtc (step true) st st' ->
  balanced (dropped st + reported st + in_flight (threads st) - failed st) st'.
Proof.
  set (initial := dropped st + reported st + in_flight (threads st) - failed st).
  assert (H0 : balanced initial st) by (exists 0; unfold initial; lia).
  clearbody initial. induction 1 as [st|st mid st' Hstep _ IH]; [exact H0|].
  apply IH. eapply step_balanced; eassumption.
Qed.

(** Between the exchange and the report the counter and the reports alone
    do not account for a failed write: the snapshot is in flight. *)
Lemma snapshot_in_flight_after_exchange :
  exists st,
    rtc (step true) (mk_state 0 0 0 [Idle]) st
    /\ dropped st + reported st <> failed st
    /\ dropped st + reported st + in_flight (threads st) = failed st.
Proof.
  exists (mk_state 0 0 1 [Exchanged 1]). split; [|split; [discriminate|reflexivity]].
  act step_exchange. act step_no_report; [left; reflexivity|].
  act step_write_failed. act step_count. act step_exchange.
  apply rtc_refl.
Qed.

End DropCounterProps.

(** ** [LogdWrite] as a path of atomic actions *)
Section LogdWritePath.
Context `{P : Platform}.
Import LogdWriter.

(** The write of the record and the count of its failure, from any value
    [d] of the counter. *)
Lemma record_write_is_a_path (o : oracle) (d rep fl : Z) :
  0 <= sizeof_header ->
  rtc (DropCounter.step (liblog_loggable o))
      (DropCounter.mk_state d rep fl [DropCounter.Reported])
      (DropCounter.mk_state
         (let w := record_outcome o in
          let r := if sys_ret w <? 0 then - sys_errno w else sys_ret w in
          if sizeof_header <? r then d
          else if r <? 0 then to_int (d + 1) else d)
         rep
         (fl + match record_outcome o with SysErr _ => 1 | SysOk _ => 0 end)
         [DropCounter.Idle]).
Proof.
  intros Hh. cbv zeta.
  destruct (record_outcome o) as [n|e]; cbn [sys_ret sys_errno].
  - replace (fl + 0) with fl by lia.
    assert (Hn : (Z.of_N n <? 0) = false) by (apply Z.ltb_ge; lia).
    rewrite Hn. cbv iota. rewrite Hn.
    destruct (sizeof_header <? Z.of_N n); act DropCounter.step_write_ok;
      apply rtc_refl.
  - change (-1 <? 0) with true. cbv iota.
    destruct (Z.ltb_spec sizeof_header (- Z.pos e)); [lia|].
    destruct (Z.ltb_spec (- Z.pos e) 0); [|lia].
    act DropCounter.step_write_failed. act DropCounter.step_count.
    apply rtc_refl.
Qed.

(** A call of [LogdWrite] that gets past its early returns is one pass of a
    thread through the atomic actions: it ends with the counter, the
    reports and the failures that the function model computes. *)
Lemma LogdWrite_is_a_pass (o : oracle) (dropped logId : Z) (ts : timespec)
      (vec : list iovec) (rep fl : Z) :
  0 <= sizeof_header ->
  0 <= socket_for o logId -> getuid o <> AID_LOGD ->
  let R := LogdWrite o dropped logId ts vec in
  rtc (DropCounter.step (liblog_loggable o))
      (DropCounter.mk_state dropped rep fl [DropCounter.Idle])
      (DropCounter.mk_state
         (dropped_out R) (rep + reported (events R))
         (fl + if record_write_failed (events R) then 1 else 0)
         [DropCounter.Idle]).
Proof.
  intros Hh Hsock Huid R. subst R.
  destruct (LogdWrite_active o dropped logId ts vec Hsock Huid) as [Hlast _].
  destruct (LogdWrite_books o dropped logId ts vec Hsock Huid) as [Hrep Hout].
  unfold record_write_failed. rewrite Hlast, Hrep, Hout. clear Hlast Hrep Hout.
  cbv zeta.
  pose proof (fun d r => record_write_is_a_path o d r fl Hh) as Hwrite.
  cbv zeta in Hwrite.
  act DropCounter.step_exchange.
  destruct (Z.eqb_spec dropped 0) as [->|Hnz]; cbn [negb andb].
  - act DropCounter.step_no_report; [left; reflexivity|].
    replace (rep + 0) with rep by lia.
    specialize (Hwrite 0 rep). destruct (record_outcome o); exact Hwrite.
  - destruct (liblog_loggable o) eqn:Hlog.
    + destruct (Z.eqb_spec (sys_ret (writev_report o))
                           (sizeof_header + sizeof_event_int)) as [Hwhole|Hpart].
      * act DropCounter.step_report_whole.
        specialize (Hwrite 0 (rep + dropped)).
        destruct (record_outcome o); exact Hwrite.
      * act DropCounter.step_report_partial. act DropCounter.step_add_back.
        replace (rep + 0) with rep by lia.
        specialize (Hwrite (to_int (0 + dropped)) rep).
        destruct (record_outcome o); exact Hwrite.
    + act DropCounter.step_no_report; [right; reflexivity|].
      replace (rep + 0) with rep by lia.
      specialize (Hwrite 0 rep). destruct (record_outcome o); exact Hwrite.
Qed.

End LogdWritePath.

(** ** [LogdWrite] on the example inputs, with the AOSP constants *)
Section LogdWriteExamples.
Import LogdWriter Examples.
Existing Instance aosp.

(** 4000 + 100 + 7 bytes against a cap of 4068: the second iovec is kept
    with 68 bytes and the third is dropped; at exactly the cap nothing is
    cut. *)
Example copy_iovecs_cuts_second :
  copy_iovecs 0 small_vec = [bytes 4000; bytes 68].
Proof. reflexivity. Qed.

Example copy_iovecs_at_cap :
  copy_iovecs 0 [bytes 4000; bytes 68] = [bytes 4000; bytes 68]
  /\ copy_iovecs 0 [bytes 4068; bytes 5] = [bytes 4068].
Proof. split; reflexivity. Qed.

(** A first failure other than EAGAIN makes [LogdWrite] reconnect and try
    once more; the second result is the one returned. *)
Example LogdWrite_reconnects :
  let o := LogdWriter.mk_oracle 3 4 10123 4242 true (SysOk 0)
                                (SysErr 111) (SysOk 20) in
  LogdWrite o 0 LOG_ID_MAIN ts0 [bytes 9]
  = mk_result 9 0
      [Writev 4 (log_record (make_header LOG_ID_MAIN o ts0) [bytes 9]) (SysErr 111);
       Reconnect 4;
       Writev 4 (log_record (make_header LOG_ID_MAIN o ts0) [bytes 9]) (SysOk 20)].
Proof. reflexivity. Qed.

(** C2, the claim as worded fails: two iovecs of lengths 1 and SIZE_MAX make
    the [size_t] sum wrap to 0, the cut is never taken, and the datagram
    handed to [writev] announces 2^64 payload bytes, not
    [min (2^64) 4068 = 4068]. *)
Lemma LogdWrite_payload_sum_wraps :
  exists sock h payload r,
    In (Writev sock (log_record h payload) r)
       (events (LogdWrite (app true (SysErr 22)) 0 LOG_ID_MAIN ts0 wrapping_vec))
    /\ total_len payload = 2 ^ 64
    /\ LOGGER_ENTRY_MAX_PAYLOAD < total_len payload
    /\ total_len payload <> Z.min (total_len wrapping_vec) LOGGER_ENTRY_MAX_PAYLOAD.
Proof.
  exists 4, (make_header LOG_ID_MAIN (app true (SysErr 22)) ts0),
    wrapping_vec, (SysErr 22).
  split; [vm_compute; left; reflexivity|].
  split; [reflexivity|]. split; [reflexivity|]. vm_compute. discriminate.
Qed.

Lemma LogdWrite_payload_is_min_of_sum_and_cap_witness :
  0 <= LOGGER_ENTRY_MAX_PAYLOAD
  /\ Forall fits small_vec
  /\ total_len (copy_iovecs 0 small_vec)
     = Z.min (total_len small_vec) LOGGER_ENTRY_MAX_PAYLOAD.
Proof.
  assert (H0 : 0 <= LOGGER_ENTRY_MAX_PAYLOAD) by (vm_compute; discriminate).
  assert (Hf : Forall fits small_vec).
  { repeat constructor; vm_compute; discriminate. }
  split; [exact H0|split; [exact Hf|]].
  exact (proj1 (proj2 (LogdWrite_payload_is_min_of_sum_and_cap
                         (app true (SysOk 4079)) 0 LOG_ID_MAIN ts0 small_vec H0 Hf))).
Defined.

(** C3, the claim as worded fails: a refused write returns -EAGAIN = -11,
    not -1; and a datagram with an empty payload that is taken whole
    returns the header size 11, not the 0 payload bytes accepted. *)
Lemma LogdWrite_rejected_is_not_minus_one :
  ret (LogdWrite (app true (SysErr 11)) 0 LOG_ID_MAIN ts0 small_vec) = - EAGAIN
  /\ ret (LogdWrite (app true (SysErr 11)) 0 LOG_ID_MAIN ts0 small_vec) <> -1
  /\ ret (LogdWrite (app true (SysOk 11)) 0 LOG_ID_MAIN ts0 []) = sizeof_header
  /\ total_len (copy_iovecs 0 []) = 0.
Proof.
  split; [reflexivity|]. split; [vm_compute; discriminate|].
  split; reflexivity.
Qed.

Lemma LogdWrite_returns_payload_bytes_or_negated_errno_witness :
  0 <= sizeof_header
  /\ last (events (LogdWrite (app true (SysOk 4079)) 0 LOG_ID_MAIN ts0 small_vec))
     = Some (Writev 4 (log_record (make_header LOG_ID_MAIN (app true (SysOk 4079)) ts0)
                                  (copy_iovecs 0 small_vec))
                    (SysOk 4079))
  /\ sys_ret (SysOk 4079) <= INT_MAX
  /\ sys_errno (SysOk 4079) <= INT_MAX
  /\ ret (LogdWrite (app true (SysOk 4079)) 0 LOG_ID_MAIN ts0 small_vec)
     = total_len (copy_iovecs 0 small_vec).
Proof.
  assert (H0 : 0 <= sizeof_header) by (vm_compute; discriminate).
  assert (Hl : last (events (LogdWrite (app true (SysOk 4079)) 0 LOG_ID_MAIN ts0 small_vec))
     = Some (Writev 4 (log_record (make_header LOG_ID_MAIN (app true (SysOk 4079)) ts0)
                                  (copy_iovecs 0 small_vec))
                    (SysOk 4079))) by reflexivity.
  assert (H1 : sys_ret (SysOk 4079) <= INT_MAX) by (vm_compute; discriminate).
  assert (H2 : sys_errno (SysOk 4079) <= INT_MAX) by (vm_compute; discriminate).
  repeat (split; [assumption|]).
  refine (proj2 (proj2 (LogdWrite_returns_payload_bytes_or_negated_errno
                          _ _ _ _ _ _ _ _ _ H0 Hl H1 H2)) _ _).
  - vm_compute. reflexivity.
  - vm_compute. reflexivity.
Defined.

(** C8, the claim as worded fails: logd with no socket gets -EBADF, not 0. *)
Lemma LogdWrite_from_logd_without_socket :
  getuid (logd_self (-1)) = AID_LOGD
  /\ ret (LogdWrite (logd_self (-1)) 0 LOG_ID_MAIN ts0 small_vec) = - EBADF
  /\ ret (LogdWrite (logd_self (-1)) 0 LOG_ID_MAIN ts0 small_vec) <> 0.
Proof.
  split; [reflexivity|]. split; [reflexivity|]. vm_compute. discriminate.
Qed.

Lemma LogdWrite_from_logd_is_discarded_witness :
  getuid (logd_self 5) = AID_LOGD
  /\ events (LogdWrite (logd_self 5) 3 LOG_ID_MAIN ts0 small_vec) = []
  /\ ret (LogdWrite (logd_self 5) 3 LOG_ID_MAIN ts0 small_vec) = 0.
Proof.
  assert (Hu : getuid (logd_self 5) = AID_LOGD) by reflexivity.
  split; [exact Hu|].
  destruct (LogdWrite_from_logd_is_discarded (logd_self 5) 3 LOG_ID_MAIN ts0
              small_vec Hu) as (He & _ & Hr & _).
  split; [exact He|]. apply Hr. vm_compute. discriminate.
Defined.

(** C9, the claim as worded fails: a drop counted by one call is thrown
    away by the next when liblog is not loggable; afterwards nothing is
    pending, nothing was reported, and one write had failed. *)
Lemma dropped_snapshot_lost_when_not_loggable :
  fst (run 0 lost_drop_calls) = 0
  /\ total_reported (snd (run 0 lost_drop_calls)) = 0
  /\ total_failed (snd (run 0 lost_drop_calls)) = 1
  /\ fst (run 0 lost_drop_calls) + total_reported (snd (run 0 lost_drop_calls))
     <> total_failed (snd (run 0 lost_drop_calls)).
Proof.
  split; [reflexivity|]. split; [reflexivity|]. split; [reflexivity|].
  vm_compute. discriminate.
Qed.

Lemma dropped_plus_reported_is_failed_writes_witness :
  0 <= sizeof_header
  /\ 0 <= 0
  /\ 0 + Z.of_nat (length reported_drop_calls) <= INT_MAX
  /\ Forall (fun c => liblog_loggable (call_oracle c) = true) reported_drop_calls
  /\ fst (run 0 reported_drop_calls) + total_reported (snd (run 0 reported_drop_calls))
     = 0 + total_failed (snd (run 0 reported_drop_calls)).
Proof.
  assert (H0 : 0 <= sizeof_header) by (vm_compute; discriminate).
  assert (H1 : 0 <= 0) by (vm_compute; discriminate).
  assert (H2 : 0 + Z.of_nat (length reported_drop_calls) <= INT_MAX)
    by (vm_compute; discriminate).
  assert (H3 : Forall (fun c => liblog_loggable (call_oracle c) = true)
                      reported_drop_calls) by (repeat constructor).
  repeat (split; [assumption|]).
  pose proof (dropped_plus_reported_is_failed_writes reported_drop_calls 0
                H0 H1 H2 H3) as H.
  destruct (run 0 reported_drop_calls) as [pending results]. exact H.
Defined.

End LogdWriteExamples.

(** ** [write_to_log] and the message entry point *)
Section LoggerWriteProps.
Context `{P : Platform}.
Import LogdWriter LoggerWrite.

Lemma not_privileged_true (id : Z) : not_privileged id = true <-> ~ privileged id.
Proof.
  unfold not_privileged, privileged.
  destruct (Z.eqb_spec id AID_SYSTEM), (Z.eqb_spec id AID_ROOT),
    (Z.eqb_spec id AID_LOG); cbn; intuition congruence.
Qed.

Lemma not_privileged_false (id : Z) : not_privileged id = false <-> privileged id.
Proof.
  unfold not_privileged, privileged.
  destruct (Z.eqb_spec id AID_SYSTEM), (Z.eqb_spec id AID_ROOT),
    (Z.eqb_spec id AID_LOG); cbn; intuition congruence.
Qed.

(** The loop ends at 0 exactly when none of the first [n] groups is one of
    the two writer groups. *)
Lemma scan_groups_zero (groups : list Z) (n : nat) :
  scan_groups groups n = O
  <-> forall (i : nat) (g : Z),
        (i < n)%nat -> groups !! i = Some g ->
        g <> AID_LOG /\ g <> AID_SECURITY_LOG_WRITER.
Proof.
  induction n as [|n IH]; cbn [scan_groups].
  - split; [intros _ i g Hi; lia | reflexivity].
  - destruct (groups !! n) as [g|] eqn:Hg.
    + destruct (Z.eqb_spec g AID_LOG) as [Hl|Hl];
        [|destruct (Z.eqb_spec g AID_SECURITY_LOG_WRITER) as [Hw|Hw]]; cbn [orb].
      * split; [discriminate|]. intros H. destruct (H n g); [lia|assumption|].
        contradiction.
      * split; [discriminate|]. intros H. destruct (H n g); [lia|assumption|].
        contradiction.
      * rewrite IH. split; intros H i g' Hi Hg'.
        -- destruct (Nat.eq_dec i n) as [->|Hne].
           ++ rewrite Hg in Hg'. inversion Hg'; subst. split; assumption.
           ++ apply (H i g'); [lia|assumption].
        -- apply (H i g'); [lia|assumption].
    + rewrite IH. split; intros H i g' Hi Hg'.
      * destruct (Nat.eq_dec i n) as [->|Hne]; [congruence|].
        apply (H i g'); [lia|assumption].
      * apply (H i g'); [lia|assumption].
Qed.

Lemma scan_groups_pos (groups : list Z) (n k : nat) :
  scan_groups groups n = S k ->
  exists g, groups !! k = Some g /\ (g = AID_LOG \/ g = AID_SECURITY_LOG_WRITER).
Proof.
  induction n as [|n IH]; cbn [scan_groups]; [discriminate|].
  destruct (groups !! n) as [g|] eqn:Hg; [|exact IH].
  destruct (Z.eqb_spec g AID_LOG) as [Hl|Hl];
    [|destruct (Z.eqb_spec g AID_SECURITY_LOG_WRITER) as [Hw|Hw]]; cbn [orb];
    [intros [= <-]; eauto | intros [= <-]; eauto | exact IH].
Qed.

Lemma scan_all_groups_zero (o : environment) :
  scan_groups (getgroups o) (length (getgroups o)) = O <-> ~ group_approved o.
Proof.
  rewrite scan_groups_zero. unfold group_approved. split.
  - intros H (g & Hin & Hg).
    apply list_elem_of_In, list_elem_of_lookup in Hin. destruct Hin as [i Hi].
    destruct (H i g); [apply lookup_lt_Some in Hi; exact Hi | exact Hi |].
    destruct Hg; contradiction.
  - intros H i g _ Hi. split; intros ->; apply H; eexists; split;
      try (apply list_elem_of_In, list_elem_of_lookup; eauto); auto.
Qed.

(** What [check_log_uid_permissions] returns, case by case. *)
Lemma check_log_uid_permissions_cases (o : environment) :
  (primary_approved o -> check_log_uid_permissions o = 0)
  /\ (alloc_fails o -> check_log_uid_permissions o = - ENOMEM)
  /\ (~ alloc_fails o -> group_approved o -> check_log_uid_permissions o = 0)
  /\ (~ alloc_fails o -> ~ approved o -> check_log_uid_permissions o = - EPERM).
Proof.
  unfold check_log_uid_permissions, alloc_fails, approved, primary_approved.
  destruct (not_privileged (getuid (logd o))) eqn:H1;
    [apply not_privileged_true in H1 | apply not_privileged_false in H1];
    [destruct (not_privileged (geteuid o)) eqn:H2;
     [apply not_privileged_true in H2 | apply not_privileged_false in H2];
     [destruct (not_privileged (getgid o)) eqn:H3;
      [apply not_privileged_true in H3 | apply not_privileged_false in H3];
      [destruct (not_privileged (getegid o)) eqn:H4;
       [apply not_privileged_true in H4 | apply not_privileged_false in H4]
      |]|]|].
  2-5: repeat split; try reflexivity; intros; exfalso; tauto.
  pose proof (scan_all_groups_zero o) as Hscan.
  destruct (getgroups o) as [|g gs] eqn:Hgs.
  - cbn. repeat split; try tauto; try (intros (_ & _ & Hc); discriminate Hc).
  - set (n := length (g :: gs)) in *.
    assert (Hn : (Z.of_nat n <=? 0) = false) by (apply Z.leb_gt; cbn; lia).
    cbv zeta. rewrite Hn.
    destruct (calloc_succeeds o); cbn [negb].
    + destruct (scan_groups (g :: gs) n) as [|k] eqn:Hk.
      * assert (Hno : ~ group_approved o) by (apply Hscan; reflexivity).
        cbn. repeat split; try tauto; try (intros (_ & _ & Hc); discriminate Hc).
      * assert (Hyes : group_approved o).
        { destruct (scan_groups_pos _ _ _ Hk) as (g' & Hg' & Hm).
          exists g'. split; [|exact Hm]. rewrite Hgs.
          apply list_elem_of_In, list_elem_of_lookup. eauto. }
        replace (Z.of_nat (S k) <=? 0) with false by (symmetry; apply Z.leb_gt; lia).
        repeat split; try tauto; try (intros (_ & _ & Hc); discriminate Hc).
    + assert (Hfail : ~ primary_approved o /\ g :: gs <> [] /\ false = false).
      { unfold primary_approved. repeat split; [tauto|discriminate]. }
      unfold primary_approved in Hfail.
      repeat split; try tauto.
Qed.

(** On the partitions without a tag check, [write_to_log] hands every
    array to [LogdWrite], whatever its length. *)
Lemma write_to_log_text (o : environment) (dropped log_id : Z)
      (vec : list iovec) (timestamp : option timespec) :
  ~ In log_id [LOG_ID_KERNEL; LOG_ID_SECURITY; LOG_ID_EVENTS; LOG_ID_STATS] ->
  write_to_log o dropped log_id vec timestamp
  = Some (submit o dropped log_id vec timestamp).
Proof.
  intros Hid. unfold write_to_log.
  destruct (Z.eqb_spec log_id LOG_ID_KERNEL) as [->|_]; [exfalso; apply Hid; cbn; tauto|].
  destruct (Z.eqb_spec log_id LOG_ID_SECURITY) as [->|_]; [exfalso; apply Hid; cbn; tauto|].
  destruct (Z.eqb_spec log_id LOG_ID_EVENTS) as [->|_]; [exfalso; apply Hid; cbn; tauto|].
  destruct (Z.eqb_spec log_id LOG_ID_STATS) as [->|_]; [exfalso; apply Hid; cbn; tauto|].
  reflexivity.
Qed.

Lemma submitted_ids_in (evs : list event) (id : Z) :
  In id (submitted_ids evs)
  <-> exists sock h p r, In (Writev sock (log_record h p) r) evs /\ id = hdr_id h.
Proof.
  unfold submitted_ids. rewrite in_flat_map. split.
  - intros (e & He & Hid). destruct e as [sock [h b|h p] r| | | |];
      cbn in Hid; try contradiction.
    destruct Hid as [<-|[]]. eauto 6.
  - intros (sock & h & p & r & He & ->). eexists. split; [exact He|]. left.
    reflexivity.
Qed.

(** C1, as amended: a write to the security partition whose first iovec has
    at least 4 bytes (a shorter one is refused with -EINVAL before the
    permission check) is refused with -EPERM when the caller is not in the
    approved set, and with -ENOMEM, approved or not, when the group array
    is needed and cannot be allocated; otherwise, for an approved caller,
    the permission check returns 0 and the write goes on to [LogdWrite] when
    security logging is enabled, and is refused with -EPERM when it is not.
    A refused write sends nothing. *)
Theorem security_write_needs_approved_principal
        (o : environment) (dropped : Z) (vec : list iovec)
        (timestamp : option timespec) (v0 : iovec) :
  vec !! 0%nat = Some v0 -> 4 <= iov_len v0 ->
  let W := write_to_log o dropped LOG_ID_SECURITY vec timestamp in
  (alloc_fails o -> W = Some (mk_result (- ENOMEM) dropped []))
  /\ (~ alloc_fails o -> ~ approved o -> W = Some (mk_result (- EPERM) dropped []))
  /\ (~ alloc_fails o -> approved o ->
      check_log_uid_permissions o = 0
      /\ (android_log_security o = true ->
          W = Some (submit o dropped LOG_ID_SECURITY vec timestamp))
      /\ (android_log_security o = false ->
          W = Some (mk_result (- EPERM) dropped []))).
Proof.
  intros Hv0 Hlen W.
  assert (HW : W = let ret := check_log_uid_permissions o in
                   if ret <? 0 then Some (mk_result ret dropped [])
                   else if negb (android_log_security o)
                        then Some (mk_result (- EPERM) dropped [])
                        else Some (submit o dropped LOG_ID_SECURITY vec timestamp)).
  { unfold W, write_to_log. change (LOG_ID_SECURITY =? LOG_ID_KERNEL) with false.
    change (LOG_ID_SECURITY =? LOG_ID_SECURITY) with true. cbv iota.
    rewrite Hv0. destruct (Z.ltb_spec (iov_len v0) 4); [lia|reflexivity]. }
  rewrite HW. cbv zeta. clear HW W.
  destruct (check_log_uid_permissions_cases o) as (Hprim & Hoom & Hgrp & Hno).
  split; [|split].
  - intros Hf. rewrite (Hoom Hf). reflexivity.
  - intros Hnf Hna. rewrite (Hno Hnf Hna). reflexivity.
  - intros Hnf Happ.
    assert (Hz : check_log_uid_permissions o = 0)
      by (destruct Happ; [apply Hprim | apply Hgrp]; assumption).
    rewrite Hz. change (0 <? 0) with false. cbv iota.
    split; [reflexivity|]. split; intros ->; reflexivity.
Qed.

(** C5: on the events, stats and security partitions, a first iovec shorter
    than 4 bytes makes [write_to_log] return -EINVAL with nothing sent and
    the counter untouched; with a first iovec of at least 4 bytes the tag
    check passes: events and stats go on to [LogdWrite], security goes on
    to its permission check. *)
Theorem binary_event_needs_four_byte_tag
        (o : environment) (dropped log_id : Z) (vec : list iovec)
        (timestamp : option timespec) (v0 : iovec) :
  log_id = LOG_ID_EVENTS \/ log_id = LOG_ID_STATS \/ log_id = LOG_ID_SECURITY ->
  vec !! 0%nat = Some v0 ->
  (iov_len v0 < 4 ->
   write_to_log o dropped log_id vec timestamp
   = Some (mk_result (- EINVAL) dropped []))
  /\ (4 <= iov_len v0 ->
      write_to_log o dropped log_id vec timestamp
      = if log_id =? LOG_ID_SECURITY then
          if check_log_uid_permissions o <? 0
          then Some (mk_result (check_log_uid_permissions o) dropped [])
          else if negb (android_log_security o)
               then Some (mk_result (- EPERM) dropped [])
               else Some (submit o dropped log_id vec timestamp)
        else Some (submit o dropped log_id vec timestamp)).
Proof.
  intros Hid Hv0. unfold write_to_log.
  destruct Hid as [-> | [-> | ->]]; cbn [Z.eqb LOG_ID_EVENTS LOG_ID_STATS
    LOG_ID_SECURITY LOG_ID_KERNEL Pos.eqb orb]; rewrite Hv0;
    (split; intros Hlen;
     [ destruct (Z.ltb_spec (iov_len v0) 4); [reflexivity|lia]
     | destruct (Z.ltb_spec (iov_len v0) 4); [lia|reflexivity] ]).
Qed.

(** The binary writers of the library always pass a 4-byte tag first, so
    they never fail the tag check. *)
Lemma __android_log_bwrite_passes_tag_check (o : environment) (dropped tag : Z)
      (payload : list ascii) (len : Z) :
  __android_log_bwrite o dropped tag payload len
  = Some (submit o dropped LOG_ID_EVENTS
                 [mk_iovec (le32 tag) 4; mk_iovec payload len] None)
  /\ __android_log_stats_bwrite o dropped tag payload len
     = Some (submit o dropped LOG_ID_STATS
                    [mk_iovec (le32 tag) 4; mk_iovec payload len] None).
Proof. split; reflexivity. Qed.

Lemma open_stream_prints_lines (o : environment) (e : event) :
  In e (open_stream o).1 -> exists s q t msg, e = FilestreamLog s q t msg.
Proof.
  unfold open_stream. destruct (fopen_error o); cbn; [|tauto].
  intros [<-|[]]. unfold filestream_logger. eauto.
Qed.

Lemma log_to_file_prints_lines (o : environment) (m : __android_log_message)
      (printed : list event) :
  log_to_file_if_overridden o m = Some printed ->
  forall e, In e printed -> exists s q t msg, e = FilestreamLog s q t msg.
Proof.
  unfold log_to_file_if_overridden.
  destruct (file_logger_overridden o); cbn [negb]; [|discriminate].
  intros [= <-] e He. apply in_app_or in He. destruct He as [He|[<-|[]]].
  - destruct (stream o); [destruct He|]. exact (open_stream_prints_lines o e He).
  - unfold filestream_logger. eauto.
Qed.

Lemma log_to_file_not_overridden (o : environment) (m : __android_log_message) :
  file_logger_overridden o = false -> log_to_file_if_overridden o m = None.
Proof. unfold log_to_file_if_overridden. intros ->. reflexivity. Qed.

(** C4, as amended: [write_to_log] returns -EINVAL for the kernel partition;
    [__android_log_write_log_message] hands no message to the logger when
    its buffer id is not default, main, system, radio or crash, so that
    through the logd logger only records for main, system, radio or crash
    are submitted; but no payload is refused for its length on these
    partitions: [write_to_log] passes every array on to [LogdWrite], which
    sends an empty one as a bare header and cuts a long one at the cap. *)
Theorem unknown_partition_is_refused :
  (forall o dropped vec timestamp,
      write_to_log o dropped LOG_ID_KERNEL vec timestamp
      = Some (mk_result (- EINVAL) dropped []))
  /\ (forall logger default_tag m dropped,
         ~ In (buffer_id m) [LOG_ID_DEFAULT; LOG_ID_MAIN; LOG_ID_SYSTEM;
                             LOG_ID_RADIO; LOG_ID_CRASH] ->
         __android_log_write_log_message logger default_tag m dropped
         = Some (dropped, []))
  /\ (forall o default_tag m dropped dropped' evs id,
         __android_log_write_log_message (__android_log_logd_logger o)
                                         default_tag m dropped
         = Some (dropped', evs) ->
         In id (submitted_ids evs) ->
         In id [LOG_ID_MAIN; LOG_ID_SYSTEM; LOG_ID_RADIO; LOG_ID_CRASH])
  /\ (forall o dropped log_id vec timestamp,
         In log_id [LOG_ID_MAIN; LOG_ID_SYSTEM; LOG_ID_RADIO; LOG_ID_CRASH] ->
         write_to_log o dropped log_id vec timestamp
         = Some (submit o dropped log_id vec timestamp)).
Proof.
  split; [|split; [|split]].
  - intros. reflexivity.
  - intros logger default_tag m dropped Hid.
    unfold __android_log_write_log_message.
    destruct (Z.eqb_spec (buffer_id m) LOG_ID_DEFAULT) as [H|_];
      [exfalso; apply Hid; rewrite H; cbn; tauto|].
    destruct (Z.eqb_spec (buffer_id m) LOG_ID_MAIN) as [H|_];
      [exfalso; apply Hid; rewrite H; cbn; tauto|].
    destruct (Z.eqb_spec (buffer_id m) LOG_ID_SYSTEM) as [H|_];
      [exfalso; apply Hid; rewrite H; cbn; tauto|].
    destruct (Z.eqb_spec (buffer_id m) LOG_ID_RADIO) as [H|_];
      [exfalso; apply Hid; rewrite H; cbn; tauto|].
    destruct (Z.eqb_spec (buffer_id m) LOG_ID_CRASH) as [H|_];
      [exfalso; apply Hid; rewrite H; cbn; tauto|].
    reflexivity.
  - intros o default_tag m dropped dropped' evs id Hrun Hin.
    apply submitted_ids_in in Hin. destruct Hin as (sock & h & p & r & Hev & ->).
    revert Hrun. unfold __android_log_write_log_message.
    set (m' := match tag m with
               | Some _ => m
               | None => mk_message (struct_size m) (buffer_id m) (priority m)
                                    (Some default_tag) (file m) (line m) (message m)
               end).
    assert (Hb : buffer_id m' = buffer_id m) by (unfold m'; destruct (tag m); reflexivity).
    assert (Hknown : negb (buffer_id m =? LOG_ID_DEFAULT)
                     && negb (buffer_id m =? LOG_ID_MAIN)
                     && negb (buffer_id m =? LOG_ID_SYSTEM)
                     && negb (buffer_id m =? LOG_ID_RADIO)
                     && negb (buffer_id m =? LOG_ID_CRASH) = false ->
                     In (if buffer_id m =? LOG_ID_DEFAULT then LOG_ID_MAIN
                         else buffer_id m)
                        [LOG_ID_MAIN; LOG_ID_SYSTEM; LOG_ID_RADIO; LOG_ID_CRASH]).
    { destruct (Z.eqb_spec (buffer_id m) LOG_ID_DEFAULT); [cbn; tauto|].
      destruct (Z.eqb_spec (buffer_id m) LOG_ID_MAIN) as [->|]; [cbn; tauto|].
      destruct (Z.eqb_spec (buffer_id m) LOG_ID_SYSTEM) as [->|]; [cbn; tauto|].
      destruct (Z.eqb_spec (buffer_id m) LOG_ID_RADIO) as [->|]; [cbn; tauto|].
      destruct (Z.eqb_spec (buffer_id m) LOG_ID_CRASH) as [->|]; [cbn; tauto|].
      discriminate. }
    destruct (negb (buffer_id m =? LOG_ID_DEFAULT) && _ && _ && _ && _) eqn:Hguard.
    + intros [= <- <-]. destruct Hev.
    + specialize (Hknown eq_refl).
      unfold __android_log_logd_logger, __android_log_logd_logger_with_timestamp.
      rewrite Hb.
      set (id := if buffer_id m =? LOG_ID_DEFAULT then LOG_ID_MAIN else buffer_id m) in *.
      assert (Habort : forall l : list event,
                 In (Writev sock (log_record h p) r)
                    ((if priority m' =? ANDROID_LOG_FATAL
                      then [SetAbortMessage (message m')] else []) ++ l) ->
                 In (Writev sock (log_record h p) r) l).
      { intros l Hl. apply in_app_or in Hl. destruct Hl as [Hl|Hl]; [|exact Hl].
        destruct (priority m' =? ANDROID_LOG_FATAL); cbn in Hl; [|contradiction].
        destruct Hl as [Hl|[]]. discriminate. }
      destruct (log_to_file_if_overridden o m') as [printed|] eqn:Hfile.
      * intros [= <- <-]. apply Habort in Hev.
        destruct (log_to_file_prints_lines _ _ _ Hfile _ Hev)
          as (s & q & t & msg & Hline). discriminate.
      * destruct (tag m') as [t|]; [|discriminate].
        rewrite write_to_log_text.
        2:{ intros Hbad. cbn in Hknown, Hbad.
            destruct Hknown as [H|[H|[H|[H|[]]]]]; rewrite <- H in Hbad;
              destruct Hbad as [Hbad|[Hbad|[Hbad|[Hbad|[]]]]]; discriminate. }
        intros [= <- <-]. apply Habort in Hev.
        unfold submit in Hev. cbn [events] in Hev.
        apply in_app_or in Hev. destruct Hev as [Hev|Hev];
          [|cbn in Hev; destruct Hev as [Hev|[]]; discriminate].
        apply LogdWrite_events in Hev. cbv zeta in Hev.
        destruct Hev as [Hev|[Hev|[r' Hev]]]; try discriminate.
        injection Hev as _ -> _ _. cbn [make_header hdr_id].
        cbn in Hknown. destruct Hknown as [H|[H|[H|[H|[]]]]]; rewrite <- H;
          cbn; tauto.
  - intros o dropped log_id vec timestamp Hid. apply write_to_log_text.
    intros Hbad. cbn in Hid, Hbad.
    destruct Hid as [H|[H|[H|[H|[]]]]]; rewrite <- H in Hbad;
      destruct Hbad as [Hbad|[Hbad|[Hbad|[Hbad|[]]]]]; discriminate.
Qed.

End LoggerWriteProps.

(** ** [write_to_log] on the example inputs, with the AOSP constants *)
Section LoggerWriteExamples.
Import LogdWriter LoggerWrite Examples.
Existing Instance aosp.

Lemma app_env_not_approved (w : sysret) : ~ approved (app_env w).
Proof.
  intros [[H|[H|[H|H]]]|(g & Hin & Hg)].
  1-4: destruct H as [H|[H|H]]; discriminate H.
  cbn in Hin. destruct Hin as [<-|[<-|[<-|[]]]]; destruct Hg; discriminate.
Qed.

Lemma writer_env_approved (calloc : bool) (w : sysret) :
  approved (LoggerWrite.mk_environment (app true w) 10123 10123 10123
                                       [3003; 1091] calloc true ts0 false
                                       EmptyString None None).
Proof.
  right. exists 1091. split; [cbn; tauto | right; reflexivity].
Qed.

(** C1, the claim as worded fails twice: a caller outside the approved set
    whose first iovec has 3 bytes is refused with -EINVAL, not -EPERM; and
    a caller approved by its supplementary group, with security logging
    enabled, is refused with -ENOMEM when the group array cannot be
    allocated. *)
Lemma security_write_refused_for_other_reasons :
  (~ approved (app_env (SysOk 0))
   /\ write_to_log (app_env (SysOk 0)) 0 LOG_ID_SECURITY [bytes 3] None
      = Some (mk_result (- EINVAL) 0 [])
   /\ - EINVAL <> - EPERM)
  /\ (approved (writer_env_oom (SysOk 0))
      /\ android_log_security (writer_env_oom (SysOk 0)) = true
      /\ check_log_uid_permissions (writer_env_oom (SysOk 0)) = - ENOMEM
      /\ write_to_log (writer_env_oom (SysOk 0)) 0 LOG_ID_SECURITY
                      [bytes 4; bytes 10] None
         = Some (mk_result (- ENOMEM) 0 [])).
Proof.
  split.
  - split; [apply app_env_not_approved|]. split; [reflexivity|discriminate].
  - split; [apply writer_env_approved|]. repeat split; reflexivity.
Qed.

Lemma security_write_needs_approved_principal_witness :
  [bytes 4; bytes 10] !! 0%nat = Some (bytes 4)
  /\ 4 <= iov_len (bytes 4)
  /\ (~ approved (app_env (SysOk 0))
      /\ write_to_log (app_env (SysOk 0)) 0 LOG_ID_SECURITY [bytes 4; bytes 10] None
         = Some (mk_result (- EPERM) 0 []))
  /\ (approved (writer_env (SysOk 25))
      /\ write_to_log (writer_env (SysOk 25)) 0 LOG_ID_SECURITY [bytes 4; bytes 10] None
         = Some (submit (writer_env (SysOk 25)) 0 LOG_ID_SECURITY
                        [bytes 4; bytes 10] None)).
Proof.
  assert (H0 : [bytes 4; bytes 10] !! 0%nat = Some (bytes 4)) by reflexivity.
  assert (H1 : 4 <= iov_len (bytes 4)) by (vm_compute; discriminate).
  split; [exact H0|]. split; [exact H1|]. split; split.
  - apply app_env_not_approved.
  - refine (proj1 (proj2 (security_write_needs_approved_principal
                            (app_env (SysOk 0)) 0 [bytes 4; bytes 10] None
                            (bytes 4) H0 H1)) _ _).
    + intros (_ & _ & Hc). discriminate Hc.
    + apply app_env_not_approved.
  - apply writer_env_approved.
  - refine (proj1 (proj2 (proj2 (proj2 (security_write_needs_approved_principal
                            (writer_env (SysOk 25)) 0 [bytes 4; bytes 10] None
                            (bytes 4) H0 H1)) _ _)) _).
    + intros (_ & _ & Hc). discriminate Hc.
    + apply writer_env_approved.
    + reflexivity.
Defined.

Lemma binary_event_needs_four_byte_tag_witness :
  (LOG_ID_EVENTS = LOG_ID_EVENTS \/ LOG_ID_EVENTS = LOG_ID_STATS
   \/ LOG_ID_EVENTS = LOG_ID_SECURITY)
  /\ [bytes 3; bytes 10] !! 0%nat = Some (bytes 3)
  /\ iov_len (bytes 3) < 4
  /\ write_to_log (app_env (SysOk 24)) 7 LOG_ID_EVENTS [bytes 3; bytes 10] None
     = Some (mk_result (- EINVAL) 7 []).
Proof.
  assert (H0 : LOG_ID_EVENTS = LOG_ID_EVENTS \/ LOG_ID_EVENTS = LOG_ID_STATS
               \/ LOG_ID_EVENTS = LOG_ID_SECURITY) by (left; reflexivity).
  assert (H1 : [bytes 3; bytes 10] !! 0%nat = Some (bytes 3)) by reflexivity.
  assert (H2 : iov_len (bytes 3) < 4) by reflexivity.
  repeat (split; [assumption|]).
  exact (proj1 (binary_event_needs_four_byte_tag (app_env (SysOk 24)) 7
                  LOG_ID_EVENTS [bytes 3; bytes 10] None (bytes 3) H0 H1) H2).
Defined.

(** C4, the claim as worded fails on its last clause: a text record of
    5000 bytes is not refused but sent cut to the 4068 of the cap, and
    returns 4068; a record with no payload at all is sent as a bare
    header, and returns 11. *)
Lemma long_and_empty_payloads_are_written :
  (exists r, write_to_log (app_env (SysOk 4079)) 0 LOG_ID_MAIN [bytes 5000] None
             = Some r
             /\ LOGGER_ENTRY_MAX_PAYLOAD < total_len [bytes 5000]
             /\ ret r = 4068 /\ ret r <> - EINVAL
             /\ exists sock h, In (Writev sock (log_record h [bytes 4068]) (SysOk 4079))
                                  (events r))
  /\ (exists r, write_to_log (app_env (SysOk 11)) 0 LOG_ID_MAIN [] None = Some r
                /\ total_len [] = 0
                /\ ret r = 11 /\ ret r <> - EINVAL
                /\ exists sock h, In (Writev sock (log_record h []) (SysOk 11))
                                     (events r)).
Proof.
  split; eexists; (split; [reflexivity|]); (split; [reflexivity|]);
    (split; [reflexivity|]); (split; [discriminate|]);
    eexists _, _; left; reflexivity.
Qed.

Lemma unknown_partition_is_refused_witness :
  ~ In (buffer_id (hello LOG_ID_EVENTS))
       [LOG_ID_DEFAULT; LOG_ID_MAIN; LOG_ID_SYSTEM; LOG_ID_RADIO; LOG_ID_CRASH]
  /\ __android_log_write_log_message
       (__android_log_logd_logger (app_env (SysOk 20))) "prog" (hello LOG_ID_EVENTS) 0
     = Some (0, [])
  /\ In LOG_ID_MAIN [LOG_ID_MAIN; LOG_ID_SYSTEM; LOG_ID_RADIO; LOG_ID_CRASH]
  /\ write_to_log (app_env (SysOk 20)) 0 LOG_ID_MAIN [bytes 9] None
     = Some (submit (app_env (SysOk 20)) 0 LOG_ID_MAIN [bytes 9] None).
Proof.
  assert (H0 : ~ In (buffer_id (hello LOG_ID_EVENTS))
                    [LOG_ID_DEFAULT; LOG_ID_MAIN; LOG_ID_SYSTEM; LOG_ID_RADIO;
                     LOG_ID_CRASH]).
  { cbn. intros [H|[H|[H|[H|[H|[]]]]]]; discriminate H. }
  assert (H1 : In LOG_ID_MAIN [LOG_ID_MAIN; LOG_ID_SYSTEM; LOG_ID_RADIO; LOG_ID_CRASH])
    by (left; reflexivity).
  destruct unknown_partition_is_refused as (_ & Hrefuse & _ & Htext).
  split; [exact H0|]. split; [apply Hrefuse; exact H0|].
  split; [exact H1|]. apply Htext. exact H1.
Defined.

End LoggerWriteExamples.

(** ** logd --reinit *)
Section ReinitProps.
Import LogdMain.

Lemma ascii_code_inj (a b : ascii) : N_of_ascii a = N_of_ascii b -> a = b.
Proof.
  intros H. rewrite <- (ascii_N_embedding a), <- (ascii_N_embedding b), H.
  reflexivity.
Qed.

(** [strncmp] is 0 exactly when the first [n] characters agree, for a
    second string that has [n] characters before any NUL. *)
Lemma strncmp_zero (n : nat) :
  forall s1 s2 : list ascii,
    (n <= length s2)%nat -> ~ In NUL (take n s2) ->
    strncmp s1 s2 n = 0 <-> take n s1 = take n s2.
Proof.
  induction n as [|n IH]; intros s1 s2 Hlen Hnul.
  - cbn. tauto.
  - destruct s2 as [|c2 s2]; [cbn in Hlen; lia|].
    cbn [strncmp hd tl]. cbn [take] in Hnul.
    assert (Hc2 : c2 <> NUL) by (intros ->; apply Hnul; left; reflexivity).
    assert (Hrest : ~ In NUL (take n s2)) by (intros Hin; apply Hnul; right; exact Hin).
    cbn [length] in Hlen.
    destruct s1 as [|c1 s1]; cbn [hd tl take].
    + destruct (Ascii.eqb_spec NUL c2) as [Heq|Hne]; [congruence|]. cbn [negb].
      split; [|discriminate]. intros Hd. exfalso. apply Hne, ascii_code_inj. lia.
    + destruct (Ascii.eqb_spec c1 c2) as [->|Hne]; cbn [negb].
      * destruct (Ascii.eqb_spec c2 NUL) as [Heq|_]; [contradiction|].
        rewrite IH by (auto; lia). split; [intros ->; reflexivity|].
        intros [= Ht]. exact Ht.
      * split; [|intros [= Ht _]; contradiction].
        intros Hd. exfalso. apply Hne, ascii_code_inj. lia.
Qed.

Lemma fill_buffer_success (bytes : list ascii) :
  take 7 (fill_buffer 7 bytes) = list_ascii_of_string "success"
  <-> take 7 bytes = list_ascii_of_string "success".
Proof.
  unfold fill_buffer.
  destruct bytes as [|b1 [|b2 [|b3 [|b4 [|b5 [|b6 [|b7 rest]]]]]]];
    cbn; split; intros H; try discriminate H; exact H.
Qed.

Lemma issueReinit_status (o : oracle) :
  fst (issueReinit o) = 0 <-> reply_is_success o.
Proof.
  unfold issueReinit, reply_is_success. cbv zeta.
  destruct (socket_local_client o) as [fd|e1]; cbn [sys_ret sys_errno].
  2:{ cbn. split; [discriminate|]. intros (? & ? & ? & ? & H & _). discriminate H. }
  destruct (Z.ltb_spec (Z.of_N fd) 0) as [Hfd|_]; [lia|].
  destruct (write_result o) as [n|e2]; cbn [sys_ret sys_errno].
  2:{ cbn. split; [discriminate|]. intros (? & ? & ? & ? & _ & H & _). discriminate H. }
  destruct (Z.ltb_spec (Z.of_N n) 0) as [Hn|_]; [lia|].
  destruct (poll_result o) as [k|e3]; cbn [sys_ret sys_errno].
  2:{ cbn. split; [discriminate|].
      intros (? & ? & ? & ? & _ & _ & H & _). discriminate H. }
  destruct (Z.ltb_spec (Z.of_N k) 0) as [Hk0|_]; [lia|].
  destruct (Z.eqb_spec (Z.of_N k) 0) as [Hk|Hk]; cbn [orb].
  { cbn. split; [discriminate|].
    intros (? & ? & k' & ? & _ & _ & [= <-] & Hk' & _). lia. }
  destruct (Z.eqb_spec (Z.land (poll_revents o) POLLIN) 0) as [Hp|Hp].
  { cbn. split; [discriminate|].
    intros (? & ? & ? & ? & _ & _ & _ & _ & Hp' & _). contradiction. }
  destruct (read_result o) as [bytes|e4].
  2:{ cbn. split; [discriminate|].
      intros (? & ? & ? & ? & _ & _ & _ & _ & _ & H & _). discriminate H. }
  cbn [fst].
  assert (Hcmp : strncmp (fill_buffer (length success - 1) bytes) success
                         (length success - 1) = 0
                 <-> take 7 bytes = list_ascii_of_string "success").
  { change (length success - 1)%nat with 7%nat.
    rewrite (strncmp_zero 7); [apply fill_buffer_success | cbn; lia |].
    cbn. intros [H|[H|[H|[H|[H|[H|[H|[]]]]]]]]; discriminate H. }
  destruct (Z.eqb_spec (strncmp (fill_buffer (length success - 1) bytes) success
                                (length success - 1)) 0) as [Hz|Hnz]; cbn [negb].
  - split; [intros _|reflexivity].
    exists fd, n, k, bytes. repeat split; try reflexivity; try assumption.
    + intros ->. apply Hk. reflexivity.
    + apply Hcmp, Hz.
  - split; [discriminate|].
    intros (? & ? & ? & bytes' & _ & _ & _ & _ & _ & [= <-] & Hs).
    exfalso. apply Hnz, Hcmp, Hs.
Qed.

Lemma issueReinit_status_range (o : oracle) :
  errnos_fit_byte o -> -256 < fst (issueReinit o) < 256.
Proof.
  unfold errnos_fit_byte, issueReinit. cbv zeta. intros (H1 & H2 & H3 & H4).
  destruct (socket_local_client o) as [fd|e1]; cbn [sys_ret sys_errno] in *.
  2:{ cbn. lia. }
  destruct (Z.ltb_spec (Z.of_N fd) 0) as [Hfd|_]; [lia|].
  destruct (write_result o) as [n|e2]; cbn [sys_ret sys_errno] in *.
  2:{ cbn. lia. }
  destruct (Z.ltb_spec (Z.of_N n) 0) as [Hn|_]; [lia|].
  destruct (poll_result o) as [k|e3]; cbn [sys_ret sys_errno] in *.
  2:{ cbn. lia. }
  destruct (Z.ltb_spec (Z.of_N k) 0) as [Hk0|_]; [lia|].
  destruct ((Z.of_N k =? 0) || (Z.land (poll_revents o) POLLIN =? 0));
    [cbn; unfold ETIME; lia|].
  destruct (read_result o) as [bytes|e4]; cbn [fst]; [|lia].
  destruct (negb _); lia.
Qed.

Lemma exit_status_zero (returned : Z) :
  -256 < returned < 256 -> exit_status returned = 0 <-> returned = 0.
Proof.
  unfold exit_status. intros Hr. split; [|intros ->; reflexivity].
  intros Hm. pose proof (Z.div_mod returned 256 ltac:(lia)) as Hd.
  rewrite Hm in Hd.
  assert (returned / 256 = 0 \/ returned / 256 = -1 \/ returned / 256 <= -2
          \/ 1 <= returned / 256) as [H|[H|[H|H]]] by lia; lia.
Qed.

(** The calls [issueReinit] makes, in their order. *)
Lemma issueReinit_events (o : oracle) :
  snd (issueReinit o)
  = Connect "logd"
    :: match socket_local_client o with
       | SysErr _ => []
       | SysOk fd =>
           Write (Z.of_N fd) reinitStr
           :: match write_result o with
              | SysErr _ => []
              | SysOk _ =>
                  Poll (Z.of_N fd) POLLIN 1000
                  :: match poll_result o with
                     | SysErr _ => []
                     | SysOk k =>
                         if (Z.of_N k =? 0)
                            || (Z.land (poll_revents o) POLLIN =? 0)
                         then [] else [Read (Z.of_N fd) 7]
                     end
              end
       end.
Proof.
  unfold issueReinit. cbv zeta.
  destruct (socket_local_client o) as [fd|e1]; cbn [sys_ret sys_errno];
    [|reflexivity].
  destruct (Z.ltb_spec (Z.of_N fd) 0) as [Hfd|_]; [lia|].
  destruct (write_result o) as [n|e2]; cbn [sys_ret sys_errno]; [|reflexivity].
  destruct (Z.ltb_spec (Z.of_N n) 0) as [Hn|_]; [lia|].
  destruct (poll_result o) as [k|e3]; cbn [sys_ret sys_errno]; [|reflexivity].
  destruct (Z.ltb_spec (Z.of_N k) 0) as [Hk0|_]; [lia|].
  destruct ((Z.of_N k =? 0) || (Z.land (poll_revents o) POLLIN =? 0));
    [reflexivity|].
  destruct (read_result o); reflexivity.
Qed.

(** What [issueReinit] returns when a call fails or [poll] times out. *)
Lemma issueReinit_failures (o : oracle) :
  (forall e, socket_local_client o = SysErr e ->
             fst (issueReinit o) = - Z.pos e)
  /\ (forall fd e, socket_local_client o = SysOk fd ->
                   write_result o = SysErr e ->
                   fst (issueReinit o) = - Z.pos e)
  /\ (forall fd n, socket_local_client o = SysOk fd ->
                   write_result o = SysOk n ->
                   poll_result o = SysOk 0 ->
                   fst (issueReinit o) = - ETIME).
Proof.
  unfold issueReinit. cbv zeta. repeat split.
  - intros e ->. reflexivity.
  - intros fd e -> ->. cbn [sys_ret sys_errno].
    destruct (Z.ltb_spec (Z.of_N fd) 0) as [Hfd|_]; [lia|]. reflexivity.
  - intros fd n -> -> ->. cbn [sys_ret sys_errno].
    destruct (Z.ltb_spec (Z.of_N fd) 0) as [Hfd|_]; [lia|].
    destruct (Z.ltb_spec (Z.of_N n) 0) as [Hn|_]; [lia|]. reflexivity.
Qed.

(** C6: [logd --reinit] runs [issueReinit] and returns its value.  That
    value is 0 exactly when the connection was made, the command written,
    the socket became readable within the 1000 ms given to [poll], and the
    bytes read begin with "success"; in every other case (connection, write,
    poll or read failure, timeout, another reply) it is not 0, and neither
    is the exit status, its low 8 bits, for errnos below 256.  The calls
    are, in this order: the connection to the socket "logd"; once
    connected, one write of the seven bytes r, e, i, n, i, t, NUL; once
    written, one [poll] of the socket for input with a timeout of 1000 ms;
    and after it at most one read of seven bytes.  Nothing is written when
    the connection fails, and nothing is polled when the write fails. *)
Theorem reinit_returns_zero_iff_success_reply (o : oracle) (prog : string) :
  exists status evs,
    main o [prog; "--reinit"%string] = Returned status evs
    /\ (status = 0 <-> reply_is_success o)
    /\ (errnos_fit_byte o -> exit_status status = 0 <-> reply_is_success o)
    /\ (forall fd, socket_local_client o = SysOk fd ->
          exists rest,
            evs = Connect "logd"
                  :: Write (Z.of_N fd)
                           ["r"; "e"; "i"; "n"; "i"; "t"; "000"]%char
                  :: rest)
    /\ (forall fd n, socket_local_client o = SysOk fd ->
                     write_result o = SysOk n ->
          exists rest,
            evs = [Connect "logd";
                   Write (Z.of_N fd) ["r"; "e"; "i"; "n"; "i"; "t"; "000"]%char;
                   Poll (Z.of_N fd) 1 1000] ++ rest
            /\ (rest = [] \/ rest = [Read (Z.of_N fd) 7]))
    /\ (forall fd ev t, In (Poll fd ev t) evs -> t = 1000)
    /\ (forall e, socket_local_client o = SysErr e ->
                  status = - Z.pos e /\ evs = [Connect "logd"])
    /\ (forall fd e, socket_local_client o = SysOk fd ->
                     write_result o = SysErr e ->
                     status = - Z.pos e
                     /\ evs = [Connect "logd";
                               Write (Z.of_N fd)
                                     ["r"; "e"; "i"; "n"; "i"; "t"; "000"]%char])
    /\ (forall fd n, socket_local_client o = SysOk fd ->
                     write_result o = SysOk n ->
                     poll_result o = SysOk 0 -> status = - ETIME).
Proof.
  unfold main. cbn [length Z.of_nat Pos.of_succ_nat Pos.succ Z.ltb Z.compare
                    Pos.compare Pos.compare_cont andb lookup list_lookup].
  rewrite String.eqb_refl.
  pose proof (issueReinit_status o) as Hst.
  pose proof (issueReinit_status_range o) as Hrange.
  pose proof (issueReinit_events o) as Hevs.
  pose proof (issueReinit_failures o) as (Hf1 & Hf2 & Hf3).
  destruct (issueReinit o) as [status evs] eqn:Hrun.
  cbn [fst snd] in Hst, Hrange, Hevs, Hf1, Hf2, Hf3.
  exists status, evs. split; [reflexivity|]. split; [exact Hst|].
  split; [intros Hfit; rewrite (exit_status_zero status (Hrange Hfit)); exact Hst|].
  change reinitStr with ["r"; "e"; "i"; "n"; "i"; "t"; "000"]%char in Hevs.
  change POLLIN with 1 in Hevs.
  split; [|split; [|split; [|split; [|split; [|exact Hf3]]]]].
  - intros fd Hfd. rewrite Hfd in Hevs. eexists. exact Hevs.
  - intros fd n Hfd Hn. rewrite Hfd, Hn in Hevs. eexists. split; [exact Hevs|].
    destruct (poll_result o) as [k|e3]; [|left; reflexivity].
    destruct ((Z.of_N k =? 0) || _); [left|right]; reflexivity.
  - intros fd ev t Hin. rewrite Hevs in Hin.
    destruct Hin as [H|Hin]; [discriminate H|].
    destruct (socket_local_client o) as [fd'|e1]; [|destruct Hin].
    destruct Hin as [H|Hin]; [discriminate H|].
    destruct (write_result o) as [n|e2]; [|destruct Hin].
    destruct Hin as [H|Hin]; [injection H as _ _ <-; reflexivity|].
    destruct (poll_result o) as [k|e3]; [|destruct Hin].
    destruct ((Z.of_N k =? 0) || _); [destruct Hin|].
    destruct Hin as [H|[]]. discriminate H.
  - intros e He. split; [exact (Hf1 e He)|]. rewrite He in Hevs. exact Hevs.
  - intros fd e Hfd He. split; [exact (Hf2 fd e Hfd He)|].
    rewrite Hfd, He in Hevs. exact Hevs.
Qed.

End ReinitProps.

(** ** [LogAudit::log] *)
Section LogAuditProps.
Import LogAudit.

Lemma starts_with_first (c : ascii) (needle mem : list ascii) :
  starts_with (c :: needle) mem = true -> mem !! 0%nat = Some c.
Proof.
  destruct mem as [|x mem]; cbn; [discriminate|].
  destruct (Ascii.eqb x NUL); [discriminate|].
  destruct (Ascii.eqb_spec c x) as [->|]; [reflexivity|discriminate].
Qed.

(** Where [strstr] finds the needle, the buffer holds its first
    character. *)
Lemma strstr_first (c : ascii) (needle : list ascii) :
  forall (buf : list ascii) (i : nat),
    strstr buf (c :: needle) = Some i -> buf !! i = Some c.
Proof.
  induction buf as [|x buf IH]; intros i.
  - cbn. discriminate.
  - cbn [strstr].
    destruct (starts_with (c :: needle) (x :: buf)) eqn:Hs.
    + intros [= <-]. exact (starts_with_first _ _ _ Hs).
    + destruct (Ascii.eqb x NUL); [discriminate|].
      destruct (strstr buf (c :: needle)) as [j|] eqn:Hj; [|discriminate].
      intros [= <-]. cbn. apply IH. reflexivity.
Qed.

(** [strstr] returns the first offset of the C string at which the needle
    starts: the needle starts there, it starts at no earlier offset, and
    no NUL comes before. *)
Lemma strstr_is_first_occurrence (needle : list ascii) :
  forall (buf : list ascii) (i : nat),
    strstr buf needle = Some i ->
    starts_with needle (drop i buf) = true
    /\ (forall j, (j < i)%nat -> starts_with needle (drop j buf) = false)
    /\ ~ In NUL (take i buf).
Proof.
  induction buf as [|x buf IH]; intros i.
  - cbn [strstr]. destruct (starts_with needle []) eqn:Hs; [|discriminate].
    intros [= <-]. repeat split; [exact Hs | intros j Hj; lia | intros []].
  - cbn [strstr]. destruct (starts_with needle (x :: buf)) eqn:Hs.
    + intros [= <-]. repeat split; [exact Hs | intros j Hj; lia | intros []].
    + destruct (Ascii.eqb_spec x NUL) as [|Hx]; [discriminate|].
      destruct (strstr buf needle) as [k|] eqn:Hk; [|discriminate].
      intros [= <-]. destruct (IH k eq_refl) as (Hat & Hbefore & Hnul).
      repeat split.
      * exact Hat.
      * intros [|j] Hj; [exact Hs|]. apply Hbefore. lia.
      * cbn. intros [Hin|Hin]; [congruence|contradiction].
Qed.

(** C10, as amended: [log] leaves the buffer as it found it (the NUL put
    on the marker's space is replaced by a space before returning); it
    returns 0 and calls [logPrint] not at all when [strstr] finds no
    " audit(" in the C string at [buf], or finds the first one at an offset
    that is not below [len]; and when the first marker starts below [len] it
    calls [logPrint] once and returns its value. *)
Theorem log_restores_buffer_and_skips_lines_without_marker
        (logPrint : list ascii -> Z) (buf : list ascii) (len : Z) :
  let R := log logPrint buf len in
  buf_after R = buf
  /\ (strstr buf audit_marker = None
      \/ (exists a, strstr buf audit_marker = Some a /\ len <= Z.of_nat a) ->
      rc R = 0 /\ printed R = [])
  /\ (forall a, strstr buf audit_marker = Some a -> Z.of_nat a < len ->
                exists text, printed R = [text] /\ rc R = logPrint text).
Proof.
  unfold log. cbv zeta.
  destruct (strstr buf audit_marker) as [audit|] eqn:Hfind.
  - pose proof (strstr_first _ _ _ _ Hfind) as Hsp.
    destruct (Z.leb_spec len (Z.of_nat audit)) as [Hout|Hin]; cbn [buf_after rc printed].
    + split; [reflexivity|]. split; [tauto|]. intros a [= <-] Ha. lia.
    + split; [|split].
      * rewrite list_insert_insert_eq. apply list_insert_id. exact Hsp.
      * intros [Hnone|(a & [= <-] & Ha)]; [discriminate|lia].
      * intros a _ _. eexists. split; reflexivity.
  - cbn [buf_after rc printed]. split; [reflexivity|]. split; [tauto|].
    intros a Ha. discriminate Ha.
Qed.

End LogAuditProps.

(** ** [LogAudit::log] and --reinit on the example inputs *)
Section LogdExamples.
Import Examples.

(** C10, the claim as worded fails on its second part: in "a audit(" with
    [len] = 2 the marker does not lie within the first 2 bytes (it starts
    at offset 1 and is 7 bytes long), yet the line is logged, because the
    test compares the start of the marker with [len]. *)
Lemma log_prints_marker_that_starts_before_len :
  ~ LogAudit.contains_within LogAudit.audit_marker cut_line 2
  /\ LogAudit.printed (LogAudit.log (fun _ => 42) cut_line 2)
     = [list_ascii_of_string "audit("]
  /\ LogAudit.rc (LogAudit.log (fun _ => 42) cut_line 2) = 42.
Proof.
  split; [|split; reflexivity].
  intros (i & _ & Hi). cbn in Hi. lia.
Qed.

Lemma log_restores_buffer_and_skips_lines_without_marker_witness :
  LogAudit.strstr (list_ascii_of_string "<6>[ 1.0] init: starting") LogAudit.audit_marker
  = None
  /\ LogAudit.rc (LogAudit.log (fun _ => 42)
                    (list_ascii_of_string "<6>[ 1.0] init: starting") 24) = 0
  /\ LogAudit.printed (LogAudit.log (fun _ => 42)
                         (list_ascii_of_string "<6>[ 1.0] init: starting") 24) = []
  /\ LogAudit.strstr audit_line LogAudit.audit_marker = Some 21%nat
  /\ 21 < 48
  /\ LogAudit.buf_after (LogAudit.log (fun _ => 42) audit_line 48) = audit_line
  /\ exists text, LogAudit.printed (LogAudit.log (fun _ => 42) audit_line 48) = [text].
Proof.
  assert (H0 : LogAudit.strstr (list_ascii_of_string "<6>[ 1.0] init: starting")
                               LogAudit.audit_marker = None) by reflexivity.
  assert (H1 : LogAudit.strstr audit_line LogAudit.audit_marker = Some 21%nat)
    by reflexivity.
  assert (H2 : 21 < 48) by reflexivity.
  destruct (log_restores_buffer_and_skips_lines_without_marker
              (fun _ => 42) (list_ascii_of_string "<6>[ 1.0] init: starting") 24)
    as (_ & Hskip & _).
  destruct (Hskip (or_introl H0)) as [Hrc Hpr].
  destruct (log_restores_buffer_and_skips_lines_without_marker
              (fun _ => 42) audit_line 48) as (Hframe & _ & Hlog).
  destruct (Hlog 21%nat H1 H2) as (text & Htext & _).
  repeat (split; [assumption|]). exists text. exact Htext.
Defined.

Lemma reply_success_is_success : LogdMain.reply_is_success (reinit_reply "success").
Proof.
  exists 5%N, 7%N, 1%N, (list_ascii_of_string "success").
  repeat split; try reflexivity; discriminate.
Qed.

Lemma reinit_returns_zero_iff_success_reply_witness :
  LogdMain.reply_is_success (reinit_reply "success")
  /\ exists evs,
      LogdMain.main (reinit_reply "success") ["logd"; "--reinit"]%string
      = LogdMain.Returned 0 evs
      /\ exists rest,
          evs = [LogdMain.Connect "logd";
                 LogdMain.Write 5 ["r"; "e"; "i"; "n"; "i"; "t"; "000"]%char;
                 LogdMain.Poll 5 1 1000] ++ rest.
Proof.
  split; [exact reply_success_is_success|].
  destruct (reinit_returns_zero_iff_success_reply (reinit_reply "success") "logd")
    as (status & evs & Hrun & Hiff & _ & _ & Hsend & _).
  exists evs. rewrite Hrun.
  rewrite (proj2 Hiff reply_success_is_success).
  split; [reflexivity|].
  destruct (Hsend 5%N 7%N eq_refl eq_refl) as (rest & Hevs & _).
  exists rest. exact Hevs.
Defined.

(** --reinit answered "success", and answered "Invalid". *)
Example reinit_success :
  LogdMain.main (reinit_reply "success") ["logd"; "--reinit"]%string
  = LogdMain.Returned 0
      [LogdMain.Connect "logd"; LogdMain.Write 5 LogdMain.reinitStr;
       LogdMain.Poll 5 1 1000; LogdMain.Read 5 7].
Proof. reflexivity. Qed.

Example reinit_invalid :
  LogdMain.main (reinit_reply "Invalid") ["logd"; "--reinit"]%string
  = LogdMain.Returned 1
      [LogdMain.Connect "logd"; LogdMain.Write 5 LogdMain.reinitStr;
       LogdMain.Poll 5 1 1000; LogdMain.Read 5 7].
Proof. reflexivity. Qed.

End LogdExamples.

(** ** The logpersist script *)
Section LogpersistProps.
Import Logpersist.
Local Open Scope string_scope.

(** Arguments the loop has gone through without stopping can be followed
    by more: the loop goes on with the variables as they are then. *)
Lemma parse_args_app (n : nat) :
  forall (pre : list string) (size buffer : string) (clear : bool)
         (s b : string) (c : bool) (post : list string),
    (length pre <= n)%nat ->
    parse_args pre size buffer clear = Parsed s b c ->
    parse_args (pre ++ post) size buffer clear = parse_args post s b c.
Proof.
  induction n as [|n IH]; intros [|a rest] size buffer clear s b c post Hlen.
  - intros [= <- <- <-]. reflexivity.
  - cbn in Hlen. lia.
  - intros [= <- <- <-]. reflexivity.
  - cbn [length] in Hlen. cbn [app parse_args].
    destruct (one_of a ["-c"; "--clear"]); [apply IH; lia|].
    destruct (strip_prefix "--size=" a); [apply IH; lia|].
    destruct (strip_prefix "--rotate-count=" a); [apply IH; lia|].
    destruct (one_of a ["-n"; "--size"; "--rotate-count"]).
    { destruct rest as [|v rest']; [discriminate|]. cbn [app length] in *.
      apply IH. lia. }
    destruct (strip_prefix "--buffer=" a); [apply IH; lia|].
    destruct (one_of a ["-b"; "--buffer"]).
    { destruct rest as [|v rest']; [discriminate|]. cbn [app length] in *.
      apply IH. lia. }
    destruct (one_of a ["-h"; "--help"]); discriminate.
Qed.

Lemma parse_args_unrecognized (a : string) (rest : list string)
      (size buffer : string) (clear : bool) :
  recognized a = false ->
  parse_args (a :: rest) size buffer clear
  = Stopped (Exit 1 [Usage; BadArgument (a :: rest)]).
Proof.
  unfold recognized, has_prefix, one_of. cbn [existsb]. intros H.
  repeat (apply orb_false_iff in H; destruct H as [H ?]).
  cbn [parse_args]. unfold one_of. cbn [existsb].
  destruct (strip_prefix "--size=" a); [discriminate|].
  destruct (strip_prefix "--rotate-count=" a); [discriminate|].
  destruct (strip_prefix "--buffer=" a); [discriminate|].
  repeat match goal with
         | Hf : (?x =? ?y) = false |- _ => rewrite Hf; clear Hf
         | Hf : (?x || ?y) = false |- _ =>
             apply orb_false_iff in Hf; destruct Hf
         end.
  reflexivity.
Qed.

Lemma size_in_range_true (o : oracle) (size : string) :
  size_in_range o size = true <-> integer_1_to_2048 o size.
Proof.
  unfold size_in_range, integer_1_to_2048.
  destruct (sh_integer o size) as [n|].
  - rewrite andb_true_iff, Z.ltb_lt, Z.leb_le. split.
    + intros [H1 H2]. exists n. split; [reflexivity|lia].
    + intros (m & [= <-] & Hm). lia.
  - split; [discriminate|]. intros (m & Hm & _). discriminate Hm.
Qed.

Lemma unset_if_default_None (default v : string) :
  unset_if_default default v = None <-> v = "" \/ v = default.
Proof.
  unfold unset_if_default.
  destruct (String.eqb_spec v ""), (String.eqb_spec default v); cbn;
    split; intros H; try reflexivity; try discriminate; try tauto;
    try (right; congruence); destruct H; congruence.
Qed.

Lemma unset_if_default_Some (default v : string) :
  v <> "" -> v <> default -> unset_if_default default v = Some v.
Proof.
  intros H1 H2. unfold unset_if_default.
  destruct (String.eqb_spec v ""), (String.eqb_spec default v); cbn;
    congruence.
Qed.

(** C7, as amended: the script exits with code 1 ("Disabled") whatever
    its arguments when the enable property is not "true".  When it is, and
    the argument loop has run to its end (it stops early, with code 0, at a
    -h or --help): a size in effect that is neither empty nor 256 nor an
    integer from 1 to 2048 gives exit code 1; with a size that passes, a
    buffer in effect that is neither empty nor "all" and that logcat
    rejects gives exit code 1; a size that is empty or 256 is unset and,
    with a buffer that passes, the validation ends without exit.  An
    unrecognized argument reached by the loop gives exit code 1. *)
Theorem logpersist_exits_one_on_invalid_input (o : oracle) :
  (getprop o "logd.logpersistd.enable" <> "true" ->
   forall args, logpersist o args = Exit 1 [Disabled])
  /\ (getprop o "logd.logpersistd.enable" = "true" ->
      (forall args size buffer clear,
          parse_args args size_default buffer_default false
          = Parsed size buffer clear ->
          (size <> "" -> size <> size_default -> ~ integer_1_to_2048 o size ->
           logpersist o args = Exit 1 [InvalidSize size])
          /\ (size = "" \/ size = size_default \/ integer_1_to_2048 o size ->
              buffer <> "" -> buffer <> buffer_default ->
              logcat_accepts o buffer = false ->
              logpersist o args = Exit 1 [InvalidBuffer buffer])
          /\ (size = "" \/ size = size_default ->
              buffer = "" \/ buffer = buffer_default
              \/ logcat_accepts o buffer = true ->
              logpersist o args
              = Validated None (unset_if_default buffer_default buffer) clear))
      /\ (forall pre a post size buffer clear,
             parse_args pre size_default buffer_default false
             = Parsed size buffer clear ->
             recognized a = false ->
             logpersist o (pre ++ a :: post)
             = Exit 1 [Usage; BadArgument (a :: post)])).
Proof.
  split.
  - intros Hdis args. unfold logpersist.
    destruct (String.eqb_spec (getprop o "logd.logpersistd.enable") "true");
      [contradiction|reflexivity].
  - intros Hen. split.
    + intros args size buffer clear Hparse. unfold logpersist.
      rewrite Hen, Hparse. cbn [String.eqb Ascii.eqb Bool.eqb negb andb].
      change (if "true" =? "true" then _ else ?x) with x.
      unfold validate. cbv zeta. split; [|split].
      * intros Hne Hnd Hbad. rewrite unset_if_default_Some by assumption.
        destruct (size_in_range o size) eqn:Hr; [|reflexivity].
        apply size_in_range_true in Hr. contradiction.
      * intros Hsize Hne Hnd Hrej.
        assert (Hpass :
                  match unset_if_default size_default size with
                  | Some s0 => if negb (size_in_range o s0) then Some s0 else None
                  | None => None
                  end = None).
        { destruct (unset_if_default size_default size) as [s0|] eqn:Hu;
            [|reflexivity].
          assert (Hs0 : s0 = size).
          { unfold unset_if_default in Hu. destruct (_ || _); congruence. }
          subst s0.
          destruct Hsize as [->|[->|Hok]].
          - discriminate Hu.
          - unfold unset_if_default in Hu. rewrite String.eqb_refl, orb_true_r in Hu.
            discriminate Hu.
          - apply size_in_range_true in Hok. rewrite Hok. reflexivity. }
        rewrite Hpass. rewrite unset_if_default_Some by assumption.
        rewrite Hrej. reflexivity.
      * intros Hsize Hbuf.
        assert (Hu : unset_if_default size_default size = None)
          by (apply unset_if_default_None; exact Hsize).
        rewrite Hu.
        destruct (unset_if_default buffer_default buffer) as [b0|] eqn:Hb;
          [|reflexivity].
        assert (Hb0 : b0 = buffer).
        { unfold unset_if_default in Hb. destruct (_ || _); congruence. }
        subst b0.
        destruct Hbuf as [Hbuf|[Hbuf|Hbuf]].
        -- assert (Hn : unset_if_default buffer_default buffer = None)
             by (apply unset_if_default_None; left; exact Hbuf). congruence.
        -- assert (Hn : unset_if_default buffer_default buffer = None)
             by (apply unset_if_default_None; right; exact Hbuf). congruence.
        -- rewrite Hbuf. reflexivity.
    + intros pre a post size buffer clear Hparse Hun. unfold logpersist.
      rewrite Hen. change (negb ("true" =? "true")) with false. cbv iota.
      rewrite (parse_args_app (length pre) pre _ _ _ _ _ _ (a :: post)
                              (Nat.le_refl _) Hparse).
      rewrite parse_args_unrecognized by exact Hun. reflexivity.
Qed.

End LogpersistProps.

(** ** The logpersist script on the example device *)
Section LogpersistExamples.
Import Logpersist Examples.
Local Open Scope string_scope.

(** C7, the claim as worded fails: with --help among the arguments the
    script prints its usage and exits with code 0 before any value is
    checked, whether a size out of range came before it or an unrecognized
    argument comes after it; and a bad --size followed by a good one is
    not an error. *)
Lemma logpersist_help_ends_with_zero :
  (~ integer_1_to_2048 device "0"
   /\ logpersist device ["--size=0"; "--help"] = Exit 0 [Usage])
  /\ (recognized "bogus" = false
      /\ logpersist device ["--help"; "bogus"] = Exit 0 [Usage])
  /\ (~ integer_1_to_2048 device "abc"
      /\ logpersist device ["--size=abc"; "--size=100"]
         = Validated (Some "100") None false).
Proof.
  repeat split; try reflexivity.
  - intros (n & Hn & Hr). cbn in Hn. injection Hn as <-. lia.
  - intros (n & Hn & _). cbn in Hn. discriminate Hn.
Qed.

Lemma logpersist_exits_one_on_invalid_input_witness :
  (getprop disabled_device "logd.logpersistd.enable" <> "true"
   /\ logpersist disabled_device ["--size=100"] = Exit 1 [Disabled])
  /\ (getprop device "logd.logpersistd.enable" = "true"
      /\ parse_args ["--size=4096"; "-c"] size_default buffer_default false
         = Parsed "4096" "all" true
      /\ "4096" <> "" /\ "4096" <> size_default
      /\ ~ integer_1_to_2048 device "4096"
      /\ logpersist device ["--size=4096"; "-c"] = Exit 1 [InvalidSize "4096"])
  /\ (parse_args ["-c"] size_default buffer_default false = Parsed "256" "all" true
      /\ recognized "--frobnicate" = false
      /\ logpersist device (["-c"] ++ "--frobnicate" :: ["x"])
         = Exit 1 [Usage; BadArgument ["--frobnicate"; "x"]]).
Proof.
  assert (Hd : getprop disabled_device "logd.logpersistd.enable" <> "true")
    by discriminate.
  assert (He : getprop device "logd.logpersistd.enable" = "true") by reflexivity.
  assert (Hp : parse_args ["--size=4096"; "-c"] size_default buffer_default false
               = Parsed "4096" "all" true) by reflexivity.
  assert (H1 : "4096" <> "") by discriminate.
  assert (H2 : "4096" <> size_default) by discriminate.
  assert (H3 : ~ integer_1_to_2048 device "4096").
  { intros (n & Hn & Hr). cbn in Hn. injection Hn as <-. lia. }
  assert (Hq : parse_args ["-c"] size_default buffer_default false
               = Parsed "256" "all" true) by reflexivity.
  assert (Hu : recognized "--frobnicate" = false) by reflexivity.
  split; [split; [exact Hd|]|split; [repeat (split; [assumption|])|
                                      repeat (split; [assumption|])]].
  - exact (proj1 (logpersist_exits_one_on_invalid_input disabled_device) Hd _).
  - exact (proj1 (proj1 (proj2 (logpersist_exits_one_on_invalid_input device) He)
                        _ _ _ _ Hp) H1 H2 H3).
  - exact (proj2 (proj2 (logpersist_exits_one_on_invalid_input device) He)
                 _ _ _ _ _ _ Hq Hu).
Defined.

End LogpersistExamples.

(** * Properties of the further parts *)

(** ** [LogdSocket]: one socket, no descriptor lost *)
Ltac sock_act c i :=
  eapply rtc_l; [apply (c i); reflexivity|cbn].

Section LogdSocketProps.
Import LogdSocket.

Lemma lookup_insert_cases (ts : list pc) (i j : nat) (q p : pc) :
  <[i := q]> ts !! j = Some p ->
  (j = i /\ p = q) \/ (j <> i /\ ts !! j = Some p).
Proof.
  intros H. destruct (decide (j = i)) as [->|Hne].
  - left. split; [reflexivity|].
    destruct (decide (i < length ts)%nat) as [Hlt|Hge].
    + rewrite list_lookup_insert_eq in H by exact Hlt. congruence.
    + rewrite list_insert_ge in H by lia.
      apply lookup_lt_Some in H. lia.
  - right. split; [exact Hne|].
    rewrite list_lookup_insert_ne in H by auto. exact H.
Qed.

Ltac not_held H :=
  destruct H as [H|[H|H]]; discriminate H.

Lemma initial_consistent (n : nat) : consistent (initial n).
Proof.
  split; cbn.
  - intros fd Hin. apply elem_of_empty in Hin as [].
  - intros _. left. reflexivity.
  - intros i p fd Hi Hh. apply lookup_replicate in Hi as [-> _]. not_held Hh.
  - intros i j p q fd Hi _ Hh. apply lookup_replicate in Hi as [-> _].
    not_held Hh.
  - intros fd Hin. apply elem_of_empty in Hin as [].
  - discriminate.
Qed.

(** A thread that is inside [GetSocket] excludes a [Close] under way. *)
Lemma busy_not_closing (st : state) (i : nat) (p : pc) :
  consistent st -> threads st !! i = Some p -> p <> Idle -> closing st = false.
Proof.
  intros Hc Hi Hp. destruct (closing st) eqn:Hcl; [|reflexivity].
  destruct (Close_alone st Hc Hcl) as [Hall _].
  rewrite Forall_lookup in Hall. destruct (Hp (Hall i p Hi)).
Qed.

(** A thread moving on without taking or giving up a descriptor. *)
Lemma retag_consistent (st : state) (i : nat) (p q : pc) :
  threads st !! i = Some p ->
  (forall fd, holds q fd <-> holds p fd) ->
  closing st = false ->
  consistent st ->
  consistent (mk_state (sock_ st) (open_fds st) (<[i := q]> (threads st))
                       (closing st)).
Proof.
  intros Hi Hsame Hcl [Hn Hs Ho H1 Hw Ha]. split;
    cbn [sock_ open_fds threads closing].
  - exact Hn.
  - exact Hs.
  - intros j r fd Hj Hh. apply lookup_insert_cases in Hj as [[-> ->]|[Hne Hj]].
    + apply (Ho i p fd Hi), Hsame, Hh.
    + exact (Ho j r fd Hj Hh).
  - intros j k r s fd Hj Hk Hr Hs'.
    apply lookup_insert_cases in Hj as [[-> ->]|[Hnj Hj]];
      apply lookup_insert_cases in Hk as [[-> ->]|[Hnk Hk]]; try reflexivity.
    + symmetry. apply (H1 k i s p fd Hk Hi Hs'), Hsame, Hr.
    + apply (H1 j i r p fd Hj Hi Hr), Hsame, Hs'.
    + exact (H1 j k r s fd Hj Hk Hr Hs').
  - intros fd Hin. destruct (Hw fd Hin) as [->|(j & r & Hj & Hh)];
      [left; reflexivity|right].
    destruct (decide (j = i)) as [->|Hne].
    + rewrite Hi in Hj. injection Hj as <-. exists i, q.
      split; [|apply Hsame, Hh].
      apply list_lookup_insert_eq. apply lookup_lt_Some in Hi. exact Hi.
    + exists j, r. split; [|exact Hh]. rewrite list_lookup_insert_ne by auto.
      exact Hj.
  - rewrite Hcl. discriminate.
Qed.

Lemma step_consistent (st st' : state) :
  step st st' -> consistent st -> consistent st'.
Proof.
  intros Hstep Hc.
  inversion Hstep as
      [i st0 Hi Hcl Hu|i fd st0 Hi Hfd Hfresh|i st0 Hi|i fd st0 Hi
      |i fd st0 Hi Hu|i fd st0 Hi Hu|i fd st0 Hi|st0 Hall Hcl|st0 Hcl]; subst.
  - apply (retag_consistent st i Idle Creating Hi); [|exact Hcl|exact Hc].
    intros fd; split; intros H; not_held H.
  - assert (Hcl : closing st = false)
      by (apply (busy_not_closing st i Creating Hc Hi); discriminate).
    destruct Hc as [Hn Hs Ho H1 Hw Ha]. specialize (Hs Hcl).
    split; cbn [sock_ open_fds threads closing].
    + intros x Hx. apply elem_of_union in Hx as [Hx|Hx]; [|exact (Hn x Hx)].
      apply elem_of_singleton in Hx as ->. exact Hfd.
    + intros _. destruct Hs as [Hs|Hs]; [left; exact Hs|right].
      apply elem_of_union. right. exact Hs.
    + intros j r x Hj Hh. apply lookup_insert_cases in Hj as [[-> ->]|[Hne Hj]].
      * assert (x = fd) as ->
            by (destruct Hh as [[= ->]|[Hh|Hh]];
                [reflexivity|discriminate Hh|discriminate Hh]).
        split; [apply elem_of_union; left; apply elem_of_singleton; reflexivity|].
        intros ->.
        destruct Hs as [Hs|Hs]; [unfold kUninitialized in Hs; lia|contradiction].
      * destruct (Ho j r x Hj Hh) as [Hin Hne'].
        split; [apply elem_of_union; right; exact Hin|exact Hne'].
    + intros j k r s x Hj Hk Hr Hs'.
      apply lookup_insert_cases in Hj as [[-> ->]|[Hnj Hj]];
        apply lookup_insert_cases in Hk as [[-> ->]|[Hnk Hk]]; try reflexivity.
      * assert (x = fd) as ->
            by (destruct Hr as [[= ->]|[Hr|Hr]];
                [reflexivity|discriminate Hr|discriminate Hr]).
        destruct (Ho k s fd Hk Hs') as [Hin _]. contradiction.
      * assert (x = fd) as ->
            by (destruct Hs' as [[= ->]|[Hs'|Hs']];
                [reflexivity|discriminate Hs'|discriminate Hs']).
        destruct (Ho j r fd Hj Hr) as [Hin _]. contradiction.
      * exact (H1 j k r s x Hj Hk Hr Hs').
    + intros x Hx. apply elem_of_union in Hx as [Hx|Hx].
      * apply elem_of_singleton in Hx as ->. right. exists i, (Created fd).
        split; [|left; reflexivity].
        apply list_lookup_insert_eq. apply lookup_lt_Some in Hi. exact Hi.
      * destruct (Hw x Hx) as [->|(j & r & Hj & Hh)]; [left; reflexivity|right].
        exists j, r. split; [|exact Hh].
        rewrite list_lookup_insert_ne; [exact Hj|].
        intros ->. rewrite Hi in Hj. injection Hj as <-. not_held Hh.
    + rewrite Hcl. discriminate.
  - apply (retag_consistent st i Creating Idle Hi); [| |exact Hc].
    + intros fd; split; intros H; not_held H.
    + apply (busy_not_closing st i Creating Hc Hi). discriminate.
  - apply (retag_consistent st i (Created fd) (Connected fd) Hi); [| |exact Hc].
    + intros x; split; intros [H|[H|H]]; try discriminate H; injection H as ->;
        [left|right; left]; reflexivity.
    + apply (busy_not_closing st i (Created fd) Hc Hi). discriminate.
  - assert (Hcl : closing st = false)
      by (apply (busy_not_closing st i (Connected fd) Hc Hi); discriminate).
    assert (Hmine : holds (Connected fd) fd) by (right; left; reflexivity).
    destruct Hc as [Hn Hs Ho H1 Hw Ha].
    destruct (Ho i (Connected fd) fd Hi Hmine) as [Hfdin _].
    split; cbn [sock_ open_fds threads closing].
    + exact Hn.
    + intros _. right. exact Hfdin.
    + intros j r x Hj Hh. apply lookup_insert_cases in Hj as [[-> ->]|[Hne Hj]];
        [not_held Hh|].
      destruct (Ho j r x Hj Hh) as [Hin _]. split; [exact Hin|]. intros ->.
      apply Hne. exact (H1 j i r (Connected fd) fd Hj Hi Hh Hmine).
    + intros j k r s x Hj Hk Hr Hs'.
      apply lookup_insert_cases in Hj as [[-> ->]|[Hnj Hj]]; [not_held Hr|].
      apply lookup_insert_cases in Hk as [[-> ->]|[Hnk Hk]]; [not_held Hs'|].
      exact (H1 j k r s x Hj Hk Hr Hs').
    + intros x Hx. destruct (Hw x Hx) as [Heq|(j & r & Hj & Hh)].
      * exfalso. pose proof (Hn x Hx) as Hpos. rewrite Heq, Hu in Hpos.
        unfold kUninitialized in Hpos. lia.
      * destruct (decide (j = i)) as [->|Hne].
        -- rewrite Hi in Hj. injection Hj as <-. left.
           destruct Hh as [Hh|[[= ->]|Hh]];
             [discriminate Hh|reflexivity|discriminate Hh].
        -- right. exists j, r. split; [|exact Hh].
           rewrite list_lookup_insert_ne by auto. exact Hj.
    + rewrite Hcl. discriminate.
  - apply (retag_consistent st i (Connected fd) (Lost fd) Hi); [| |exact Hc].
    + intros x; split; intros [H|[H|H]]; try discriminate H; injection H as ->;
        [right; left|right; right]; reflexivity.
    + apply (busy_not_closing st i (Connected fd) Hc Hi). discriminate.
  - assert (Hcl : closing st = false)
      by (apply (busy_not_closing st i (Lost fd) Hc Hi); discriminate).
    assert (Hmine : holds (Lost fd) fd) by (right; right; reflexivity).
    destruct Hc as [Hn Hs Ho H1 Hw Ha]. specialize (Hs Hcl).
    destruct (Ho i (Lost fd) fd Hi Hmine) as [Hfdin Hfdne].
    split; cbn [sock_ open_fds threads closing].
    + intros x Hx. apply Hn. apply elem_of_difference in Hx as [Hx _]. exact Hx.
    + intros _. destruct Hs as [Hs|Hs]; [left; exact Hs|right].
      apply elem_of_difference. split; [exact Hs|].
      intros Hx. apply elem_of_singleton in Hx. apply Hfdne. symmetry. exact Hx.
    + intros j r x Hj Hh. apply lookup_insert_cases in Hj as [[-> ->]|[Hne Hj]];
        [not_held Hh|].
      destruct (Ho j r x Hj Hh) as [Hin Hxs]. split; [|exact Hxs].
      apply elem_of_difference. split; [exact Hin|].
      intros Hx. apply elem_of_singleton in Hx as ->.
      apply Hne. exact (H1 j i r (Lost fd) fd Hj Hi Hh Hmine).
    + intros j k r s x Hj Hk Hr Hs'.
      apply lookup_insert_cases in Hj as [[-> ->]|[Hnj Hj]]; [not_held Hr|].
      apply lookup_insert_cases in Hk as [[-> ->]|[Hnk Hk]]; [not_held Hs'|].
      exact (H1 j k r s x Hj Hk Hr Hs').
    + intros x Hx. apply elem_of_difference in Hx as [Hx Hxfd].
      destruct (Hw x Hx) as [->|(j & r & Hj & Hh)]; [left; reflexivity|right].
      exists j, r. split; [|exact Hh].
      rewrite list_lookup_insert_ne; [exact Hj|].
      intros ->. rewrite Hi in Hj. injection Hj as <-.
      apply Hxfd, elem_of_singleton.
      destruct Hh as [Hh|[Hh|[= ->]]];
        [discriminate Hh|discriminate Hh|reflexivity].
    + rewrite Hcl. discriminate.
  - destruct Hc as [Hn Hs Ho H1 Hw Ha]. specialize (Hs Hcl).
    assert (Hidle : forall j r x, threads st !! j = Some r -> holds r x -> False).
    { intros j r x Hj Hh. rewrite Forall_lookup in Hall.
      rewrite (Hall j r Hj) in Hh. not_held Hh. }
    assert (Hnone : (if sock_ st =? kUninitialized then open_fds st
                     else open_fds st ∖ {[sock_ st]}) = ∅).
    { apply set_eq. intros x.
      split; [|intros Hx; apply elem_of_empty in Hx as []].
      intros Hx. exfalso.
      destruct (Z.eqb_spec (sock_ st) kUninitialized) as [Heq|Hne].
      - destruct (Hw x Hx) as [->|(j & r & Hj & Hh)]; [|exact (Hidle j r x Hj Hh)].
        pose proof (Hn _ Hx) as Hpos. rewrite Heq in Hpos.
        unfold kUninitialized in Hpos. lia.
      - apply elem_of_difference in Hx as [Hx Hxs].
        destruct (Hw x Hx) as [->|(j & r & Hj & Hh)]; [|exact (Hidle j r x Hj Hh)].
        apply Hxs, elem_of_singleton. reflexivity. }
    rewrite Hnone. split; cbn [sock_ open_fds threads closing].
    + intros x Hx. apply elem_of_empty in Hx as [].
    + discriminate.
    + intros j r x Hj Hh. destruct (Hidle j r x Hj Hh).
    + intros j k r s x Hj Hk Hr Hs'. destruct (Hidle j r x Hj Hr).
    + intros x Hx. apply elem_of_empty in Hx as [].
    + intros _. split; [exact Hall|reflexivity].
  - destruct Hc as [Hn Hs Ho H1 Hw Ha]. destruct (Ha Hcl) as [Hall Hnone].
    assert (Hidle : forall j r x, threads st !! j = Some r -> holds r x -> False).
    { intros j r x Hj Hh. rewrite Forall_lookup in Hall.
      rewrite (Hall j r Hj) in Hh. not_held Hh. }
    split; cbn [sock_ open_fds threads closing].
    + exact Hn.
    + intros _. left. reflexivity.
    + intros j r x Hj Hh. destruct (Hidle j r x Hj Hh).
    + intros j k r s x Hj Hk Hr Hs'. destruct (Hidle j r x Hj Hr).
    + intros x Hx. rewrite Hnone in Hx. apply elem_of_empty in Hx as [].
    + discriminate.
Qed.

(** X1.  Whatever the number of threads that race through [GetSocket] and
    however their actions interleave, with [Close] run in between while
    no thread is inside: every descriptor that is open is the one in
    [sock_] or the new socket of a thread that is still inside [GetSocket]
    (one that has lost the exchange and not yet closed its socket
    included), and no descriptor is held twice; so once the threads are
    out, the only descriptor left open is the one in [sock_]: the losers
    of the race have closed theirs.  After [Close] has closed the
    descriptor none is left. *)
Theorem GetSocket_loses_no_descriptor (n : nat) (st : state) :
  rtc step (initial n) st ->
  consistent st
  /\ (Forall (fun p => p = Idle) (threads st) ->
      open_fds st = if closing st || (sock_ st =? kUninitialized) then ∅
                    else {[sock_ st]}).
Proof.
  intros Hreach.
  assert (Hc : consistent st).
  { pose proof (initial_consistent n) as H0. revert H0.
    induction Hreach as [st|st mid st' Hstep _ IH]; [tauto|].
    intros H0. apply IH. exact (step_consistent _ _ Hstep H0). }
  split; [exact Hc|]. intros Hall. destruct Hc as [Hn Hs Ho H1 Hw Ha].
  destruct (closing st) eqn:Hcl; cbn [orb]; [exact (proj2 (Ha eq_refl))|].
  specialize (Hs eq_refl).
  assert (Hsub : forall x, x ∈ open_fds st -> x = sock_ st).
  { intros x Hx. destruct (Hw x Hx) as [->|(j & r & Hj & Hh)]; [reflexivity|].
    rewrite Forall_lookup in Hall. rewrite (Hall j r Hj) in Hh. not_held Hh. }
  destruct (Z.eqb_spec (sock_ st) kUninitialized) as [Heq|Hne].
  - apply set_eq. intros x. split; [|intros Hx; apply elem_of_empty in Hx as []].
    intros Hx. exfalso.
    pose proof (Hn x Hx) as Hpos. rewrite (Hsub x Hx), Heq in Hpos.
    unfold kUninitialized in Hpos. lia.
  - destruct Hs as [Hs|Hs]; [contradiction|].
    apply set_eq. intros x. rewrite elem_of_singleton. split; [apply Hsub|].
    intros ->. exact Hs.
Qed.

Lemma race_losing_reachable : rtc step (initial 2) race_losing.
Proof.
  unfold initial, race_losing. cbn [replicate].
  sock_act step_check 0%nat. sock_act step_check 1%nat.
  eapply rtc_l; [apply (step_socket_ok 0 3); cbn;
                 [reflexivity|lia|apply not_elem_of_empty]|cbn].
  eapply rtc_l; [apply (step_socket_ok 1 4); cbn;
                 [reflexivity|lia|]|cbn].
  { intros H. apply elem_of_union in H as [H|H];
      [apply elem_of_singleton in H; discriminate H|apply elem_of_empty in H as []]. }
  sock_act step_connect 0%nat. sock_act step_connect 1%nat.
  sock_act step_exchange_won 0%nat.
  eapply rtc_l; [apply (step_exchange_lost 1 4); cbn;
                 [reflexivity|discriminate]|cbn].
  apply rtc_refl.
Defined.

Lemma race_lost_reachable : rtc step (initial 2) race_lost.
Proof.
  eapply rtc_r; [exact race_losing_reachable|].
  apply (step_close_new_socket 1 4). reflexivity.
Defined.

Lemma GetSocket_loses_no_descriptor_witness :
  rtc step (initial 2) race_lost /\ open_fds race_lost = {[3]}
  /\ rtc step (initial 2) race_losing /\ consistent race_losing.
Proof.
  split; [exact race_lost_reachable|]. split.
  - apply (proj2 (GetSocket_loses_no_descriptor 2 race_lost race_lost_reachable)).
    repeat constructor.
  - split; [exact race_losing_reachable|].
    exact (proj1 (GetSocket_loses_no_descriptor 2 race_losing
                                                race_losing_reachable)).
Defined.

(** The descriptors a trace leaves open, over two traces in a row. *)
Lemma open_after_app (opened : list Z) (evs evs' : list event) :
  open_after opened (evs ++ evs') = open_after (open_after opened evs) evs'.
Proof.
  revert opened. induction evs as [|e evs IH]; intros opened; [reflexivity|].
  destruct e as [flags [fd|e]|fd|fd]; cbn; apply IH.
Qed.

Lemma run_keeps_one_descriptor (blocking_ : bool) (calls : list call) (s : Z)
      (opened : list Z) :
  -1 <= s -> opened = (if s =? kUninitialized then [] else [s]) ->
  -1 <= (run blocking_ s calls).1
  /\ open_after opened (run blocking_ s calls).2
     = (if (run blocking_ s calls).1 =? kUninitialized then []
        else [(run blocking_ s calls).1]).
Proof.
  revert s opened. induction calls as [|c calls IH]; intros s opened Hs Ho.
  - cbn. split; [exact Hs|exact Ho].
  - cbn [run].
    set (one := match c with
                | CallSock r => GetSocket blocking_ r s
                | CallClose => Close s
                end).
    assert (Hone : -1 <= one.1
                   /\ open_after opened one.2
                      = (if one.1 =? kUninitialized then [] else [one.1])).
    { subst one opened. destruct c as [r|].
      - unfold GetSocket, kUninitialized.
        destruct (Z.eqb_spec s (-1)) as [->|Hne]; cbn [negb fst snd].
        + destruct r as [n|e]; cbn [sys_ret].
          * destruct (Z.ltb_spec (Z.of_N n) 0) as [Hlt|Hge]; [lia|].
            cbn. split; [lia|].
            destruct (Z.eqb_spec (Z.of_N n) (-1)); [lia|reflexivity].
          * cbn. split; [lia|reflexivity].
        + cbn. split; [exact Hs|].
          destruct (Z.eqb_spec s (-1)); [contradiction|reflexivity].
      - unfold Close, kUninitialized. cbn [fst snd]. split; [lia|].
        destruct (Z.eqb_spec s (-1)) as [->|Hne]; cbn; [reflexivity|].
        rewrite Z.eqb_refl. reflexivity. }
    destruct one as [s' evs]. cbn [fst snd] in Hone. destruct Hone as [Hs' Ho'].
    specialize (IH s' (open_after opened evs) Hs' Ho').
    destruct (run blocking_ s' calls) as [final evs']. cbn [fst snd] in *.
    rewrite open_after_app. exact IH.
Qed.

Lemma run_never_closes_uninitialized (blocking_ : bool) (calls : list call) (s : Z) :
  ~ In (CloseFd kUninitialized) (run blocking_ s calls).2.
Proof.
  revert s. induction calls as [|c calls IH]; intros s.
  - cbn. tauto.
  - cbn [run].
    set (one := match c with
                | CallSock r => GetSocket blocking_ r s
                | CallClose => Close s
                end).
    assert (Hone : ~ In (CloseFd kUninitialized) one.2).
    { subst one. destruct c as [r|].
      - unfold GetSocket. destruct (negb (s =? kUninitialized)); [cbn; tauto|].
        destruct (sys_ret r <? 0); cbn; intros H; [destruct H as [H|[]]
                                                  |destruct H as [H|[H|[]]]];
          discriminate H.
      - unfold Close. cbn [snd].
        destruct (Z.eqb_spec s kUninitialized) as [->|Hne]; cbn; [tauto|].
        intros [[= H]|[]]. contradiction. }
    destruct one as [s' evs]. specialize (IH s').
    destruct (run blocking_ s' calls) as [final evs']. cbn [fst snd] in *.
    rewrite in_app_iff. tauto.
Qed.

(** X2.  One thread calling [sock()] and [Close()] in any order on a fresh
    object, whatever [socket] answers: the descriptors opened and not closed
    at the end are the one in [sock_], or none when [sock_] is
    uninitialized.  A failed [socket] leaves the object uninitialized, so
    that the next [sock()] tries again; [Close] closes the descriptor once
    and never closes -1. *)
Theorem sock_and_Close_keep_one_descriptor (blocking_ : bool) (calls : list call) :
  open_after [] (run blocking_ kUninitialized calls).2
  = (if (run blocking_ kUninitialized calls).1 =? kUninitialized then []
     else [(run blocking_ kUninitialized calls).1])
  /\ ~ In (CloseFd kUninitialized) (run blocking_ kUninitialized calls).2.
Proof.
  split.
  - apply run_keeps_one_descriptor; [unfold kUninitialized; lia|reflexivity].
  - apply run_never_closes_uninitialized.
Qed.

End LogdSocketProps.

(** ** [LogdWrite]: one retry, and none when logd is overloaded *)
Section LogdRetryProps.
Context `{P : Platform}.
Import LogdWriter LogdRetry.

Lemma LogdWrite_event_list
      (o : oracle) (dropped logId : Z) (ts : timespec) (vec : list iovec) :
  0 <= socket_for o logId -> getuid o <> AID_LOGD ->
  let sock := socket_for o logId in
  let d := log_record (make_header logId o ts) (copy_iovecs 0 vec) in
  events (LogdWrite o dropped logId ts vec)
  = (if negb (dropped =? 0) && liblog_loggable o
     then [Writev sock
                  (drop_report (make_header LOG_ID_EVENTS o ts)
                               (mk_event_int LIBLOG_LOG_TAG EVENT_TYPE_INT dropped))
                  (writev_report o)]
     else [])
      ++ (Writev sock d (writev_first o)
            :: if (sys_ret (writev_first o) <? 0)
                  && negb (sys_errno (writev_first o) =? EAGAIN)
               then [Reconnect sock; Writev sock d (writev_retry o)]
               else []).
Proof.
  unfold socket_for, LogdWrite. cbv zeta. intros Hsock Huid.
  destruct (Z.ltb_spec (if logId =? LOG_ID_SECURITY then blocking_sock o
                        else nonblocking_sock o) 0); [lia|].
  destruct (Z.eqb_spec (getuid o) AID_LOGD); [contradiction|].
  destruct (negb (dropped =? 0) && liblog_loggable o);
    destruct ((sys_ret (writev_first o) <? 0)
              && negb (sys_errno (writev_first o) =? EAGAIN));
    cbn [fst snd];
    repeat match goal with
           | |- context [if sizeof_header <? ?x then mk_result _ _ _ else _] =>
               destruct (sizeof_header <? x)
           | |- context [if ?x <? 0 then mk_result _ _ _ else _] =>
               destruct (x <? 0)
           end; reflexivity.
Qed.

(** X3.  A call of [LogdWrite] that gets past the two early returns, with
    nothing in the drop counter, writes the record once; when that [writev]
    fails with an errno other than EAGAIN it reconnects the socket once and
    writes the same record a second time, and does nothing more.  A first
    failure with EAGAIN is final: no reconnect, -EAGAIN is returned and the
    record counts as dropped.  After a reconnect the second [writev] alone
    decides: when it delivers more than the header, the call returns the
    payload bytes and the failed first attempt is not counted as a drop. *)
Theorem LogdWrite_reconnects_once_unless_EAGAIN
        (o : oracle) (logId : Z) (ts : timespec) (vec : list iovec) :
  0 <= sizeof_header ->
  0 <= socket_for o logId -> getuid o <> AID_LOGD ->
  let R := LogdWrite o 0 logId ts vec in
  let d := log_record (make_header logId o ts) (copy_iovecs 0 vec) in
  let sock := socket_for o logId in
  (sys_ret (writev_first o) < 0 -> sys_errno (writev_first o) = EAGAIN ->
   events R = [Writev sock d (writev_first o)]
   /\ ret R = - EAGAIN /\ dropped_out R = 1)
  /\ (sys_ret (writev_first o) < 0 -> sys_errno (writev_first o) <> EAGAIN ->
      events R = [Writev sock d (writev_first o); Reconnect sock;
                  Writev sock d (writev_retry o)]
      /\ (sizeof_header < sys_ret (writev_retry o) <= INT_MAX ->
          ret R = sys_ret (writev_retry o) - sizeof_header /\ dropped_out R = 0))
  /\ (0 <= sys_ret (writev_first o) -> events R = [Writev sock d (writev_first o)])
  /\ (length (reconnects (events R)) <= 1)%nat
  /\ (1 <= length (record_writes (events R)) <= 2)%nat.
Proof.
  intros Hsize Hsock Huid R d sock.
  pose proof (LogdWrite_event_list o 0 logId ts vec Hsock Huid) as Hev.
  pose proof (LogdWrite_active o 0 logId ts vec Hsock Huid) as [_ Hret].
  pose proof (LogdWrite_books o 0 logId ts vec Hsock Huid) as [_ Hdrop].
  cbv zeta in Hev, Hret, Hdrop. fold R in Hev, Hret, Hdrop.
  fold sock d in Hev. unfold record_outcome in Hret, Hdrop.
  change (negb (0 =? 0) && liblog_loggable o) with false in Hev, Hdrop.
  cbv iota in Hev, Hdrop. cbn [app] in Hev.
  split; [|split; [|split; [|split]]].
  - intros Hneg Herr.
    assert (Hr : (sys_ret (writev_first o) <? 0)
                 && negb (sys_errno (writev_first o) =? EAGAIN) = false).
    { rewrite Herr, Z.eqb_refl. apply andb_false_r. }
    rewrite Hr in Hev, Hret, Hdrop.
    assert (Hlt : (sys_ret (writev_first o) <? 0) = true) by (apply Z.ltb_lt; lia).
    rewrite Hlt in Hret, Hdrop. rewrite Herr in Hret, Hdrop.
    assert (Hh : (sizeof_header <? - EAGAIN) = false)
      by (apply Z.ltb_ge; unfold EAGAIN; lia).
    rewrite Hh in Hret, Hdrop.
    split; [exact Hev|]. split; [rewrite Hret; reflexivity|].
    rewrite Hdrop. reflexivity.
  - intros Hneg Herr.
    assert (Hr : (sys_ret (writev_first o) <? 0)
                 && negb (sys_errno (writev_first o) =? EAGAIN) = true).
    { apply andb_true_iff. split; [apply Z.ltb_lt; lia|].
      apply negb_true_iff, Z.eqb_neq. exact Herr. }
    rewrite Hr in Hev, Hret, Hdrop. split; [exact Hev|].
    intros Hn. unfold INT_MAX in Hn.
    assert (Hlt : (sys_ret (writev_retry o) <? 0) = false) by (apply Z.ltb_ge; lia).
    rewrite Hlt in Hret, Hdrop.
    assert (Hh : (sizeof_header <? sys_ret (writev_retry o)) = true)
      by (apply Z.ltb_lt; lia).
    rewrite Hh in Hret, Hdrop. split; [|exact Hdrop].
    rewrite Hret. apply to_int_small. unfold is_int, INT_MIN, INT_MAX. lia.
  - intros Hpos.
    assert (Hlt : (sys_ret (writev_first o) <? 0) = false) by (apply Z.ltb_ge; lia).
    rewrite Hlt in Hev. exact Hev.
  - rewrite Hev.
    destruct ((sys_ret (writev_first o) <? 0)
              && negb (sys_errno (writev_first o) =? EAGAIN)); cbn; lia.
  - rewrite Hev.
    destruct ((sys_ret (writev_first o) <? 0)
              && negb (sys_errno (writev_first o) =? EAGAIN)); cbn; lia.
Qed.

End LogdRetryProps.

Section LogdRetryExamples.
Import LogdWriter LogdRetry.
#[local] Existing Instance aosp.

Lemma LogdWrite_reconnects_once_unless_EAGAIN_witness :
  ret (LogdWrite overloaded 0 LOG_ID_MAIN (mk_timespec 0 0) []) = -11
  /\ dropped_out (LogdWrite overloaded 0 LOG_ID_MAIN (mk_timespec 0 0) []) = 1
  /\ ret (LogdWrite stale 0 LOG_ID_MAIN (mk_timespec 0 0) []) = 19
  /\ dropped_out (LogdWrite stale 0 LOG_ID_MAIN (mk_timespec 0 0) []) = 0.
Proof.
  assert (H0 : 0 <= @sizeof_header aosp) by (cbn; lia).
  assert (Hs : 0 <= socket_for overloaded LOG_ID_MAIN) by (cbn; lia).
  assert (Hu : getuid overloaded <> AID_LOGD) by (cbn; lia).
  assert (Hs' : 0 <= socket_for stale LOG_ID_MAIN) by (cbn; lia).
  assert (Hu' : getuid stale <> AID_LOGD) by (cbn; lia).
  pose proof (LogdWrite_reconnects_once_unless_EAGAIN
                overloaded LOG_ID_MAIN (mk_timespec 0 0) [] H0 Hs Hu) as [A _].
  pose proof (LogdWrite_reconnects_once_unless_EAGAIN
                stale LOG_ID_MAIN (mk_timespec 0 0) [] H0 Hs' Hu') as (_ & B & _).
  cbv zeta in A, B.
  destruct A as (_ & A1 & A2); [cbn; lia|reflexivity|].
  destruct B as (_ & B'); [cbn; lia|cbn; unfold EAGAIN; lia|].
  destruct B' as [B1 B2]; [cbn; unfold INT_MAX; lia|].
  split; [exact A1|]. split; [exact A2|]. split; [exact B1|exact B2].
Defined.

End LogdRetryExamples.

(** ** The text writers: what is sent, and what is returned *)
Section LogWritersProps.
Context `{P : Platform} `{H : LogWriters.LogHeaders}.
Import LogdWriter LoggerWrite LogWriters.

Lemma substring_prefix (n : nat) (s : string) :
  list_ascii_of_string (substring 0 n s) = take n (list_ascii_of_string s).
Proof.
  revert s. induction n as [|n IH]; intros [|c s]; cbn; try reflexivity.
  rewrite IH. reflexivity.
Qed.

Lemma length_list_ascii (s : string) :
  length (list_ascii_of_string s) = String.length s.
Proof. induction s as [|c s IH]; cbn; [reflexivity|rewrite IH; reflexivity]. Qed.

Lemma strlen_substring_prefix (n : nat) (s : string) :
  strlen (substring 0 n s) = Z.min (Z.of_nat n) (strlen s).
Proof.
  unfold strlen. rewrite <- !length_list_ascii, substring_prefix, length_take. lia.
Qed.

Lemma le32_first_byte (z : Z) : take 1 (le32 z) = [low_byte z].
Proof.
  unfold le32, low_byte. cbn [map take]. f_equal. f_equal. f_equal.
  change (2 ^ (8 * 0)) with 1. rewrite Z.div_1_r.
  apply Z.mod_mod_divide. exists (2 ^ 24). reflexivity.
Qed.

Lemma length_le32 (z : Z) : length (le32 z) = 4%nat.
Proof. reflexivity. Qed.

Lemma text_buffer_spec (buffer_id : Z) :
  text_buffer buffer_id = true
  <-> In buffer_id [LOG_ID_DEFAULT; LOG_ID_MAIN; LOG_ID_SYSTEM; LOG_ID_RADIO;
                    LOG_ID_CRASH].
Proof.
  unfold text_buffer. cbn [In].
  destruct (Z.eqb_spec buffer_id LOG_ID_DEFAULT);
    destruct (Z.eqb_spec buffer_id LOG_ID_MAIN);
    destruct (Z.eqb_spec buffer_id LOG_ID_SYSTEM);
    destruct (Z.eqb_spec buffer_id LOG_ID_RADIO);
    destruct (Z.eqb_spec buffer_id LOG_ID_CRASH); cbn;
    split; intros; try discriminate; try tauto; intuition congruence.
Qed.

(** The buffer a text message is filed under. *)
Lemma text_buffer_id (buffer_id : Z) :
  text_buffer buffer_id = true ->
  let id := if buffer_id =? LOG_ID_DEFAULT then LOG_ID_MAIN else buffer_id in
  In id [LOG_ID_MAIN; LOG_ID_SYSTEM; LOG_ID_RADIO; LOG_ID_CRASH].
Proof.
  intros Hb. apply text_buffer_spec in Hb. cbv zeta.
  destruct (Z.eqb_spec buffer_id LOG_ID_DEFAULT) as [->|Hne]; [left; reflexivity|].
  cbn [In] in *. intuition congruence.
Qed.

(** The bytes the three iovecs of a text record announce. *)
Lemma gather_text_iovecs (priority : Z) (tag msg : string) :
  gather (text_iovecs priority tag msg)
  = low_byte priority :: list_ascii_of_string tag
      ++ NUL :: list_ascii_of_string msg ++ [NUL].
Proof.
  unfold gather, text_iovecs, c_string_bytes, strlen. cbn [flat_map iov_len iov_base].
  change (Z.to_nat 1) with 1%nat. rewrite le32_first_byte.
  rewrite !take_ge by (rewrite length_app, length_list_ascii; cbn; lia).
  rewrite app_nil_r. cbn [app]. rewrite <- app_assoc. reflexivity.
Qed.

Lemma total_len_text_iovecs (priority : Z) (tag msg : string) :
  total_len (text_iovecs priority tag msg) = strlen tag + strlen msg + 3.
Proof. unfold total_len, text_iovecs. cbn. lia. Qed.

Lemma strlen_nonneg (s : string) : 0 <= strlen s.
Proof. unfold strlen. lia. Qed.

Lemma text_iovecs_readable (priority : Z) (tag msg : string) :
  Forall readable (text_iovecs priority tag msg).
Proof.
  unfold text_iovecs, readable, c_string_bytes, strlen.
  repeat constructor; cbn [iov_len iov_base];
    rewrite ?length_app, ?length_list_ascii; cbn; lia.
Qed.

Lemma total_len_nonneg_of_lengths (vec : list iovec) :
  Forall (fun v => 0 <= iov_len v) vec -> 0 <= total_len vec.
Proof.
  induction 1 as [|v vec Hv Hall IH]; [cbn; lia|].
  rewrite total_len_cons. lia.
Qed.

(** An array that stays within the cap is sent as it is. *)
Lemma copy_iovecs_whole (vec : list iovec) (acc : Z) :
  Forall (fun v => 0 <= iov_len v) vec ->
  0 <= acc -> acc + total_len vec <= LOGGER_ENTRY_MAX_PAYLOAD ->
  LOGGER_ENTRY_MAX_PAYLOAD <= SIZE_MAX ->
  copy_iovecs acc vec = vec.
Proof.
  intros Hall. revert acc. induction Hall as [|v vec Hv Hall IH]; intros acc Hacc Hsum Hcap.
  - reflexivity.
  - rewrite total_len_cons in Hsum. pose proof (total_len_nonneg_of_lengths vec Hall) as Hnn.
    cbn [copy_iovecs]. rewrite wrap_size_t_small by lia.
    destruct (Z.ltb_spec LOGGER_ENTRY_MAX_PAYLOAD (acc + iov_len v)); [lia|].
    rewrite IH by lia. reflexivity.
Qed.

(** The C string at [buf] is the part of [buf] in front of its first
    NUL. *)
Lemma c_string_spec (buf : string) :
  ~ In NUL (list_ascii_of_string (c_string buf))
  /\ exists rest,
      list_ascii_of_string buf = list_ascii_of_string (c_string buf) ++ rest
      /\ (rest = [] \/ exists rest', rest = NUL :: rest').
Proof.
  induction buf as [|c buf [IHn (rest & IHeq & IHrest)]]; cbn [c_string].
  - split; [cbn; tauto|]. exists []. split; [reflexivity|left; reflexivity].
  - destruct (Ascii.eqb_spec c NUL) as [->|Hc].
    + split; [cbn; tauto|]. exists (NUL :: list_ascii_of_string buf).
      split; [reflexivity|right]. eexists. reflexivity.
    + split.
      * cbn. intros [Heq|Hin]; [apply Hc; exact Heq|exact (IHn Hin)].
      * exists rest. split; [|exact IHrest]. cbn. rewrite IHeq at 1. reflexivity.
Qed.

Lemma c_string_whole (buf : string) :
  ~ In NUL (list_ascii_of_string buf) -> c_string buf = buf.
Proof.
  induction buf as [|c buf IH]; cbn; [reflexivity|]. intros Hn.
  destruct (Ascii.eqb_spec c NUL) as [->|Hc]; [exfalso; apply Hn; left; reflexivity|].
  rewrite IH; [reflexivity|]. intros Hin. apply Hn. right. exact Hin.
Qed.

Lemma strlen_c_string (buf : string) : strlen (c_string buf) <= strlen buf.
Proof.
  unfold strlen. induction buf as [|c buf IH]; cbn [c_string]; [lia|].
  destruct (Ascii.eqb c NUL); cbn [String.length]; lia.
Qed.


(** What the logd logger does with a text message that has a tag. *)
Lemma logd_logger_text (o : environment) (m : __android_log_message)
      (t : string) (dropped : Z) :
  file_logger_overridden o = false -> tag m = Some t ->
  text_buffer (buffer_id m) = true ->
  let id := if buffer_id m =? LOG_ID_DEFAULT then LOG_ID_MAIN else buffer_id m in
  let r := submit o dropped id (text_iovecs (priority m) t (message m)) None in
  __android_log_logd_logger o m dropped = Some (dropped_out r, events r).
Proof.
  intros Hfile Htag Hbuf id r.
  unfold __android_log_logd_logger, __android_log_logd_logger_with_timestamp.
  rewrite (log_to_file_not_overridden o m Hfile), Htag. fold id.
  change [mk_iovec (le32 (priority m)) 1; mk_iovec (c_string_bytes t) (strlen t + 1);
          mk_iovec (c_string_bytes (message m)) (strlen (message m) + 1)]
    with (text_iovecs (priority m) t (message m)).
  rewrite write_to_log_text; [reflexivity|].
  pose proof (text_buffer_id _ Hbuf) as Hid. cbv zeta in Hid. fold id in Hid.
  cbn [In] in *. unfold LOG_ID_MAIN, LOG_ID_SYSTEM, LOG_ID_RADIO, LOG_ID_CRASH,
    LOG_ID_KERNEL, LOG_ID_SECURITY, LOG_ID_EVENTS, LOG_ID_STATS in *. lia.
Qed.

(** [__android_log_buf_write] through the logd logger, for a message that
    may be logged to a text buffer. *)
Lemma buf_write_text (loggable : Z -> option string -> bool) (o : environment)
      (default_tag : string) (log_id prio : Z) (tag : option string)
      (msg : string) (dropped : Z) :
  file_logger_overridden o = false -> loggable prio tag = true ->
  text_buffer log_id = true ->
  let t := match tag with Some t => t | None => default_tag end in
  let id := if log_id =? LOG_ID_DEFAULT then LOG_ID_MAIN else log_id in
  let r := submit o dropped id (text_iovecs prio t msg) None in
  __android_log_buf_write loggable (__android_log_logd_logger o) default_tag
                          log_id prio tag msg dropped
  = Some (1, dropped_out r,
          (if prio =? ANDROID_LOG_FATAL then [SetAbortMessage msg] else [])
            ++ events r).
Proof.
  intros Hfile Hlog Hbuf t id r.
  unfold __android_log_buf_write. rewrite Hlog. cbn [negb].
  unfold __android_log_write_log_message. cbn [buffer_id LoggerWrite.tag].
  unfold text_buffer in Hbuf. apply negb_true_iff in Hbuf. rewrite Hbuf.
  assert (Hb : text_buffer log_id = true)
    by (unfold text_buffer; rewrite Hbuf; reflexivity).
  destruct tag as [t'|]; cbn [struct_size buffer_id priority LoggerWrite.tag file line message].
  - pose proof (logd_logger_text
                  o (mk_message sizeof_log_message log_id prio (Some t') None 0 msg)
                  t' dropped Hfile eq_refl Hb) as E.
    cbv zeta in E. cbn [buffer_id priority message] in E. rewrite E. reflexivity.
  - pose proof (logd_logger_text
                  o (mk_message sizeof_log_message log_id prio (Some default_tag)
                                None 0 msg)
                  default_tag dropped Hfile eq_refl Hb) as E.
    cbv zeta in E. cbn [buffer_id priority message] in E. rewrite E. reflexivity.
Qed.

Lemma records_app (evs evs' : list event) :
  records (evs ++ evs') = records evs ++ records evs'.
Proof. unfold records. apply flat_map_app. Qed.

(** The records of a call of [submit]: one or two copies of the same
    datagram when the socket is open and the caller is not logd, none
    otherwise. *)
Lemma records_submit (o : environment) (dropped id : Z) (vec : list iovec)
      (ts : option timespec) :
  let time := match ts with Some t => t | None => clock_realtime o end in
  let d := (make_header id (logd o) time, copy_iovecs 0 vec) in
  (0 <= socket_for (logd o) id -> getuid (logd o) <> AID_LOGD ->
   records (events (submit o dropped id vec ts)) = [d]
   \/ records (events (submit o dropped id vec ts)) = [d; d])
  /\ (socket_for (logd o) id < 0 \/ getuid (logd o) = AID_LOGD ->
      records (events (submit o dropped id vec ts)) = []).
Proof.
  intros time d. unfold submit. fold time. cbn [events]. rewrite records_app.
  change (records [PmsgWrite id vec]) with (@nil (android_log_header_t * list iovec)).
  rewrite app_nil_r. split.
  - intros Hsock Huid.
    rewrite (LogdWrite_event_list (logd o) dropped id time vec Hsock Huid).
    cbv zeta. rewrite records_app.
    destruct (negb (dropped =? 0) && liblog_loggable (logd o));
      destruct ((sys_ret (writev_first (logd o)) <? 0)
                && negb (sys_errno (writev_first (logd o)) =? EAGAIN));
      cbn; auto.
  - intros Hsilent.
    destruct (LogdWrite_silent (logd o) dropped id time vec Hsilent) as [-> _].
    reflexivity.
Qed.

(** X4.  A text message that may be logged, handed to
    [__android_log_buf_write] for the default, main, system, radio or crash
    buffer while the logd logger is installed: the call returns 1; every
    record datagram it writes is filed under the buffer asked for (main for
    the default buffer) and carries, cut at the payload cap, the low byte of
    the priority, the tag with its terminating NUL and the message with its
    terminating NUL; the tag is the default tag when the caller passed
    none.  With an open socket outside logd there is such a datagram. *)
Theorem text_record_is_priority_tag_message
        (loggable : Z -> option string -> bool) (o : environment)
        (default_tag : string) (log_id prio : Z) (tag : option string)
        (msg : string) (dropped : Z) :
  let t := match tag with Some t => t | None => default_tag end in
  let id := if log_id =? LOG_ID_DEFAULT then LOG_ID_MAIN else log_id in
  0 <= LOGGER_ENTRY_MAX_PAYLOAD ->
  strlen t + 1 <= SIZE_MAX - LOGGER_ENTRY_MAX_PAYLOAD ->
  strlen msg + 1 <= SIZE_MAX - LOGGER_ENTRY_MAX_PAYLOAD ->
  file_logger_overridden o = false -> loggable prio tag = true ->
  In log_id [LOG_ID_DEFAULT; LOG_ID_MAIN; LOG_ID_SYSTEM; LOG_ID_RADIO;
             LOG_ID_CRASH] ->
  exists dropped' evs,
    __android_log_buf_write loggable (__android_log_logd_logger o) default_tag
                            log_id prio tag msg dropped
    = Some (1, dropped', evs)
    /\ (forall h p, In (h, p) (records evs) ->
        hdr_id h = id /\ hdr_tid h = gettid (logd o) mod 2 ^ 16
        /\ gather p
           = take (Z.to_nat LOGGER_ENTRY_MAX_PAYLOAD)
                  (low_byte prio :: list_ascii_of_string t
                     ++ NUL :: list_ascii_of_string msg ++ [NUL]))
    /\ (0 <= socket_for (logd o) id -> getuid (logd o) <> AID_LOGD ->
        records evs <> []).
Proof.
  intros t id Hcap Ht Hm Hfile Hlog Hid.
  apply text_buffer_spec in Hid.
  rewrite (buf_write_text loggable o default_tag log_id prio tag msg dropped
                          Hfile Hlog Hid).
  fold t id. eexists _, _. split; [reflexivity|].
  rewrite records_app.
  replace (records (if prio =? ANDROID_LOG_FATAL then [SetAbortMessage msg] else []))
    with (@nil (android_log_header_t * list iovec))
    by (destruct (prio =? ANDROID_LOG_FATAL); reflexivity).
  cbn [app].
  pose proof (records_submit o dropped id (text_iovecs prio t msg) None) as [Hopen Hshut].
  cbv zeta in Hopen, Hshut.
  assert (Hgather : gather (copy_iovecs 0 (text_iovecs prio t msg))
                    = take (Z.to_nat LOGGER_ENTRY_MAX_PAYLOAD)
                           (low_byte prio :: list_ascii_of_string t
                              ++ NUL :: list_ascii_of_string msg ++ [NUL])).
  { rewrite copy_iovecs_gather.
    - rewrite Z.sub_0_r, gather_text_iovecs. reflexivity.
    - pose proof (strlen_nonneg t). pose proof (strlen_nonneg msg).
      unfold text_iovecs, fits. repeat constructor; cbn [iov_len]; lia.
    - apply text_iovecs_readable.
    - lia. }
  assert (Hidv : id mod 2 ^ 8 = id).
  { pose proof (text_buffer_id _ Hid) as Hin. cbv zeta in Hin. fold id in Hin.
    cbn [In] in Hin. unfold LOG_ID_MAIN, LOG_ID_SYSTEM, LOG_ID_RADIO, LOG_ID_CRASH in Hin.
    apply Z.mod_small. lia. }
  split.
  - intros h p Hin.
    destruct (Z.lt_ge_cases (socket_for (logd o) id) 0) as [Hneg|Hsock];
      [rewrite Hshut in Hin by (left; exact Hneg); destruct Hin|].
    destruct (Z.eq_dec (getuid (logd o)) AID_LOGD) as [Heq|Huid];
      [rewrite Hshut in Hin by (right; exact Heq); destruct Hin|].
    assert (Heq : (h, p) = (make_header id (logd o) (clock_realtime o),
                            copy_iovecs 0 (text_iovecs prio t msg))).
    { destruct (Hopen Hsock Huid) as [Hr|Hr]; rewrite Hr in Hin; cbn [In] in Hin;
        intuition congruence. }
    injection Heq as -> ->. cbn [make_header hdr_id hdr_tid].
    split; [exact Hidv|]. split; [reflexivity|exact Hgather].
  - intros Hsock Huid. destruct (Hopen Hsock Huid) as [Hr|Hr]; rewrite Hr; discriminate.
Qed.


Lemma buf_print_is_buf_write (loggable : Z -> option string -> bool)
      (logger_function : __android_logger_function) (default_tag : string)
      (log_id prio : Z) (tag : option string) (e : string) (dropped : Z) :
  __android_log_buf_print loggable logger_function default_tag log_id prio tag
                          (Some e) dropped
  = __android_log_buf_write loggable logger_function default_tag log_id prio tag
                            (c_string (vsnprintf LOG_BUF_SIZE e)) dropped.
Proof. reflexivity. Qed.

Lemma text_buffer_main : text_buffer LOG_ID_MAIN = true.
Proof. apply text_buffer_spec. right. left. reflexivity. Qed.

(** X6.  A message printed with [__android_log_print] is what [vsnprintf]
    left in the buffer, read as a C string: the expansion of the format cut
    at [LOG_BUF_SIZE - 1 = 1023] characters and, when it holds a NUL among
    these, at the first NUL; an expansion without a NUL is cut at 1023
    characters and at nothing else.  When the tag leaves room for it under
    the payload cap (its length plus 1026 is within the cap), [LogdWrite]
    then cuts nothing: every record datagram written is filed under the
    main buffer and carries the priority byte, the whole tag and the
    message, each with its terminating NUL; with an open socket outside
    logd there is such a datagram. *)
Theorem printed_message_is_cut_at_1023_and_sent_whole
        (loggable : Z -> option string -> bool) (o : environment)
        (default_tag : string) (prio : Z) (tag : option string)
        (e : string) (dropped : Z) :
  let t := match tag with Some t => t | None => default_tag end in
  let msg := c_string (vsnprintf LOG_BUF_SIZE e) in
  file_logger_overridden o = false -> loggable prio tag = true ->
  strlen t + 1026 <= LOGGER_ENTRY_MAX_PAYLOAD <= SIZE_MAX ->
  exists dropped' evs,
    __android_log_print loggable (__android_log_logd_logger o) default_tag
                        prio tag (Some e) dropped
    = Some (1, dropped', evs)
    /\ ~ In NUL (list_ascii_of_string msg)
    /\ (exists rest,
           take 1023 (list_ascii_of_string e) = list_ascii_of_string msg ++ rest
           /\ (rest = [] \/ exists rest', rest = NUL :: rest'))
    /\ (~ In NUL (take 1023 (list_ascii_of_string e)) ->
        list_ascii_of_string msg = take 1023 (list_ascii_of_string e))
    /\ (forall h p, In (h, p) (records evs) ->
        hdr_id h = LOG_ID_MAIN
        /\ p = text_iovecs prio t msg
        /\ gather p
           = low_byte prio :: list_ascii_of_string t
               ++ NUL :: list_ascii_of_string msg ++ [NUL])
    /\ (0 <= socket_for (logd o) LOG_ID_MAIN -> getuid (logd o) <> AID_LOGD ->
        records evs <> []).
Proof.
  intros t msg Hfile Hlog Hroom.
  unfold __android_log_print. rewrite buf_print_is_buf_write. fold msg.
  rewrite (buf_write_text loggable o default_tag LOG_ID_MAIN prio tag msg dropped
                          Hfile Hlog text_buffer_main).
  fold t.
  replace (if LOG_ID_MAIN =? LOG_ID_DEFAULT then LOG_ID_MAIN else LOG_ID_MAIN)
    with LOG_ID_MAIN by (destruct (LOG_ID_MAIN =? LOG_ID_DEFAULT); reflexivity).
  assert (Hbuf : list_ascii_of_string (vsnprintf LOG_BUF_SIZE e)
                 = take 1023 (list_ascii_of_string e))
    by apply substring_prefix.
  destruct (c_string_spec (vsnprintf LOG_BUF_SIZE e)) as [Hnul (rest & Hcut & Hrest)].
  fold msg in Hnul, Hcut. rewrite Hbuf in Hcut.
  eexists _, _. split; [reflexivity|]. split; [exact Hnul|].
  split; [exists rest; split; [exact Hcut|exact Hrest]|].
  split.
  { intros Hclean. rewrite <- Hbuf in Hclean |- *. unfold msg.
    rewrite (c_string_whole _ Hclean). reflexivity. }
  rewrite records_app.
  replace (records (if prio =? ANDROID_LOG_FATAL then [SetAbortMessage msg] else []))
    with (@nil (android_log_header_t * list iovec))
    by (destruct (prio =? ANDROID_LOG_FATAL); reflexivity).
  cbn [app].
  pose proof (records_submit o dropped LOG_ID_MAIN (text_iovecs prio t msg) None)
    as [Hopen Hshut].
  cbv zeta in Hopen, Hshut.
  split.
  2:{ intros Hsock Huid.
      destruct (Hopen Hsock Huid) as [Hr|Hr]; rewrite Hr; discriminate. }
  intros h p Hin.
  destruct (Z.lt_ge_cases (socket_for (logd o) LOG_ID_MAIN) 0) as [Hneg|Hsock];
    [rewrite Hshut in Hin by (left; exact Hneg); destruct Hin|].
  destruct (Z.eq_dec (getuid (logd o)) AID_LOGD) as [Heq|Huid];
    [rewrite Hshut in Hin by (right; exact Heq); destruct Hin|].
  assert (Heq : (h, p) = (make_header LOG_ID_MAIN (logd o) (clock_realtime o),
                          copy_iovecs 0 (text_iovecs prio t msg))).
  { destruct (Hopen Hsock Huid) as [Hr|Hr]; rewrite Hr in Hin; cbn [In] in Hin;
      intuition congruence. }
  assert (Hlen : strlen msg <= 1023).
  { pose proof (strlen_c_string (vsnprintf LOG_BUF_SIZE e)) as Hle. fold msg in Hle.
    unfold vsnprintf, LOG_BUF_SIZE in Hle. rewrite strlen_substring_prefix in Hle.
    lia. }
  pose proof (strlen_nonneg t). pose proof (strlen_nonneg msg).
  rewrite copy_iovecs_whole in Heq.
  - assert (Hh : h = make_header LOG_ID_MAIN (logd o) (clock_realtime o))
      by congruence.
    assert (Hp : p = text_iovecs prio t msg) by congruence.
    rewrite Hh, Hp. split; [reflexivity|]. split; [reflexivity|].
    rewrite gather_text_iovecs. reflexivity.
  - unfold text_iovecs. repeat constructor; cbn [iov_len]; lia.
  - lia.
  - rewrite total_len_text_iovecs. lia.
  - lia.
Qed.

Lemma take_c_string_bytes (s : string) :
  take (Z.to_nat (strlen s)) (c_string_bytes s) = list_ascii_of_string s.
Proof.
  unfold c_string_bytes, strlen. rewrite Nat2Z.id, <- length_list_ascii.
  rewrite take_app_length. reflexivity.
Qed.

(** X7.  [__android_log_bswrite] is never refused: it hands its four
    iovecs to [LogdWrite] for the events buffer, returns what [LogdWrite]
    returns, and passes the same array to pstore; with an open socket
    outside logd a record datagram is written.  Every record datagram
    carries, cut at the payload cap, the tag in four little-endian bytes,
    the type byte of a string, the length of the string in four
    little-endian bytes and the characters of the string without a
    terminating NUL.  The length field is written before the cut and is not
    adjusted by it: a string of fewer than 2^32 characters is announced with
    its full length even when the datagram holds less.
    [__android_log_security_bswrite] does the same for the security buffer
    when the permission check passes and security logging is on; otherwise
    it returns the negative value of the permission check, or -EPERM when
    security logging is off, and sends nothing. *)
Theorem string_event_is_tag_type_length_text
        (o : environment) (dropped tag : Z) (s : string) :
  0 <= LOGGER_ENTRY_MAX_PAYLOAD -> 4 <= SIZE_MAX - LOGGER_ENTRY_MAX_PAYLOAD ->
  strlen s <= SIZE_MAX - LOGGER_ENTRY_MAX_PAYLOAD -> strlen s < 2 ^ 32 ->
  let sent := le32 tag ++ low_byte EVENT_TYPE_STRING :: le32 (strlen s)
                ++ list_ascii_of_string s in
  let vec := [mk_iovec (le32 tag) 4; mk_iovec [low_byte EVENT_TYPE_STRING] 1;
              mk_iovec (le32 (strlen s)) 4;
              mk_iovec (list_ascii_of_string s ++ [NUL]) (strlen s)] in
  let sends (id : Z) (r : result) :=
    ret r = ret (LogdWrite (logd o) dropped id (clock_realtime o) vec)
    /\ dropped_out r
       = dropped_out (LogdWrite (logd o) dropped id (clock_realtime o) vec)
    /\ events r
       = events (LogdWrite (logd o) dropped id (clock_realtime o) vec)
           ++ [PmsgWrite id vec]
    /\ (0 <= socket_for (logd o) id -> getuid (logd o) <> AID_LOGD ->
        exists h p, In (h, p) (records (events r)))
    /\ (forall h p, In (h, p) (records (events r)) ->
                    hdr_id h = id
                    /\ gather p = take (Z.to_nat LOGGER_ENTRY_MAX_PAYLOAD) sent) in
  (exists r, __android_log_bswrite o dropped tag s = Some r
             /\ sends LOG_ID_EVENTS r)
  /\ (exists r, __android_log_security_bswrite o dropped tag s = Some r
                /\ (check_log_uid_permissions o < 0 ->
                    r = mk_result (check_log_uid_permissions o) dropped [])
                /\ (0 <= check_log_uid_permissions o ->
                    android_log_security o = false ->
                    r = mk_result (- EPERM) dropped [])
                /\ (0 <= check_log_uid_permissions o ->
                    android_log_security o = true ->
                    sends LOG_ID_SECURITY r)
                /\ (check_log_uid_permissions o < 0 \/ android_log_security o = false ->
                    ret r < 0 /\ events r = [] /\ dropped_out r = dropped)
                /\ forall h p, In (h, p) (records (events r)) ->
                               hdr_id h = LOG_ID_SECURITY
                               /\ gather p
                                  = take (Z.to_nat LOGGER_ENTRY_MAX_PAYLOAD) sent).
Proof.
  intros Hcap H4 Hs H32 sent vec sends.
  assert (Hlen : strlen s mod 2 ^ 32 = strlen s)
    by (apply Z.mod_small; pose proof (strlen_nonneg s); lia).
  assert (Hvec : string_event tag s = vec).
  { unfold string_event, vec, c_string_bytes. rewrite Hlen. reflexivity. }
  assert (Hgather : gather (copy_iovecs 0 (string_event tag s))
                    = take (Z.to_nat LOGGER_ENTRY_MAX_PAYLOAD) sent).
  { pose proof (strlen_nonneg s). rewrite copy_iovecs_gather.
    - rewrite Z.sub_0_r. f_equal. unfold gather, string_event.
      cbn [flat_map iov_len iov_base]. rewrite Hlen, take_c_string_bytes.
      rewrite !take_ge by (cbn; lia). rewrite app_nil_r. reflexivity.
    - unfold string_event, fits. rewrite Hlen.
      repeat constructor; cbn [iov_len]; lia.
    - unfold string_event, readable, c_string_bytes. rewrite Hlen.
      repeat constructor; cbn [iov_len iov_base];
        rewrite ?length_app, ?length_list_ascii; cbn; unfold strlen; lia.
    - lia. }
  assert (Hrec : forall id h p,
             In (h, p) (records (events (submit o dropped id (string_event tag s) None))) ->
             hdr_id h = id mod 2 ^ 8
             /\ gather p = take (Z.to_nat LOGGER_ENTRY_MAX_PAYLOAD) sent).
  { intros id h p Hin.
    pose proof (records_submit o dropped id (string_event tag s) None) as [Hopen Hshut].
    cbv zeta in Hopen, Hshut.
    destruct (Z.lt_ge_cases (socket_for (logd o) id) 0) as [Hneg|Hsock];
      [rewrite Hshut in Hin by (left; exact Hneg); destruct Hin|].
    destruct (Z.eq_dec (getuid (logd o)) AID_LOGD) as [Heq|Huid];
      [rewrite Hshut in Hin by (right; exact Heq); destruct Hin|].
    assert (Heq : (h, p) = (make_header id (logd o) (clock_realtime o),
                            copy_iovecs 0 (string_event tag s))).
    { destruct (Hopen Hsock Huid) as [Hr|Hr]; rewrite Hr in Hin; cbn [In] in Hin;
        intuition congruence. }
    injection Heq as -> ->. split; [reflexivity|exact Hgather]. }
  assert (Hsends : forall id, id mod 2 ^ 8 = id ->
             sends id (submit o dropped id (string_event tag s) None)).
  { intros id Hid. unfold sends. cbv beta. rewrite <- Hvec.
    split; [reflexivity|]. split; [reflexivity|]. split; [reflexivity|]. split.
    - intros Hsock Huid.
      destruct (proj1 (records_submit o dropped id (string_event tag s) None)
                      Hsock Huid) as [Hr|Hr]; rewrite Hr;
        eexists _, _; left; reflexivity.
    - intros h p Hin. destruct (Hrec id h p Hin) as [Hh Hg].
      split; [rewrite Hh; exact Hid|exact Hg]. }
  split.
  - exists (submit o dropped LOG_ID_EVENTS (string_event tag s) None).
    split; [reflexivity|]. apply Hsends. reflexivity.
  - unfold __android_log_security_bswrite, write_to_log.
    change (LOG_ID_SECURITY =? LOG_ID_KERNEL) with false.
    change (LOG_ID_SECURITY =? LOG_ID_SECURITY) with true. cbv iota.
    cbn [string_event lookup list_lookup iov_len]. change (4 <? 4) with false. cbv iota.
    destruct (Z.ltb_spec (check_log_uid_permissions o) 0) as [Hperm|Hperm].
    + eexists. split; [reflexivity|]. cbn [ret events dropped_out records flat_map].
      split; [reflexivity|]. split; [lia|]. split; [lia|].
      split; [intros _; repeat split; exact Hperm|]. intros h p [].
    + destruct (android_log_security o) eqn:Hsec; cbn [negb].
      * eexists. split; [reflexivity|]. split; [lia|]. split; [discriminate|].
        split; [intros _ _; apply (Hsends LOG_ID_SECURITY); reflexivity|].
        split; [intros [Hc|Hc]; [lia|discriminate Hc]|].
        intros h p Hin. exact (Hrec LOG_ID_SECURITY h p Hin).
      * eexists. split; [reflexivity|]. cbn [ret events dropped_out records flat_map].
        split; [lia|]. split; [reflexivity|]. split; [discriminate|].
        split; [intros _; repeat split; unfold EPERM; lia|]. intros h p [].
Qed.

(** X8.  The priority letter of [filestream_logger], with FATAL = 7 as in
    android/log.h: every priority from 0 up reads inside [log_characters];
    0 to 7 print X, X, V, D, I, W, E, F, every priority above SILENT (8)
    prints F, and SILENT itself prints the terminating NUL of the array; a
    negative priority reads before the array. *)
Theorem filestream_priority_letter (priority : Z) :
  ANDROID_LOG_FATAL = 7 ->
  (priority < 0 -> priority_char priority = None)
  /\ (0 <= priority ->
      exists c, priority_char priority = Some c
                /\ (c = NUL <-> priority = ANDROID_LOG_SILENT)
                /\ (priority < ANDROID_LOG_SILENT ->
                    list_ascii_of_string "XXVDIWEF" !! Z.to_nat priority = Some c)
                /\ (ANDROID_LOG_SILENT < priority -> c = "F"%char)).
Proof.
  intros Hfatal. unfold priority_char, ANDROID_LOG_SILENT.
  change (Z.of_nat (length log_characters) - 1) with 8. split.
  - intros Hneg. destruct (Z.ltb_spec 8 priority); [lia|].
    destruct (Z.ltb_spec priority 0); [reflexivity|lia].
  - intros Hpos. destruct (Z.ltb_spec 8 priority) as [Hbig|Hsmall].
    + rewrite Hfatal. cbn. eexists. split; [reflexivity|].
      split; [split; [discriminate|lia]|]. split; [lia|reflexivity].
    + destruct (Z.ltb_spec priority 0); [lia|].
      assert (Hcases : priority = 0 \/ priority = 1 \/ priority = 2 \/ priority = 3
                       \/ priority = 4 \/ priority = 5 \/ priority = 6
                       \/ priority = 7 \/ priority = 8) by lia.
      destruct Hcases as [-> | [-> | [-> | [-> | [-> | [-> | [-> | [-> | ->]]]]]]]];
        cbn; eexists; (split; [reflexivity|]);
        (split; [first [split; [discriminate|lia] | split; reflexivity]|]);
        (split; [first [reflexivity | lia]|lia]).
Qed.


End LogWritersProps.

Ltac evaluate :=
  vm_compute;
  first [reflexivity | discriminate | split; first [reflexivity | discriminate]].

Section LogWritersExamples.
Import LogdWriter LoggerWrite LogWriters.
#[local] Existing Instance aosp.
#[local] Existing Instance aosp_headers.

Lemma text_record_is_priority_tag_message_witness :
  exists dropped' evs,
    __android_log_buf_write (fun _ _ => true)
                            (__android_log_logd_logger (talker (SysOk 30)))
                            "app" LOG_ID_DEFAULT 4 None "hi" 0
    = Some (1, dropped', evs)
    /\ records evs <> [].
Proof.
  destruct (text_record_is_priority_tag_message
              (fun _ _ => true) (talker (SysOk 30)) "app" LOG_ID_DEFAULT 4 None
              "hi" 0) as (d' & evs & Heq & _ & Hne).
  - evaluate.
  - evaluate.
  - evaluate.
  - reflexivity.
  - reflexivity.
  - left. reflexivity.
  - exists d', evs. split; [exact Heq|]. apply Hne; cbn; lia.
Defined.


Lemma printed_message_is_cut_at_1023_and_sent_whole_witness :
  exists dropped' evs,
    __android_log_print (fun _ _ => true)
                        (__android_log_logd_logger (talker (SysOk 30)))
                        "app" 4 (Some "t")
                        (Some (String "a" (String "000" (String "b" EmptyString)))) 0
    = Some (1, dropped', evs)
    /\ (forall h p, In (h, p) (records evs) ->
                    gather p = ["004"; "t"; "000"; "a"; "000"]%char)
    /\ records evs <> [].
Proof.
  destruct (printed_message_is_cut_at_1023_and_sent_whole
              (fun _ _ => true) (talker (SysOk 30)) "app" 4 (Some "t")
              (String "a" (String "000" (String "b" EmptyString))) 0)
    as (d' & evs & Heq & _ & _ & _ & Hrec & Hsent).
  - reflexivity.
  - reflexivity.
  - evaluate.
  - exists d', evs. split; [exact Heq|]. split.
    + intros h p Hin. exact (proj2 (proj2 (Hrec h p Hin))).
    + apply Hsent; cbn; lia.
Defined.

Lemma string_event_is_tag_type_length_text_witness :
  exists r, __android_log_bswrite (talker (SysOk 30)) 0 1234 "boot" = Some r
            /\ ret r = 19
            /\ exists h p, In (h, p) (records (events r))
                           /\ gather p
                              = ["210"; "004"; "000"; "000"; "002";
                                 "004"; "000"; "000"; "000";
                                 "b"; "o"; "o"; "t"]%char.
Proof.
  destruct (string_event_is_tag_type_length_text (talker (SysOk 30)) 0 1234 "boot")
    as [(r & Heq & Hret & _ & _ & Hsent & Hrec) _].
  - evaluate.
  - evaluate.
  - evaluate.
  - evaluate.
  - exists r. split; [exact Heq|]. split; [rewrite Hret; reflexivity|].
    destruct Hsent as (h & p & Hin); [cbn; lia|cbn; lia|].
    exists h, p. split; [exact Hin|]. exact (proj2 (Hrec h p Hin)).
Defined.

Lemma filestream_priority_letter_witness :
  priority_char 8 = Some NUL /\ priority_char (-1) = None.
Proof.
  destruct (@filestream_priority_letter aosp 8 eq_refl) as [_ Hpos].
  destruct (@filestream_priority_letter aosp (-1) eq_refl) as [Hneg _].
  split; [|apply Hneg; lia].
  destruct (Hpos ltac:(lia)) as (c & Hc & Hnul & _).
  rewrite Hc. f_equal. apply Hnul. reflexivity.
Defined.


(** The same message when the file opens, and when an earlier message has
    fallen back to stderr. *)
Example file_logger_prints_to_the_stream :
  __android_log_buf_write (fun _ _ => true)
                          (__android_log_logd_logger file_logged)
                          "app" LOG_ID_MAIN 4 None "hi" 0
  = Some (1, 0, [FilestreamLog logfile 4 "app" "hi"])
  /\ __android_log_buf_write (fun _ _ => true)
                             (__android_log_logd_logger file_fallen_back)
                             "app" LOG_ID_MAIN 4 None "hi" 0
     = Some (1, 0, [FilestreamLog stderr 4 "app" "hi"]).
Proof. split; reflexivity. Qed.

(** A string longer than the cap allows: the datagram ends at the cap while
    its length field still announces the whole string. *)
Example long_string_event_is_cut :
  let s := string_of_list_ascii (repeat "a"%char 5000) in
  total_len (copy_iovecs 0 (string_event 1234 s)) = 4068
  /\ (string_event 1234 s) !! 2%nat = Some (mk_iovec (le32 5000) 4).
Proof. vm_compute. split; reflexivity. Qed.

End LogWritersExamples.

(** ** The start of the daemon: privileges first, then the sockets *)
Section LogdDaemonProps.
Import LogdDaemon.

(** The capabilities [DropPrivs] asks for. *)
Lemma DropPrivs_caps (klogd auditd : bool) :
  let caps :=
    if klogd
    then cap_set_flag (cap_set_flag cap_clear CAP_PERMITTED CAP_SYSLOG)
                      CAP_EFFECTIVE CAP_SYSLOG
    else cap_clear in
  let caps :=
    if auditd
    then cap_set_flag (cap_set_flag caps CAP_PERMITTED CAP_AUDIT_CONTROL)
                      CAP_EFFECTIVE CAP_AUDIT_CONTROL
    else caps in
  let wanted : gset Z :=
    (if klogd then {[CAP_SYSLOG]} else ∅)
      ∪ (if auditd then {[CAP_AUDIT_CONTROL]} else ∅) in
  permitted caps = wanted /\ effective caps = wanted /\ inheritable caps = ∅.
Proof.
  destruct klogd, auditd; cbn; repeat split; set_solver.
Qed.

(** The shape of a run of [DropPrivs]: the scheduling policy, the dumpable
    flag on a build that is not debuggable, and, only when all went well
    so far, [cap_set_proc] as the last call. *)
Lemma DropPrivs_shape (s : system) (klogd auditd : bool) :
  let wanted : gset Z :=
    (if klogd then {[CAP_SYSLOG]} else ∅)
      ∪ (if auditd then {[CAP_AUDIT_CONTROL]} else ∅) in
  let start :=
    SetSchedPolicy
      :: (if GetBoolProperty s "ro.debuggable" false then [] else [ClearDumpable]) in
  (exists message,
      (DropPrivs s klogd auditd).2 = Some message
      /\ ((DropPrivs s klogd auditd).1 = [SetSchedPolicy]
          \/ (DropPrivs s klogd auditd).1 = start
          \/ (cap_set_proc_ret s < 0
              /\ exists caps, (DropPrivs s klogd auditd).1 = start ++ [CapSetProc caps]
                              /\ permitted caps = wanted /\ effective caps = wanted
                              /\ inheritable caps = ∅)))
  \/ ((DropPrivs s klogd auditd).2 = None
      /\ 0 <= cap_set_proc_ret s
      /\ exists caps, (DropPrivs s klogd auditd).1 = start ++ [CapSetProc caps]
                      /\ permitted caps = wanted /\ effective caps = wanted
                      /\ inheritable caps = ∅).
Proof.
  intros wanted start. subst start wanted. unfold DropPrivs.
  destruct (set_sched_policy s <? 0);
    [left; eexists; split; [reflexivity|left; reflexivity]|].
  destruct (GetBoolProperty s "ro.debuggable" false), klogd, auditd;
    cbn [negb andb];
    repeat match goal with
      | |- context [prctl_dumpable s =? -1] =>
          destruct (prctl_dumpable s =? -1); cbn [andb orb fst snd]
      | |- context [cap_clear_ret s <? 0] =>
          destruct (cap_clear_ret s <? 0); cbn [andb orb fst snd]
      | |- context [cap_set_flag_ret s ?f ?c <? 0] =>
          destruct (cap_set_flag_ret s f c <? 0); cbn [andb orb fst snd]
      end;
    try (left; eexists; split; [reflexivity|right; left; reflexivity]).
  all: destruct (Z.ltb_spec (cap_set_proc_ret s) 0); cbn [fst snd];
    [left; eexists; split; [reflexivity|right; right; split; [assumption|]]
    |right; split; [reflexivity|split; [assumption|]]];
    eexists; (split; [reflexivity|]).
  all: first [exact (DropPrivs_caps true true) | exact (DropPrivs_caps true false)
             | exact (DropPrivs_caps false true) | exact (DropPrivs_caps false false)].
Qed.

(** X9.  [DropPrivs] hands to [cap_set_proc] a capability state whose
    permitted and effective sets are exactly CAP_SYSLOG when the kernel log
    is served and CAP_AUDIT_CONTROL when the audit log is, with nothing
    inheritable; it returns only after [cap_set_proc], its last call, and
    every call before it have succeeded, and on a build that is not
    debuggable only after the dumpable flag has been cleared. *)
Theorem DropPrivs_keeps_only_the_capabilities_asked_for
        (s : system) (klogd auditd : bool) :
  let evs := (DropPrivs s klogd auditd).1 in
  let wanted : gset Z :=
    (if klogd then {[CAP_SYSLOG]} else ∅)
      ∪ (if auditd then {[CAP_AUDIT_CONTROL]} else ∅) in
  (forall caps, In (CapSetProc caps) evs ->
                permitted caps = wanted /\ effective caps = wanted
                /\ inheritable caps = ∅)
  /\ ((DropPrivs s klogd auditd).2 = None ->
      (exists caps, last evs = Some (CapSetProc caps))
      /\ (In ClearDumpable evs <-> GetBoolProperty s "ro.debuggable" false = false)
      /\ 0 <= set_sched_policy s
      /\ (GetBoolProperty s "ro.debuggable" false = false -> prctl_dumpable s <> -1)
      /\ 0 <= cap_clear_ret s
      /\ (klogd = true -> 0 <= cap_set_flag_ret s CAP_PERMITTED CAP_SYSLOG
                          /\ 0 <= cap_set_flag_ret s CAP_EFFECTIVE CAP_SYSLOG)
      /\ (auditd = true -> 0 <= cap_set_flag_ret s CAP_PERMITTED CAP_AUDIT_CONTROL
                           /\ 0 <= cap_set_flag_ret s CAP_EFFECTIVE CAP_AUDIT_CONTROL)
      /\ 0 <= cap_set_proc_ret s).
Proof.
  intros evs wanted. subst evs. split.
  - intros caps Hin.
    destruct (DropPrivs_shape s klogd auditd)
      as [(m & _ & [He|[He|(_ & c & He & Hc)]])|(_ & _ & c & He & Hc)];
      rewrite He in Hin.
    + destruct Hin as [Hin|[]]; discriminate Hin.
    + destruct (GetBoolProperty s "ro.debuggable" false); cbn in Hin;
        intuition discriminate.
    + apply in_app_iff in Hin as [Hin|Hin].
      * destruct (GetBoolProperty s "ro.debuggable" false); cbn in Hin;
          intuition discriminate.
      * destruct Hin as [[= <-]|[]]. exact Hc.
    + apply in_app_iff in Hin as [Hin|Hin].
      * destruct (GetBoolProperty s "ro.debuggable" false); cbn in Hin;
          intuition discriminate.
      * destruct Hin as [[= <-]|[]]. exact Hc.
  - intros Hnone.
    destruct (DropPrivs_shape s klogd auditd)
      as [(m & Hm & _)|(_ & Hproc & c & He & _)];
      [rewrite Hm in Hnone; discriminate Hnone|].
    split; [exists c; rewrite He; apply last_snoc|].
    split.
    { rewrite He, in_app_iff.
      destruct (GetBoolProperty s "ro.debuggable" false); cbn;
        intuition discriminate. }
    revert Hnone. unfold DropPrivs.
    destruct (Z.ltb_spec (set_sched_policy s) 0); [discriminate|].
    destruct (GetBoolProperty s "ro.debuggable" false); cbn [negb andb].
    + destruct (Z.ltb_spec (cap_clear_ret s) 0); [discriminate|].
      destruct klogd, auditd; cbn [andb];
        repeat match goal with
          | |- context [cap_set_flag_ret s ?f ?c <? 0] =>
              destruct (Z.ltb_spec (cap_set_flag_ret s f c) 0); cbn [orb]
          end; try discriminate; intros _;
        repeat split; intros; try assumption; try discriminate.
    + destruct (Z.eqb_spec (prctl_dumpable s) (-1)); [discriminate|].
      destruct (Z.ltb_spec (cap_clear_ret s) 0); [discriminate|].
      destruct klogd, auditd; cbn [andb];
        repeat match goal with
          | |- context [cap_set_flag_ret s ?f ?c <? 0] =>
              destruct (Z.ltb_spec (cap_set_flag_ret s f c) 0); cbn [orb]
          end; try discriminate; intros _;
        repeat split; intros; try assumption; try discriminate.
Qed.




End LogdDaemonProps.

Section LogdDaemonExamples.
Import LogdDaemon.

Lemma DropPrivs_keeps_only_the_capabilities_asked_for_witness :
  (DropPrivs user_build false true).2 = None
  /\ exists caps, last (DropPrivs user_build false true).1 = Some (CapSetProc caps).
Proof.
  split; [reflexivity|].
  apply (proj2 (DropPrivs_keeps_only_the_capabilities_asked_for
                  user_build false true)).
  reflexivity.
Defined.


End LogdDaemonExamples.

(** ** [readDmesg]: the terminator, and when the replay stops *)
Section ReadDmesgProps.
Import ReadDmesg.






End ReadDmesgProps.

Section ReadDmesgExamples.
Import ReadDmesg.


End ReadDmesgExamples.

(** ** Bug metadata of audit messages *)
Section AuditMetadataProps.
Import AuditMetadata.

Lemma char_at_app_middle (body tail : list ascii) (c : ascii) :
  char_at (body ++ c :: tail) (Z.of_nat (length body)) = c.
Proof.
  unfold char_at. rewrite Nat2Z.id, app_nth2 by lia.
  rewrite Nat.sub_diag. reflexivity.
Qed.

Lemma char_at_split (str : list ascii) (i : Z) (c : ascii) :
  0 <= i < Z.of_nat (length str) -> char_at str i = c ->
  str = take (Z.to_nat i) str ++ c :: drop (S (Z.to_nat i)) str.
Proof.
  intros Hi Hc. unfold char_at in Hc.
  rewrite <- (take_drop (Z.to_nat i) str) at 1. f_equal.
  destruct (drop (Z.to_nat i) str) as [|x rest] eqn:Hd.
  - apply (f_equal length) in Hd. rewrite length_drop in Hd. cbn in Hd. lia.
  - assert (Hx : nth (Z.to_nat i) str NUL = x).
    { rewrite <- (take_drop (Z.to_nat i) str), Hd, app_nth2
        by (rewrite length_take; lia).
      rewrite length_take. replace (_ - _)%nat with O by lia. reflexivity. }
    rewrite <- Hc, Hx. f_equal.
    change (S (Z.to_nat i)) with (1 + Z.to_nat i)%nat.
    rewrite Nat.add_comm, <- drop_drop, Hd. reflexivity.
Qed.

(** X11.  [hasMetadata], for a length within the string: it holds exactly
    when the first [str_len] characters are at least 39 and have a '/'
    followed by exactly 8 or exactly 38 more characters, which is where a
    bug id of 8 characters puts it, alone or followed by the 30 characters
    of " duplicate messages suppressed".  A shorter message, or a bug id of
    another width, is not recognized. *)
Theorem hasMetadata_is_a_slash_9_or_39_from_the_end
        (str : list ascii) (str_len : Z) :
  0 <= str_len <= Z.of_nat (length str) ->
  hasMetadata str str_len = true
  <-> 39 <= str_len
      /\ exists body tail,
           take (Z.to_nat str_len) str = body ++ "/"%char :: tail
           /\ (length tail = 8%nat \/ length tail = 38%nat).
Proof.
  intros Hlen. unfold hasMetadata. split.
  - intros Hm. apply andb_true_iff in Hm as [H39 Hm]. apply Z.leb_le in H39.
    split; [exact H39|]. apply orb_true_iff in Hm as [Hm|Hm];
      apply Ascii.eqb_eq in Hm.
    + exists (take (Z.to_nat (str_len - 9)) str),
             (take 8 (drop (S (Z.to_nat (str_len - 9))) str)).
      split; [|left; rewrite length_take, length_drop; lia].
      rewrite (char_at_split str (str_len - 9) "/"%char) at 1 by (auto; lia).
      rewrite take_app_ge by (rewrite length_take; lia).
      rewrite length_take.
      replace (Z.to_nat str_len - _)%nat with 9%nat by lia. reflexivity.
    + exists (take (Z.to_nat (str_len - 39)) str),
             (take 38 (drop (S (Z.to_nat (str_len - 39))) str)).
      split; [|right; rewrite length_take, length_drop; lia].
      rewrite (char_at_split str (str_len - 39) "/"%char) at 1 by (auto; lia).
      rewrite take_app_ge by (rewrite length_take; lia).
      rewrite length_take.
      replace (Z.to_nat str_len - _)%nat with 39%nat by lia. reflexivity.
  - intros (H39 & body & tail & Hsplit & Htail).
    apply andb_true_iff. split; [apply Z.leb_le; exact H39|].
    assert (Hl : length (take (Z.to_nat str_len) str) = Z.to_nat str_len)
      by (rewrite length_take; lia).
    rewrite Hsplit, length_app in Hl. cbn [length] in Hl.
    assert (Hchar : forall i, 0 <= i < str_len ->
                              char_at str i = char_at (take (Z.to_nat str_len) str) i).
    { intros i Hi. unfold char_at.
      rewrite <- (take_drop (Z.to_nat str_len) str) at 1.
      rewrite app_nth1 by (rewrite length_take; lia). reflexivity. }
    apply orb_true_iff. destruct Htail as [Ht|Ht]; [left|right];
      rewrite Hchar by lia; rewrite Hsplit.
    + replace (str_len - 9) with (Z.of_nat (length body)) by lia.
      rewrite char_at_app_middle. reflexivity.
    + replace (str_len - 39) with (Z.of_nat (length body)) by lia.
      rewrite char_at_app_middle. reflexivity.
Qed.

(** *** [find] *)

Lemma find_Some (s needle : list ascii) (i : nat) :
  find s needle = Some i <-> first_at s needle i.
Proof.
  unfold first_at. revert i. induction s as [|c s IH]; intros i.
  - cbn [find]. destruct (is_prefix needle []) eqn:Hp.
    + split.
      * intros [= <-]. split; [exact Hp|]. intros k Hk. lia.
      * intros [_ Hfirst]. destruct i as [|i]; [reflexivity|].
        specialize (Hfirst O ltac:(lia)). cbn in Hfirst. congruence.
    + split; [discriminate|]. intros [Hi _]. rewrite drop_nil in Hi. congruence.
  - cbn [find]. destruct (is_prefix needle (c :: s)) eqn:Hp.
    + split.
      * intros [= <-]. split; [exact Hp|]. intros k Hk. lia.
      * intros [_ Hfirst]. destruct i as [|i]; [reflexivity|].
        specialize (Hfirst O ltac:(lia)). cbn in Hfirst. congruence.
    + destruct i as [|i].
      * split; [destruct (find s needle); discriminate|].
        intros [Hi _]. cbn in Hi. congruence.
      * specialize (IH i). split.
        -- destruct (find s needle) as [j|]; [|discriminate].
           intros [= ->]. destruct (proj1 IH eq_refl) as [Hi Hfirst].
           split; [exact Hi|]. intros [|k] Hk; [exact Hp|]. apply Hfirst. lia.
        -- intros [Hi Hfirst]. rewrite (proj2 IH); [reflexivity|].
           split; [exact Hi|]. intros k Hk. apply (Hfirst (S k)). lia.
Qed.

Lemma find_None (s needle : list ascii) :
  find s needle = None <-> forall k, is_prefix needle (drop k s) = false.
Proof.
  induction s as [|c s IH].
  - cbn [find]. destruct (is_prefix needle []) eqn:Hp.
    + split; [discriminate|]. intros Hall. specialize (Hall O). cbn in Hall. congruence.
    + split; [|reflexivity]. intros _ k. rewrite drop_nil. exact Hp.
  - cbn [find]. destruct (is_prefix needle (c :: s)) eqn:Hp.
    + split; [discriminate|]. intros Hall. specialize (Hall O). cbn in Hall. congruence.
    + split.
      * destruct (find s needle); [discriminate|]. intros _ [|k]; [exact Hp|].
        apply (proj1 IH eq_refl).
      * intros Hall. rewrite (proj2 IH); [reflexivity|].
        intros k. apply (Hall (S k)).
Qed.

Lemma find_char_Some (s : list ascii) (c : ascii) (n : nat) :
  find_char s c = Some n ->
  ~ In c (take n s) /\ exists post, drop n s = c :: post.
Proof.
  revert n. induction s as [|x s IH]; intros n; cbn [find_char]; [discriminate|].
  destruct (Ascii.eqb_spec x c) as [->|Hne].
  - intros [= <-]. split; [intros []|]. exists s. reflexivity.
  - destruct (find_char s c) as [m|]; [|discriminate]. intros [= <-].
    destruct (IH m eq_refl) as [Hnot Hpost]. split; [|exact Hpost].
    cbn. intros [Heq|Hin]; [contradiction|exact (Hnot Hin)].
Qed.

Lemma find_char_None (s : list ascii) (c : ascii) :
  find_char s c = None <-> ~ In c s.
Proof.
  induction s as [|x s IH]; cbn [find_char]; [split; [intros _ []|reflexivity]|].
  destruct (Ascii.eqb_spec x c) as [->|Hne].
  - split; [discriminate|]. intros Hnot. exfalso. apply Hnot. left. reflexivity.
  - destruct (find_char s c) as [m|].
    + split; [discriminate|]. intros Hnot. exfalso.
      assert (Hs : ~ In c s) by (intros Hin; apply Hnot; right; exact Hin).
      apply IH in Hs. discriminate Hs.
    + split; [|reflexivity]. intros _ [Heq|Hin]; [contradiction|].
      exact (proj1 IH eq_refl Hin).
Qed.

Lemma find_char_app (v post : list ascii) (c : ascii) :
  ~ In c v -> find_char (v ++ c :: post) c = Some (length v).
Proof.
  induction v as [|x v IH]; intros Hnot; cbn [find_char app length].
  - rewrite Ascii.eqb_refl. reflexivity.
  - destruct (Ascii.eqb_spec x c) as [->|Hne];
      [exfalso; apply Hnot; left; reflexivity|].
    rewrite IH; [reflexivity|]. intros Hin. apply Hnot. right. exact Hin.
Qed.

(** What [denialParse] returns once the search term is found at [i]. *)
Lemma denialParse_found (denial : list ascii) (terminator : ascii)
      (search_term : list ascii) (i : nat) :
  first_at denial search_term i ->
  let rest := drop (i + length search_term) denial in
  denialParse denial terminator search_term
  = match find_char rest terminator with
    | Some n => take n rest
    | None => rest
    end.
Proof.
  intros Hi. unfold denialParse. rewrite (proj2 (find_Some _ _ _) Hi). reflexivity.
Qed.

(** X12.  [denialParse] returns the text that follows the first occurrence
    of the search term, up to the next terminator or, when there is none,
    to the end of the denial; it returns the empty string when the search
    term does not occur.  The result never contains the terminator. *)
Theorem denialParse_is_the_field_after_the_first_search_term
        (denial : list ascii) (terminator : ascii) (search_term : list ascii) :
  ~ In terminator (denialParse denial terminator search_term)
  /\ ((forall k, is_prefix search_term (drop k denial) = false) ->
      denialParse denial terminator search_term = [])
  /\ (forall pre v post,
         denial = pre ++ search_term ++ v ++ terminator :: post ->
         first_at denial search_term (length pre) -> ~ In terminator v ->
         denialParse denial terminator search_term = v)
  /\ (forall pre v,
         denial = pre ++ search_term ++ v ->
         first_at denial search_term (length pre) -> ~ In terminator v ->
         denialParse denial terminator search_term = v).
Proof.
  split; [|split; [|split]].
  - unfold denialParse. destruct (find denial search_term) as [i|]; [|intros []].
    cbv zeta.
    destruct (find_char (drop (i + length search_term) denial) terminator)
      as [n|] eqn:Hf.
    + exact (proj1 (find_char_Some _ _ _ Hf)).
    + apply find_char_None. exact Hf.
  - intros Hnone. unfold denialParse.
    rewrite (proj2 (find_None denial search_term) Hnone). reflexivity.
  - intros pre v post Hd Hfirst Hv.
    rewrite (denialParse_found denial terminator search_term (length pre) Hfirst).
    cbv zeta.
    assert (Hrest : drop (length pre + length search_term) denial
                    = v ++ terminator :: post).
    { rewrite Hd, app_assoc, <- length_app, drop_app_length. reflexivity. }
    rewrite Hrest, find_char_app by exact Hv.
    rewrite take_app_length. reflexivity.
  - intros pre v Hd Hfirst Hv.
    rewrite (denialParse_found denial terminator search_term (length pre) Hfirst).
    cbv zeta.
    assert (Hrest : drop (length pre + length search_term) denial = v).
    { rewrite Hd, app_assoc, <- length_app, drop_app_length. reflexivity. }
    rewrite Hrest, (proj2 (find_char_None v terminator) Hv). reflexivity.
Qed.

(** *** The bug map *)

Lemma try_emplace_lookup (m : gmap denial (list ascii)) (k key : denial)
      (bug : list ascii) :
  try_emplace m k bug !! key
  = match m !! key with
    | Some b => Some b
    | None => if bool_decide (k = key) then Some bug else None
    end.
Proof.
  unfold try_emplace. destruct (m !! k) as [b|] eqn:Hk.
  - destruct (m !! key) as [b'|] eqn:Hkey; [reflexivity|].
    case_bool_decide as Heq; [|reflexivity]. subst. congruence.
  - case_bool_decide as Heq.
    + subst. rewrite lookup_insert_eq, Hk. reflexivity.
    + rewrite lookup_insert_ne by exact Heq.
      destruct (m !! key); reflexivity.
Qed.

Lemma add_line_map (acc : gmap denial (list ascii) * Z) (line : list ascii) :
  (add_line acc line).1
  = match definition_of line with
    | Some (k, bug) => try_emplace acc.1 k bug
    | None => acc.1
    end.
Proof.
  unfold add_line, definition_of.
  destruct (Tokenize line " ") as [|f1 [|f2 [|f3 [|f4 [|f5 rest]]]]];
    try reflexivity; destruct (is_prefix ["#"%char] f1); reflexivity.
Qed.

Lemma add_lines_lookup (lines : list (list ascii))
      (acc : gmap denial (list ascii) * Z) (key : denial) :
  (fold_left add_line lines acc).1 !! key
  = match acc.1 !! key with
    | Some b => Some b
    | None => first_definition key (omap definition_of lines)
    end.
Proof.
  revert acc. induction lines as [|line lines IH]; intros acc.
  - cbn. destruct (acc.1 !! key); reflexivity.
  - cbn [fold_left].
    change (omap definition_of (line :: lines))
      with (match definition_of line with
            | Some d => d :: omap definition_of lines
            | None => omap definition_of lines
            end).
    rewrite IH, add_line_map.
    destruct (definition_of line) as [[k bug]|]; [|reflexivity].
    rewrite try_emplace_lookup. cbn [first_definition].
    destruct (acc.1 !! key); [reflexivity|].
    case_bool_decide; reflexivity.
Qed.

Lemma first_definition_app (key : denial) (a b : list (denial * list ascii)) :
  first_definition key (a ++ b)
  = match first_definition key a with
    | Some bug => Some bug
    | None => first_definition key b
    end.
Proof.
  induction a as [|[k bug] a IH]; [reflexivity|].
  cbn. case_bool_decide; [reflexivity|exact IH].
Qed.

Lemma add_files_lookup (ReadFileToString : string -> option (list ascii))
      (files : list string) (m : gmap denial (list ascii)) (key : denial) :
  fold_left (add_file ReadFileToString) files m !! key
  = match m !! key with
    | Some b => Some b
    | None =>
        first_definition
          key
          (flat_map (fun bug_map_file =>
                       match ReadFileToString bug_map_file with
                       | None => []
                       | Some file_contents =>
                           omap definition_of
                                (Split file_contents (ascii_of_nat 10))
                       end) files)
    end.
Proof.
  revert m. induction files as [|f files IH]; intros m.
  - cbn. destruct (m !! key); reflexivity.
  - cbn [fold_left flat_map]. rewrite IH.
    assert (Hf : add_file ReadFileToString m f !! key
                 = match m !! key with
                   | Some b => Some b
                   | None =>
                       first_definition
                         key
                         match ReadFileToString f with
                         | None => []
                         | Some file_contents =>
                             omap definition_of
                                  (Split file_contents (ascii_of_nat 10))
                         end
                   end).
    { unfold add_file. destruct (ReadFileToString f) as [contents|].
      - rewrite add_lines_lookup. reflexivity.
      - cbn. destruct (m !! key); reflexivity. }
    rewrite Hf, first_definition_app.
    destruct (m !! key); [reflexivity|].
    destruct (first_definition key _); reflexivity.
Qed.

(** X13.  The bug recorded for a denial by [populateDenialMap] is the one
    of its first definition, the files being read in the order system_ext,
    vendor, system and each file from its first line down; a later
    definition of the same (scontext, tcontext, tclass) changes nothing.
    Only lines of exactly four fields that do not start with '#' define
    anything, and a file that cannot be read is skipped. *)
Theorem populateDenialMap_keeps_the_first_definition
        (ReadFileToString : string -> option (list ascii)) (key : denial) :
  populateDenialMap ReadFileToString !! key
  = first_definition key (definitions ReadFileToString).
Proof.
  unfold populateDenialMap, definitions. rewrite add_files_lookup.
  rewrite lookup_empty. reflexivity.
Qed.

End AuditMetadataProps.

Section AuditMetadataExamples.
Import AuditMetadata.

Lemma hasMetadata_is_a_slash_9_or_39_from_the_end_witness :
  let str := list_ascii_of_string
               "avc: denied { read } for scontext=u:r:shell:s0 b/12345678" in
  39 <= Z.of_nat (length str)
  /\ exists body tail,
       take (Z.to_nat (Z.of_nat (length str))) str = body ++ "/"%char :: tail
       /\ (length tail = 8%nat \/ length tail = 38%nat).
Proof.
  intros str.
  apply (proj1 (hasMetadata_is_a_slash_9_or_39_from_the_end
                  str (Z.of_nat (length str)) ltac:(lia))).
  reflexivity.
Defined.

Lemma denialParse_is_the_field_after_the_first_search_term_witness :
  denialParse (list_ascii_of_string "denied scontext=u:r:shell:s0 tclass=file")
              ":" (list_ascii_of_string "scontext=u:r:")
  = list_ascii_of_string "shell".
Proof.
  apply (proj1 (proj2 (proj2
           (denialParse_is_the_field_after_the_first_search_term
              (list_ascii_of_string "denied scontext=u:r:shell:s0 tclass=file")
              ":" (list_ascii_of_string "scontext=u:r:"))))
           (list_ascii_of_string "denied ") (list_ascii_of_string "shell")
           (list_ascii_of_string "s0 tclass=file")).
  - reflexivity.
  - split; [reflexivity|].
    intros k Hk.
    assert (Hcases : (k = 0 \/ k = 1 \/ k = 2 \/ k = 3 \/ k = 4 \/ k = 5 \/ k = 6)%nat)
      by (cbn in Hk; lia).
    destruct Hcases as [-> | [-> | [-> | [-> | [-> | [-> | ->]]]]]]; reflexivity.
  - cbn. intros Hin. repeat destruct Hin as [Hin|Hin]; try discriminate Hin.
    exact Hin.
Defined.

(** The definition of /system_ext wins over the one of /system; a comment
    and a line of three fields define nothing; runs of spaces separate
    fields like single ones. *)
Example populateDenialMap_two_maps :
  populateDenialMap two_maps
    !! (list_ascii_of_string "shell", list_ascii_of_string "file_a",
        list_ascii_of_string "file")
  = Some (list_ascii_of_string "111")
  /\ populateDenialMap two_maps
       !! (list_ascii_of_string "shell", list_ascii_of_string "file_b",
           list_ascii_of_string "dir")
     = Some (list_ascii_of_string "333")
  /\ populateDenialMap two_maps
       !! (list_ascii_of_string "too", list_ascii_of_string "few",
           list_ascii_of_string "fields")
     = None.
Proof.
  rewrite !populateDenialMap_keeps_the_first_definition.
  vm_compute. repeat split.
Qed.

End AuditMetadataExamples.

(** ** [logPrint]: the pid, the time stamp, the two records, the result *)
Section AuditPrintProps.
Context `{P : Platform} `{H : LogWriters.LogHeaders}
        `{A : AuditPrint.AuditHeaders} `{I : AuditMetadata.AppIds}.
Import LoggerWrite LogWriters LogAudit AuditMetadata AuditPrint.

Lemma read_digits_app (digits rest : list ascii) (pid : Z) :
  Forall (fun c => isdigit c = true) digits ->
  isdigit (nth 0 rest NUL) = false ->
  read_digits (digits ++ rest) pid
  = (fold_left (fun pid c => pid * 10 + (Z.of_N (N_of_ascii c) - 48)) digits pid,
     rest).
Proof.
  intros Hd Hrest. revert pid. induction Hd as [|c digits Hc Hd IH]; intros pid.
  - cbn [app fold_left]. destruct rest as [|c rest]; [reflexivity|].
    cbn [read_digits]. cbn in Hrest. rewrite Hrest. reflexivity.
  - cbn [app read_digits fold_left]. rewrite Hc. apply IH.
Qed.

Lemma drop_past_marker (pre marker rest : list ascii) :
  drop (length pre + length marker) (pre ++ marker ++ rest) = rest.
Proof.
  rewrite <- drop_drop, drop_app_length, drop_app_length. reflexivity.
Qed.

(** X14.  When the first " pid=" of the message is followed by decimal
    digits, [logPrint] takes their value as the pid and as the tid of the
    records, asks [pidToUid] for the uid, and cuts " pid=" and the digits
    out of the text; a value above INT_MAX overflows the [pid_t] it is
    accumulated in.  Without " pid=" the records carry the pid and tid of
    logd and the uid AID_LOGD, and the text stays. *)
Theorem pid_field_is_read_and_cut_out
        (w : world) (pre digits rest : list ascii) :
  strstr (pre ++ pid_str ++ digits ++ rest) pid_str = Some (length pre) ->
  digits <> [] -> Forall (fun c => isdigit c = true) digits ->
  isdigit (nth 0 rest NUL) = false ->
  (decimal_value digits <= INT_MAX ->
   take_pid w (pre ++ pid_str ++ digits ++ rest)
   = Some (decimal_value digits, decimal_value digits,
           pidToUid w (decimal_value digits), pre ++ rest))
  /\ (INT_MAX < decimal_value digits ->
      take_pid w (pre ++ pid_str ++ digits ++ rest) = None)
  /\ (forall str, strstr str pid_str = None ->
                  take_pid w str = Some (getpid w, gettid w, AID_LOGD, str)).
Proof.
  intros Hfirst Hne Hd Hrest.
  assert (Hcp : drop (length pre + length pid_str) (pre ++ pid_str ++ digits ++ rest)
                = digits ++ rest) by apply drop_past_marker.
  assert (Hhead : isdigit (nth 0 (digits ++ rest) NUL) = true).
  { destruct digits as [|c digits]; [contradiction|].
    inversion Hd; subst. assumption. }
  assert (Hunfold : take_pid w (pre ++ pid_str ++ digits ++ rest)
                    = if INT_MAX <? decimal_value digits then None
                      else Some (decimal_value digits, decimal_value digits,
                                 pidToUid w (decimal_value digits), pre ++ rest)).
  { unfold take_pid. rewrite Hfirst. cbv zeta. rewrite Hcp, Hhead.
    rewrite (read_digits_app digits rest 0 Hd Hrest). fold (decimal_value digits).
    rewrite take_app_length. reflexivity. }
  split; [|split].
  - intros Hv. rewrite Hunfold.
    destruct (Z.ltb_spec INT_MAX (decimal_value digits)); [lia|reflexivity].
  - intros Hv. rewrite Hunfold.
    destruct (Z.ltb_spec INT_MAX (decimal_value digits)); [reflexivity|lia].
  - intros str Hnone. unfold take_pid. rewrite Hnone. reflexivity.
Qed.

Lemma strstr_bound (needle : list ascii) :
  forall (buf : list ascii) (i : nat),
    strstr buf needle = Some i -> (i + length needle <= length buf)%nat.
Proof.
  assert (Hsw : forall needle mem, starts_with needle mem = true ->
                                   (length needle <= length mem)%nat).
  { induction needle0 as [|n needle0 IH]; intros mem; cbn; [lia|].
    destruct mem as [|c mem]; [discriminate|].
    destruct (Ascii.eqb c NUL); [discriminate|].
    intros Hs. apply andb_true_iff in Hs as [_ Hs]. apply IH in Hs. cbn. lia. }
  induction buf as [|x buf IH]; intros i; cbn [strstr].
  - destruct (starts_with needle []) eqn:Hs; [|discriminate].
    intros [= <-]. apply Hsw in Hs. cbn in *. lia.
  - destruct (starts_with needle (x :: buf)) eqn:Hs.
    + intros [= <-]. apply Hsw in Hs. cbn in *. lia.
    + destruct (Ascii.eqb x NUL); [discriminate|].
      destruct (strstr buf needle) as [k|] eqn:Hk; [|discriminate].
      intros [= <-]. specialize (IH k eq_refl). cbn. lia.
Qed.

(** X15.  When the first " audit(" of the message is followed by a time
    stamp that [strptime] reads, of three characters or more and ending at
    a ':', the record gets that time and the stamp is replaced by "0.0" in
    the text; in every other case in which the call goes on (no " audit(",
    a stamp that [strptime] does not read, or one that does not end at a
    ':') the record gets the current time and the text stays.  A stamp of
    fewer than three characters that ends at a ':' is overwritten by the
    longer "0.0", which is outside what the embedding defines.  The text
    never gets longer, so the replacement fits the buffer it is made in. *)
Theorem time_stamp_is_replaced_by_zero (w : world) :
  (forall pre stamp rest now,
      strstr (pre ++ audit_str ++ stamp ++ ":"%char :: rest) audit_str
      = Some (length pre) ->
      strptime w (stamp ++ ":"%char :: rest) = Some (now, length stamp) ->
      (3 <= length stamp)%nat ->
      take_time w (pre ++ audit_str ++ stamp ++ ":"%char :: rest)
      = Some (now, pre ++ audit_str ++ list_ascii_of_string "0.0"
                       ++ ":"%char :: rest))
  /\ (forall str now str',
         take_time w str = Some (now, str') ->
         (length str' <= length str)%nat
         /\ ((exists timeptr consumed,
                 strstr str audit_str = Some timeptr
                 /\ strptime w (drop (timeptr + length audit_str) str)
                    = Some (now, consumed)
                 /\ nth consumed (drop (timeptr + length audit_str) str) NUL
                    = ":"%char
                 /\ (3 <= consumed)%nat
                 /\ str' = take (timeptr + length audit_str) str
                             ++ list_ascii_of_string "0.0"
                             ++ drop (timeptr + length audit_str + consumed) str)
             \/ (now = clock_realtime w /\ str' = str
                 /\ (strstr str audit_str = None
                     \/ exists timeptr,
                         strstr str audit_str = Some timeptr
                         /\ (strptime w (drop (timeptr + length audit_str) str)
                             = None
                             \/ exists t consumed,
                                 strptime w (drop (timeptr + length audit_str) str)
                                 = Some (t, consumed)
                                 /\ nth consumed
                                        (drop (timeptr + length audit_str) str) NUL
                                    <> ":"%char)))))
  /\ (forall str,
         strstr str audit_str = None ->
         take_time w str = Some (clock_realtime w, str))
  /\ (forall str timeptr,
         strstr str audit_str = Some timeptr ->
         let stamp := drop (timeptr + length audit_str) str in
         (strptime w stamp = None ->
          take_time w str = Some (clock_realtime w, str))
         /\ (forall t consumed,
                strptime w stamp = Some (t, consumed) ->
                (nth consumed stamp NUL <> ":"%char ->
                 take_time w str = Some (clock_realtime w, str))
                /\ (nth consumed stamp NUL = ":"%char -> (consumed < 3)%nat ->
                    take_time w str = None)
                /\ (nth consumed stamp NUL = ":"%char -> (3 <= consumed)%nat ->
                    take_time w str
                    = Some (t, take (timeptr + length audit_str) str
                                 ++ list_ascii_of_string "0.0"
                                 ++ drop consumed stamp)))).
Proof.
  split; [|split; [|split]].
  - intros pre stamp rest now Hfirst Htime Hlen. unfold take_time.
    rewrite Hfirst, drop_past_marker, Htime.
    rewrite app_nth2 by lia. rewrite Nat.sub_diag. cbn [nth].
    change (Ascii.eqb ":" ":") with true. cbv iota.
    destruct (Nat.ltb_spec (length stamp) 3); [lia|].
    rewrite drop_app_length.
    rewrite (app_assoc pre audit_str), <- length_app, take_app_length.
    rewrite <- app_assoc. reflexivity.
  - intros str now str' Ht. unfold take_time in Ht.
    destruct (strstr str audit_str) as [timeptr|] eqn:Hs.
    2: { injection Ht as <- <-. split; [lia|]. right.
         split; [reflexivity|]. split; [reflexivity|]. left. reflexivity. }
    pose proof (strstr_bound _ _ _ Hs) as Hb.
    destruct (strptime w (drop (timeptr + length audit_str) str))
      as [[t consumed]|] eqn:Hp.
    2: { injection Ht as <- <-. split; [lia|]. right.
         split; [reflexivity|]. split; [reflexivity|]. right.
         exists timeptr. split; [reflexivity|]. left. exact Hp. }
    destruct (Ascii.eqb_spec (nth consumed (drop (timeptr + length audit_str) str) NUL)
                             ":"%char) as [Hcolon|Hcolon].
    2: { injection Ht as <- <-. split; [lia|]. right.
         split; [reflexivity|]. split; [reflexivity|]. right.
         exists timeptr. split; [reflexivity|]. right.
         exists t, consumed. split; [exact Hp|exact Hcolon]. }
    destruct (Nat.ltb_spec consumed 3) as [Hlt|Hge]; [discriminate Ht|].
    injection Ht as <- <-.
    assert (Hin : (consumed < length (drop (timeptr + length audit_str) str))%nat).
    { destruct (Nat.lt_ge_cases consumed
                  (length (drop (timeptr + length audit_str) str))) as [Hl|Hl];
        [exact Hl|].
      rewrite nth_overflow in Hcolon by exact Hl. discriminate Hcolon. }
    rewrite length_drop in Hin.
    split.
    { rewrite length_app, length_take. cbn [list_ascii_of_string app length].
      rewrite !length_drop. cbn [length audit_str list_ascii_of_string] in *. lia. }
    left. exists timeptr, consumed. split; [reflexivity|].
    split; [exact Hp|]. split; [exact Hcolon|]. split; [exact Hge|].
    rewrite drop_drop. reflexivity.
  - intros str Hnone. unfold take_time. rewrite Hnone. reflexivity.
  - intros str timeptr Hs stamp. unfold take_time. rewrite Hs. fold stamp. split.
    + intros ->. reflexivity.
    + intros t consumed ->. repeat split.
      * intros Hc. destruct (Ascii.eqb_spec (nth consumed stamp NUL) ":"%char);
          [contradiction|reflexivity].
      * intros -> Hlt. change (Ascii.eqb ":" ":") with true. cbv iota.
        destruct (Nat.ltb_spec consumed 3); [reflexivity|lia].
      * intros -> Hge. change (Ascii.eqb ":" ":") with true. cbv iota.
        destruct (Nat.ltb_spec consumed 3); [lia|reflexivity].
Qed.

(** The two ways out of [logPrint] before anything is done. *)
Lemma logPrint_early (this : LogAudit) (w : world) (previous : list ascii) :
  logPrint this w previous None = Some (mk_result (- EINVAL) previous [])
  /\ forall v, vasprintf_rc v < 0 ->
               logPrint this w previous (Some v)
               = Some (mk_result (vasprintf_rc v) previous []).
Proof.
  split; [reflexivity|]. intros v Hv. unfold logPrint.
  destruct (Z.ltb_spec (vasprintf_rc v) 0); [reflexivity|lia].
Qed.

(** What a call that logs to a buffer has done when it returns. *)
Lemma logPrint_logs (this : LogAudit) (w : world) (previous : list ascii)
      (v : vasprintf_result) (r : result) :
  0 <= vasprintf_rc v ->
  logPrint this w previous (Some v) = Some r ->
  main this = true \/ events this = true ->
  exists pid tid uid str1 now str,
    take_pid w (replace_newlines (c_str (vasprintf_str v)))
    = Some (pid, tid, uid, str1)
    /\ take_time w str1 = Some (now, str)
    /\ let info :=
         found (strstr str1 (list_ascii_of_string " permissive=1"))
         || found (strstr str1 (list_ascii_of_string " policy loaded ")) in
       let dmesg := (0 <=? fdDmesg this) && initialized this in
       let dm := denial_metadata_after r in
       let n := event_str_len (strnlen str LOGGER_ENTRY_MAX_PAYLOAD) dm in
       let M := main_message w info str dm pid tid in
       let rc_last := if main this then Log_main w else Log_events w in
       let accepted :=
         (events this && (0 <=? Log_events w)) || (main this && (0 <=? Log_main w)) in
       dm = (if negb dmesg
                && negb (hasMetadata str (strnlen str LOGGER_ENTRY_MAX_PAYLOAD))
             then auditParse (denial_to_bug w) (uidToName w) str uid
             else if dmesg then auditParse (denial_to_bug w) (uidToName w) str1 uid
                  else previous)
       /\ (events this = true -> Z.of_nat (length dm) <= n)
       /\ written r
          = (if dmesg then
               [DmesgWritev (fdDmesg this)
                            [if info then KMSG_PRIORITY LOG_INFO
                             else KMSG_PRIORITY LOG_WARNING;
                             str1;
                             auditParse (denial_to_bug w) (uidToName w) str1 uid;
                             [LF]]]
             else [])
              ++ (if events this then
                    [Log LOG_ID_EVENTS now uid pid tid
                         (le32 AUDITD_LOG_TAG ++ [low_byte EVENT_TYPE_STRING]
                            ++ le32 n
                            ++ take (Z.to_nat (n - Z.of_nat (length dm))) str ++ dm)
                         (log_len (n + sizeof_event_string))]
                  else [])
              ++ (if main this then
                    [Log LOG_ID_MAIN now uid M.2 tid M.1.1 (log_len M.1.2)]
                  else [])
       /\ rc r = (if accepted
                  then if rc_last <? 0 then to_int M.1.2 else rc_last
                  else rc_last).
Proof.
  unfold logPrint. intros Hv Hr Hon.
  destruct (Z.ltb_spec (vasprintf_rc v) 0) as [Hneg|_]; [lia|]. cbv zeta in Hr.
  destruct (take_pid w (replace_newlines (c_str (vasprintf_str v))))
    as [[[[pid tid] uid] str1]|] eqn:Hpid; [|discriminate Hr].
  cbv zeta in Hr.
  set (dmesg := (0 <=? fdDmesg this) && initialized this) in *.
  assert (Hoff : negb (main this) && negb (events this) = false)
    by (destruct Hon as [-> | ->]; [reflexivity|apply andb_false_r]).
  rewrite Hoff in Hr.
  destruct (take_time w str1) as [[now str]|] eqn:Htime; [|discriminate Hr].
  exists pid, tid, uid, str1, now, str. split; [reflexivity|]. split; [exact Htime|].
  cbv zeta.
  set (dm := if negb dmesg
                && negb (hasMetadata str (strnlen str LOGGER_ENTRY_MAX_PAYLOAD))
             then auditParse (denial_to_bug w) (uidToName w) str uid
             else if dmesg then auditParse (denial_to_bug w) (uidToName w) str1 uid
                  else previous) in *.
  set (n := event_str_len (strnlen str LOGGER_ENTRY_MAX_PAYLOAD) dm) in *.
  set (info := found (strstr str1 (list_ascii_of_string " permissive=1"))
               || found (strstr str1 (list_ascii_of_string " policy loaded "))) in *.
  unfold event_record in Hr.
  destruct (main_message w info str dm pid tid) as [[newstr message_len] pid'] eqn:HM.
  destruct (events this) eqn:Hev, (main this) eqn:Hmain;
    try (destruct Hon; discriminate).
  - destruct (Z.ltb_spec n (Z.of_nat (length dm))) as [Hlt|Hge]; [discriminate Hr|].
    injection Hr as <-. cbn [denial_metadata_after written rc]. fold dm n.
    rewrite HM. cbn [fst snd andb].
    split; [reflexivity|]. split; [intros _; exact Hge|].
    split; [destruct dmesg; reflexivity|].
    destruct (0 <=? Log_events w), (0 <=? Log_main w); cbn [orb];
      destruct (Log_main w <? 0); reflexivity.
  - destruct (Z.ltb_spec n (Z.of_nat (length dm))) as [Hlt|Hge]; [discriminate Hr|].
    injection Hr as <-. cbn [denial_metadata_after written rc]. fold dm n.
    rewrite HM. cbn [fst snd andb].
    split; [reflexivity|]. split; [intros _; exact Hge|].
    split; [destruct dmesg; reflexivity|].
    destruct (0 <=? Log_events w); cbn [orb];
      destruct (Log_events w <? 0); reflexivity.
  - injection Hr as <-. cbn [denial_metadata_after written rc]. fold dm n.
    rewrite HM. cbn [fst snd andb].
    split; [reflexivity|]. split; [discriminate|].
    split; [destruct dmesg; reflexivity|].
    destruct (0 <=? Log_main w); cbn [orb];
      destruct (Log_main w <? 0); reflexivity.
Qed.

Lemma logPrint_silent (this : LogAudit) (w : world) (previous : list ascii)
      (v : vasprintf_result) (r : result) :
  0 <= vasprintf_rc v ->
  logPrint this w previous (Some v) = Some r ->
  main this = false -> events this = false ->
  rc r = 0 /\ forall e, In e (written r) -> exists fd iov, e = DmesgWritev fd iov.
Proof.
  unfold logPrint. intros Hv Hr Hmain Hev.
  destruct (Z.ltb_spec (vasprintf_rc v) 0) as [Hneg|_]; [lia|]. cbv zeta in Hr.
  destruct (take_pid w (replace_newlines (c_str (vasprintf_str v))))
    as [[[[pid tid] uid] str1]|]; [|discriminate Hr].
  cbv zeta in Hr. rewrite Hmain, Hev in Hr. cbn [negb andb] in Hr.
  injection Hr as <-. cbn [rc written]. split; [reflexivity|].
  intros e Hin. destruct ((0 <=? fdDmesg this) && initialized this).
  - destruct Hin as [<-|[]]. eauto.
  - destruct Hin.
Qed.



Lemma c_str_no_NUL (s : list ascii) : ~ In NUL s -> c_str s = s.
Proof.
  induction s as [|c s IH]; intros Hn; [reflexivity|]. cbn [c_str].
  destruct (Ascii.eqb_spec c NUL) as [->|Hne];
    [exfalso; apply Hn; left; reflexivity|].
  rewrite IH; [reflexivity|]. intros Hin. apply Hn. right. exact Hin.
Qed.

Lemma length_strncpy (src : list ascii) (n : Z) :
  length (strncpy src n) = Z.to_nat n.
Proof.
  unfold strncpy. rewrite length_take, length_app, repeat_length. lia.
Qed.

Lemma strncpy_no_NUL (src : list ascii) (n : Z) :
  ~ In NUL src -> n <= Z.of_nat (length src) ->
  strncpy src n = take (Z.to_nat n) src.
Proof.
  intros Hnul Hn. unfold strncpy. rewrite (c_str_no_NUL src Hnul).
  rewrite take_app_le by lia. reflexivity.
Qed.

Lemma find_char_lt (s : list ascii) (c : ascii) (n : nat) :
  find_char s c = Some n -> (n < length s)%nat.
Proof.
  intros Hf. destruct (find_char_Some s c n Hf) as [_ [post Hpost]].
  apply (f_equal length) in Hpost. rewrite length_drop in Hpost. cbn in Hpost. lia.
Qed.

Lemma take_comm_prefix_nonneg (w : world) (str : list ascii) (pid tid : Z) :
  0 <= (take_comm w str pid tid).1.2.
Proof.
  unfold take_comm. destruct (strstr str comm_str); cbn [fst snd]; [lia|].
  destruct (pid =? getpid w); cbn [fst snd]; [lia|].
  destruct (pidToName w pid); cbn [fst snd]; lia.
Qed.

(** The size of [newstr] is one more than what is written into it. *)
Lemma main_message_length (w : world) (info : bool) (str dm : list ascii)
      (pid tid : Z) :
  0 <= LOGGER_ENTRY_MAX_PAYLOAD ->
  Z.of_nat (length (main_message w info str dm pid tid).1.1)
  = (main_message w info str dm pid tid).1.2 - 1
  /\ 2 <= (main_message w info str dm pid tid).1.2.
Proof.
  intros Hcap. unfold main_message.
  pose proof (take_comm_prefix_nonneg w str pid tid) as Hpre.
  destruct (take_comm w str pid tid) as [[comm prefix_len] pid'].
  cbn [fst snd] in Hpre.
  set (prefix := if LOGGER_ENTRY_MAX_PAYLOAD <? prefix_len
                 then LOGGER_ENTRY_MAX_PAYLOAD else prefix_len).
  assert (Hprefix : 0 <= prefix <= LOGGER_ENTRY_MAX_PAYLOAD)
    by (subst prefix; destruct (Z.ltb_spec LOGGER_ENTRY_MAX_PAYLOAD prefix_len); lia).
  destruct (find_char comm QUOTE) as [k|] eqn:Hq; cbn [fst snd];
    unfold main_record;
    rewrite !length_app, !length_strncpy, length_take;
    cbn [length]; unfold strnlen.
  - apply find_char_lt in Hq. lia.
  - lia.
Qed.

(** X17.  The record for the main buffer: the priority byte (INFO for a
    permissive denial or a policy load, WARN otherwise), then the command
    name with a terminating NUL in the place of the tag, then the text with
    its [comm] field cut out, then the bug metadata.  The name is the one
    quoted in the first [ comm="..."] of the message, or auditd when there
    is none and the pid is logd's own, the text then being kept whole up to
    the payload cap.  The buffer handed to [Log] is one byte longer than
    what was written into it: no terminating NUL follows the metadata. *)
Theorem main_record_moves_comm_to_the_tag (w : world) (info : bool) :
  0 <= LOGGER_ENTRY_MAX_PAYLOAD ->
  let prio := low_byte (if info then ANDROID_LOG_INFO else ANDROID_LOG_WARN) in
  (forall str dm pid tid,
      Z.of_nat (length (main_message w info str dm pid tid).1.1)
      = (main_message w info str dm pid tid).1.2 - 1)
  /\ (forall pre name post dm pid tid,
         let str := pre ++ comm_str ++ name ++ QUOTE :: post in
         strstr str comm_str = Some (length pre) ->
         ~ In QUOTE name -> ~ In NUL str -> ~ In NUL dm ->
         Z.of_nat (length pre) <= LOGGER_ENTRY_MAX_PAYLOAD ->
         (main_message w info str dm pid tid).1.1
         = prio :: name ++ NUL :: pre
             ++ take (Z.to_nat (LOGGER_ENTRY_MAX_PAYLOAD - Z.of_nat (length pre))) post
             ++ dm
         /\ (main_message w info str dm pid tid).2 = pid)
  /\ (forall str dm tid,
         strstr str comm_str = None -> ~ In NUL str -> ~ In NUL dm ->
         (main_message w info str dm (getpid w) tid).1.1
         = prio :: list_ascii_of_string "auditd" ++ NUL
             :: take (Z.to_nat LOGGER_ENTRY_MAX_PAYLOAD) str ++ dm
         /\ (main_message w info str dm (getpid w) tid).2 = tid).
Proof.
  intros Hcap prio. split; [|split].
  - intros str dm pid tid. apply main_message_length. exact Hcap.
  - intros pre name post dm pid tid str Hfirst Hq Hnul Hdm Hpre.
    unfold main_message, take_comm. rewrite Hfirst.
    assert (Hcomm : drop (length pre + length comm_str) str = name ++ QUOTE :: post)
      by apply drop_past_marker.
    rewrite Hcomm, (find_char_app name post QUOTE Hq).
    destruct (Z.ltb_spec LOGGER_ENTRY_MAX_PAYLOAD (Z.of_nat (length pre))); [lia|].
    cbn [fst snd]. split; [|reflexivity].
    unfold main_record. fold prio.
    replace (Z.to_nat (Z.of_nat (length name) + 1 - 1)) with (length name) by lia.
    rewrite take_app_length.
    replace (drop (S (length name)) (name ++ QUOTE :: post)) with post
      by (replace (S (length name)) with (length name + 1)%nat by lia;
          rewrite <- drop_drop, drop_app_length; reflexivity).
    assert (Hpost : ~ In NUL post).
    { intros Hin. apply Hnul. unfold str. rewrite !in_app_iff. right. right. right.
      right. exact Hin. }
    rewrite (strncpy_no_NUL str) by (auto; unfold str; rewrite length_app; lia).
    rewrite (strncpy_no_NUL post) by (auto; unfold strnlen; lia).
    rewrite (strncpy_no_NUL dm) by (auto; lia).
    rewrite !Nat2Z.id. unfold str at 1. rewrite take_app_length, firstn_all.
    assert (Hcut : take (Z.to_nat (strnlen post (LOGGER_ENTRY_MAX_PAYLOAD
                                                 - Z.of_nat (length pre)))) post
                   = take (Z.to_nat (LOGGER_ENTRY_MAX_PAYLOAD
                                     - Z.of_nat (length pre))) post).
    { unfold strnlen.
      destruct (Z.le_ge_cases (Z.of_nat (length post))
                              (LOGGER_ENTRY_MAX_PAYLOAD - Z.of_nat (length pre))).
      - rewrite Z.min_l by lia. rewrite Nat2Z.id, firstn_all, take_ge by lia.
        reflexivity.
      - rewrite Z.min_r by lia. reflexivity. }
    rewrite Hcut. reflexivity.
  - intros str dm tid Hnone Hnul Hdm.
    unfold main_message, take_comm. rewrite Hnone, Z.eqb_refl.
    change (find_char (list_ascii_of_string "auditd") QUOTE) with (@None nat).
    cbn [fst snd]. split; [|reflexivity].
    unfold main_record. fold prio. cbn [length list_ascii_of_string].
    change (Z.to_nat (Z.of_nat 6 + 1 - 1)) with 6%nat.
    cbn [take app]. unfold strnlen. cbn [length].
    rewrite (strncpy_no_NUL dm) by (auto; lia).
    rewrite Nat2Z.id, firstn_all.
    rewrite Z.min_l by (destruct (Z.ltb_spec LOGGER_ENTRY_MAX_PAYLOAD
                                             (Z.of_nat (length str))); lia).
    change (strncpy [] 0) with (@nil ascii). cbn [app]. do 8 f_equal.
    rewrite (strncpy_no_NUL str)
      by (auto; destruct (Z.ltb_spec LOGGER_ENTRY_MAX_PAYLOAD (Z.of_nat (length str)));
          lia).
    destruct (Z.ltb_spec LOGGER_ENTRY_MAX_PAYLOAD (Z.of_nat (length str))).
    + reflexivity.
    + rewrite Nat2Z.id, firstn_all, take_ge by lia. reflexivity.
Qed.

(** X18.  What [logPrint] returns.  For a null format it returns -EINVAL,
    and when [vasprintf] fails it returns the negative result of
    [vasprintf]; in both cases nothing is written and the static
    [denial_metadata] stays as it was.  Once the text is there: with
    neither buffer enabled it returns 0 and logs nothing.  Otherwise the
    result of the last [Log] call is returned as it is, except that a
    failure of the main buffer is hidden when the events buffer had taken
    the record: the call then returns the length of the main record, which
    is not negative.  So, for a text, the value is negative only when no
    enabled buffer took the record. *)
Theorem logPrint_fails_only_when_no_buffer_took_the_record
        (this : LogAudit) (w : world) (previous : list ascii) :
  0 <= LOGGER_ENTRY_MAX_PAYLOAD ->
  logPrint this w previous None = Some (mk_result (- EINVAL) previous [])
  /\ (forall v, vasprintf_rc v < 0 ->
                logPrint this w previous (Some v)
                = Some (mk_result (vasprintf_rc v) previous []))
  /\ (forall v r,
         0 <= vasprintf_rc v ->
         logPrint this w previous (Some v) = Some r ->
         (main this = false -> events this = false ->
          rc r = 0
          /\ forall e, In e (written r) -> exists fd iov, e = DmesgWritev fd iov)
         /\ (main this = false -> events this = true -> rc r = Log_events w)
         /\ (main this = true ->
             events this = false \/ Log_events w < 0 \/ 0 <= Log_main w ->
             rc r = Log_main w)
         /\ (main this = true -> events this = true ->
             0 <= Log_events w -> Log_main w < 0 ->
             exists now uid pid tid msg len,
               In (Log LOG_ID_MAIN now uid pid tid msg len) (written r)
               /\ (len < UINT16_MAX -> rc r = len /\ 0 <= rc r))).
Proof.
  intros Hcap. split; [exact (proj1 (logPrint_early this w previous))|].
  split; [exact (proj2 (logPrint_early this w previous))|].
  intros v r Hv Hr. split; [|split; [|split]].
  - intros Hmain Hev. exact (logPrint_silent this w previous v r Hv Hr Hmain Hev).
  - intros Hmain Hev.
    destruct (logPrint_logs this w previous v r Hv Hr)
      as (pid0 & tid0 & uid0 & str1 & now0 & str & _ & _ & Hlog);
      [right; exact Hev|].
    cbv zeta in Hlog. destruct Hlog as (_ & _ & _ & Hrc).
    rewrite Hrc, Hmain, Hev. cbn [andb orb].
    destruct (Z.leb_spec 0 (Log_events w));
      destruct (Z.ltb_spec (Log_events w) 0); try reflexivity; lia.
  - intros Hmain Hcase.
    destruct (logPrint_logs this w previous v r Hv Hr)
      as (pid0 & tid0 & uid0 & str1 & now0 & str & _ & _ & Hlog);
      [left; exact Hmain|].
    cbv zeta in Hlog. destruct Hlog as (_ & _ & _ & Hrc).
    rewrite Hrc, Hmain. cbn [andb].
    destruct (Z.ltb_spec (Log_main w) 0) as [Hneg|Hpos].
    + destruct (Z.leb_spec 0 (Log_main w)); [lia|]. rewrite orb_false_r.
      destruct Hcase as [Hev|[Hev|Hm]]; [rewrite Hev; reflexivity| |lia].
      destruct (Z.leb_spec 0 (Log_events w)); [lia|]. rewrite andb_false_r.
      reflexivity.
    + destruct ((events this && (0 <=? Log_events w)) || (0 <=? Log_main w));
        reflexivity.
  - intros Hmain Hev Hevents Hmainfail.
    destruct (logPrint_logs this w previous v r Hv Hr)
      as (pid0 & tid0 & uid0 & str1 & now0 & str & _ & _ & Hlog);
      [left; exact Hmain|].
    cbv zeta in Hlog. destruct Hlog as (_ & _ & Hw & Hrc).
    rewrite Hmain, Hev in Hw, Hrc. cbn [andb] in Hrc.
    destruct (Z.leb_spec 0 (Log_events w)); [|lia]. cbn [orb] in Hrc.
    destruct (Z.ltb_spec (Log_main w) 0); [|lia].
    eexists _, _, _, _, _, _. split.
    { rewrite Hw, !in_app_iff. right. right. left. reflexivity. }
    intros Hlen. rewrite Hrc.
    match goal with
    | |- context [main_message ?a ?b ?c ?d ?e ?f] =>
        destruct (main_message_length a b c d e f Hcap) as [_ Hm];
        set (m := (main_message a b c d e f).1.2) in *
    end.
    unfold log_len, UINT16_MAX in *.
    destruct (Z.leb_spec m 65535) as [Hle|Hgt]; [|lia].
    rewrite Z.mod_small by lia.
    rewrite to_int_small by (unfold is_int, INT_MIN, INT_MAX; lia). lia.
Qed.

(** X21.  [denial_metadata] is a static variable, and a call of
    [logPrint] that writes no line to dmesg (no descriptor, or the listener
    thread has not run yet) leaves it as it is when the text already carries
    bug metadata: the records of that call end with the metadata of the
    message logged before it.  When the text carries none, the metadata is
    computed afresh from the text. *)
Theorem metadata_of_the_previous_message_is_kept
        (this : LogAudit) (wA wB : world) (previous strB : list ascii)
        (sA sB : option vasprintf_result) (rA rB : result) :
  (0 <=? fdDmesg this) && initialized this = false ->
  main this = true \/ events this = true ->
  logPrint this wA previous sA = Some rA ->
  logPrint this wB (denial_metadata_after rA) sB = Some rB ->
  processed wB sB = Some strB ->
  (hasMetadata strB (strnlen strB LOGGER_ENTRY_MAX_PAYLOAD) = true ->
   denial_metadata_after rB = denial_metadata_after rA
   /\ forall now uid pid tid msg len,
       In (Log LOG_ID_EVENTS now uid pid tid msg len) (written rB) ->
       exists head, msg = head ++ denial_metadata_after rA)
  /\ (hasMetadata strB (strnlen strB LOGGER_ENTRY_MAX_PAYLOAD) = false ->
      exists uid,
        denial_metadata_after rB
        = auditParse (denial_to_bug wB) (uidToName wB) strB uid).
Proof.
  intros Hdmesg Hon HA HB Hstr.
  destruct sB as [v|]; [|discriminate Hstr]. unfold processed in Hstr.
  destruct (Z.ltb_spec (vasprintf_rc v) 0) as [Hneg|Hv]; [discriminate Hstr|].
  destruct (logPrint_logs this wB (denial_metadata_after rA) v rB Hv HB Hon)
    as (pid & tid & uid & str1 & now & str & Hpid & Htime & Hlog).
  cbv zeta in Hlog. destruct Hlog as (Hdm & _ & Hw & _).
  rewrite Hpid, Htime in Hstr. injection Hstr as <-.
  rewrite Hdmesg in Hdm. cbn [negb andb] in Hdm. split.
  - intros Hmeta. rewrite Hmeta in Hdm. cbn [negb] in Hdm. split; [exact Hdm|].
    intros now' uid' pid' tid' msg len Hin. rewrite Hw, Hdmesg in Hin.
    cbn [app] in Hin. apply in_app_iff in Hin as [Hin|Hin].
    + destruct (events this); [|destruct Hin].
      destruct Hin as [Hin|[]]. injection Hin as _ _ _ _ <- _.
      rewrite Hdm.
      exists (le32 AUDITD_LOG_TAG ++ [low_byte EVENT_TYPE_STRING]
                ++ le32 (event_str_len (strnlen str LOGGER_ENTRY_MAX_PAYLOAD)
                                       (denial_metadata_after rA))
                ++ take (Z.to_nat (event_str_len
                                     (strnlen str LOGGER_ENTRY_MAX_PAYLOAD)
                                     (denial_metadata_after rA)
                                   - Z.of_nat (length (denial_metadata_after rA))))
                        str).
      rewrite <- !app_assoc. reflexivity.
    + destruct (main this); [|destruct Hin].
      destruct Hin as [Hin|[]]. discriminate Hin.
  - intros Hmeta. rewrite Hmeta in Hdm. cbn [negb] in Hdm. exists uid. exact Hdm.
Qed.

End AuditPrintProps.

Section AuditPrintExamples.
Import LoggerWrite LogWriters LogAudit AuditMetadata AuditPrint.
#[local] Existing Instance aosp.
#[local] Existing Instance aosp_headers.
#[local] Existing Instance aosp_audit_headers.
#[local] Existing Instance aosp_app_ids.

Lemma pid_field_is_read_and_cut_out_witness :
  take_pid (quiet_world 0 0)
           (list_ascii_of_string "avc: denied for" ++ pid_str
              ++ list_ascii_of_string "10" ++ list_ascii_of_string " name=x")
  = Some (10, 10, 2000, list_ascii_of_string "avc: denied for name=x").
Proof.
  apply (proj1 (pid_field_is_read_and_cut_out
                  (quiet_world 0 0) (list_ascii_of_string "avc: denied for")
                  (list_ascii_of_string "10") (list_ascii_of_string " name=x")
                  eq_refl ltac:(discriminate)
                  ltac:(repeat constructor) eq_refl)).
  vm_compute. discriminate.
Defined.

Lemma time_stamp_is_replaced_by_zero_witness :
  take_time (quiet_world 0 0)
            (list_ascii_of_string "type=1400" ++ audit_str
               ++ list_ascii_of_string "1700000000.123"
               ++ ":"%char :: list_ascii_of_string "45): avc")
  = Some (mk_timespec 1700000000 123000000,
          list_ascii_of_string "type=1400 audit(0.0:45): avc").
Proof.
  apply (proj1 (time_stamp_is_replaced_by_zero (quiet_world 0 0))
               (list_ascii_of_string "type=1400")
               (list_ascii_of_string "1700000000.123")
               (list_ascii_of_string "45): avc")
               (mk_timespec 1700000000 123000000)).
  - reflexivity.
  - reflexivity.
  - cbn. lia.
Defined.


Lemma main_record_moves_comm_to_the_tag_witness :
  (main_message (quiet_world 0 0) false
                (list_ascii_of_string "avc: denied" ++ comm_str
                   ++ list_ascii_of_string "sh"
                   ++ QUOTE :: list_ascii_of_string " name=x")
                (list_ascii_of_string " bug=1") 10 10).1.1
  = low_byte 5 :: list_ascii_of_string "sh" ++ NUL
      :: list_ascii_of_string "avc: denied name=x bug=1".
Proof.
  assert (Hcap : 0 <= @LOGGER_ENTRY_MAX_PAYLOAD aosp) by (cbn; lia).
  destruct (proj1 (proj2 (main_record_moves_comm_to_the_tag
                            (quiet_world 0 0) false Hcap))
                  (list_ascii_of_string "avc: denied")
                  (list_ascii_of_string "sh")
                  (list_ascii_of_string " name=x")
                  (list_ascii_of_string " bug=1") 10 10)
    as [Hrec _].
  - reflexivity.
  - cbn. intros Hin. repeat destruct Hin as [Hin|Hin]; try discriminate Hin.
    exact Hin.
  - cbn. intros Hin. repeat destruct Hin as [Hin|Hin]; try discriminate Hin.
    exact Hin.
  - cbn. intros Hin. repeat destruct Hin as [Hin|Hin]; try discriminate Hin.
    exact Hin.
  - cbn. lia.
  - exact Hrec.
Defined.

Lemma logPrint_fails_only_when_no_buffer_took_the_record_witness :
  (exists r, logPrint both_buffers (quiet_world (-11) 5) [] (formatted denial_line)
             = Some r
             /\ rc r = 5)
  /\ logPrint both_buffers (quiet_world (-11) 5) (list_ascii_of_string " bug=1")
              (Some (mk_vasprintf (-1) []))
     = Some (mk_result (-1) (list_ascii_of_string " bug=1") [])
  /\ logPrint both_buffers (quiet_world (-11) 5) (list_ascii_of_string " bug=1") None
     = Some (mk_result (-22) (list_ascii_of_string " bug=1") []).
Proof.
  assert (Hcap : 0 <= @LOGGER_ENTRY_MAX_PAYLOAD aosp) by (cbn; lia).
  split; [|split].
  - destruct (logPrint both_buffers (quiet_world (-11) 5) [] (formatted denial_line))
      as [r|] eqn:Hr; [|vm_compute in Hr; discriminate Hr].
    exists r. split; [reflexivity|].
    apply (proj1 (proj2 (proj2
             (proj2 (proj2 (logPrint_fails_only_when_no_buffer_took_the_record
                              both_buffers (quiet_world (-11) 5) [] Hcap))
                    (mk_vasprintf (Z.of_nat (length denial_line)) denial_line) r
                    ltac:(cbn; lia) Hr)))).
    + reflexivity.
    + right. left. cbn. lia.
  - apply (proj1 (proj2 (logPrint_fails_only_when_no_buffer_took_the_record
                           both_buffers (quiet_world (-11) 5)
                           (list_ascii_of_string " bug=1") Hcap))
                 (mk_vasprintf (-1) [])).
    cbn. lia.
  - exact (proj1 (logPrint_fails_only_when_no_buffer_took_the_record
                    both_buffers (quiet_world (-11) 5)
                    (list_ascii_of_string " bug=1") Hcap)).
Defined.

Lemma metadata_of_the_previous_message_is_kept_witness :
  exists rA rB,
    logPrint replaying mapped_world [] (formatted mapped_line) = Some rA
    /\ logPrint replaying mapped_world (denial_metadata_after rA)
                (formatted tagged_line)
       = Some rB
    /\ denial_metadata_after rA = list_ascii_of_string " bug=111"
    /\ denial_metadata_after rB = list_ascii_of_string " bug=111".
Proof.
  destruct (logPrint replaying mapped_world [] (formatted mapped_line))
    as [rA|] eqn:HA; [|vm_compute in HA; discriminate HA].
  assert (HrA : denial_metadata_after rA = list_ascii_of_string " bug=111")
    by (vm_compute in HA; injection HA as <-; reflexivity).
  destruct (logPrint replaying mapped_world (denial_metadata_after rA)
                     (formatted tagged_line))
    as [rB|] eqn:HB;
    [|rewrite HrA in HB; vm_compute in HB; discriminate HB].
  exists rA, rB. split; [reflexivity|]. split; [exact HB|].
  split; [exact HrA|]. rewrite <- HrA.
  apply (proj1 (metadata_of_the_previous_message_is_kept
                  replaying mapped_world mapped_world []
                  (list_ascii_of_string
                     "type=1400 audit(0.0:46): avc: denied { read } b/12345678")
                  (formatted mapped_line) (formatted tagged_line)
                  rA rB eq_refl (or_introl eq_refl) HA HB eq_refl)).
  reflexivity.
Defined.

(** The records of a denial: the event record carries the text with the
    pid cut out and the time stamp zeroed; the main record has the command
    name in the place of the tag; the failure of the main buffer is
    answered with the length of its record. *)
Example logPrint_denial_line :
  option_map (fun r => (rc r, map (fun e => match e with
                                            | Log id _ uid pid tid _ len =>
                                                (id, uid, pid, tid, len)
                                            | DmesgWritev fd _ => (fd, 0, 0, 0, 0)
                                            end) (written r)))
             (logPrint both_buffers (quiet_world 0 (-1)) [] (formatted denial_line))
  = Some (74, [(3, 0, 0, 0, 0); (2, 2000, 10, 10, 88); (0, 2000, 10, 10, 74)]).
Proof. vm_compute. reflexivity. Qed.

End AuditPrintExamples.

(** ** logpersist: the last option wins *)
Section LogpersistOptionsProps.
Import Logpersist LogpersistOptions.
Local Open Scope string_scope.

(** [--clear] once seen stays. *)
Lemma parse_args_clear (n : nat) :
  forall (args : list string) (size buffer s b : string) (c : bool),
    (length args <= n)%nat ->
    parse_args args size buffer true = Parsed s b c -> c = true.
Proof.
  induction n as [|n IH]; intros [|a rest] size buffer s b c Hlen.
  - intros [= _ _ <-]. reflexivity.
  - cbn in Hlen. lia.
  - intros [= _ _ <-]. reflexivity.
  - cbn [length] in Hlen. cbn [parse_args].
    destruct (one_of a ["-c"; "--clear"]); [apply IH; lia|].
    destruct (strip_prefix "--size=" a); [apply IH; lia|].
    destruct (strip_prefix "--rotate-count=" a); [apply IH; lia|].
    destruct (one_of a ["-n"; "--size"; "--rotate-count"]).
    { destruct rest as [|v rest']; [discriminate|]. cbn [length] in *.
      apply IH. lia. }
    destruct (strip_prefix "--buffer=" a); [apply IH; lia|].
    destruct (one_of a ["-b"; "--buffer"]).
    { destruct rest as [|v rest']; [discriminate|]. cbn [length] in *.
      apply IH. lia. }
    destruct (one_of a ["-h"; "--help"]); discriminate.
Qed.

(** X19.  In the argument loop of logpersist a later option replaces an
    earlier one: after any arguments the loop has gone through, a size
    given as --size=v, --rotate-count=v, or as the word after -n, --size or
    --rotate-count becomes the size, and a buffer given as --buffer=v or as
    the word after -b or --buffer becomes the buffer, the other variables
    staying as they were.  The word after -n or -b is taken as it is, even
    when it looks like an option, and when there is none the script fails in
    [shift].  Once -c or --clear has been seen, [clear] stays true whatever
    follows. *)
Theorem logpersist_last_option_wins
        (pre : list string) (size buffer s b : string) (clear c : bool)
        (v : string) :
  parse_args pre size buffer clear = Parsed s b c ->
  parse_args (pre ++ ["--size=" ++ v]) size buffer clear = Parsed v b c
  /\ parse_args (pre ++ ["--rotate-count=" ++ v]) size buffer clear = Parsed v b c
  /\ parse_args (pre ++ ["-n"; v]) size buffer clear = Parsed v b c
  /\ parse_args (pre ++ ["--size"; v]) size buffer clear = Parsed v b c
  /\ parse_args (pre ++ ["--rotate-count"; v]) size buffer clear = Parsed v b c
  /\ parse_args (pre ++ ["--buffer=" ++ v]) size buffer clear = Parsed s v c
  /\ parse_args (pre ++ ["-b"; v]) size buffer clear = Parsed s v c
  /\ parse_args (pre ++ ["--buffer"; v]) size buffer clear = Parsed s v c
  /\ parse_args (pre ++ ["-n"]) size buffer clear = Stopped ShiftFailure
  /\ parse_args (pre ++ ["-b"]) size buffer clear = Stopped ShiftFailure
  /\ parse_args (pre ++ ["-c"]) size buffer clear = Parsed s b true
  /\ parse_args (pre ++ ["--clear"]) size buffer clear = Parsed s b true
  /\ (forall post s' b' c',
         c = true ->
         parse_args (pre ++ post) size buffer clear = Parsed s' b' c' ->
         c' = true).
Proof.
  intros Hpre.
  assert (Happ : forall post,
             parse_args (pre ++ post) size buffer clear = parse_args post s b c)
    by (intros post; exact (parse_args_app (length pre) pre size buffer clear
                                           s b c post (le_n _) Hpre)).
  repeat split; try (rewrite Happ; reflexivity).
  intros post s' b' c' -> Hpost. rewrite Happ in Hpost.
  exact (parse_args_clear (length post) post s b s' b' c' (le_n _) Hpost).
Qed.

Lemma logpersist_last_option_wins_witness :
  parse_args (["--size=100"; "-c"; "-b"; "main"] ++ ["--rotate-count=" ++ "512"])
             size_default buffer_default false
  = Parsed "512" "main" true.
Proof.
  apply (proj1 (proj2 (logpersist_last_option_wins
                         ["--size=100"; "-c"; "-b"; "main"]
                         size_default buffer_default "100" "main" false true
                         "512" eq_refl))).
Defined.

End LogpersistOptionsProps.
